(** * Online metronome: lookahead scheduler and mobile recovery

    A shallow embedding of [js/metronome.js] (class [Metronome]) and of the
    recovery handlers of [js/mobile.js], with the properties of the
    scheduler stated over it.

    Layout:
    - [JS]: the number operations the code uses ([Math.min], [Math.floor],
      [%], [<], [===], ...), over exact rationals extended with [NaN] and
      the two infinities;
    - [Host]: the browser objects the code talks to (audio context, interval
      timers) and the log of calls made to them;
    - [Metronome]: the class, method by method;
    - [Mobile]: [recoverPlayback], the [statechange] listener and the
      [visibilitychange] listener;
    - [UI]: the handlers [initUI] of [js/ui.js] registers, over the few
      page elements they read and write;
    - [SilentAudio]: the buffer [buildSilentWavUrl] of [js/mobile.js]
      fills;
    - [Rounded]: the scheduling pass again, in rounded arithmetic, for
      the size of a pass;
    - then the lemmas and the theorems. *)

From Stdlib Require Import ZArith QArith Qround Qabs Lia Lqa List Bool.
Import ListNotations.

(* ================================================================== *)
(** ** Numbers *)
(* ================================================================== *)

(** A JavaScript number is an IEEE double.  The model keeps the finite
    values as exact rationals (no rounding error, no overflow) and keeps
    [NaN] and the infinities apart, since the setters let them through.
    The sign of zero is not modelled: a division by zero takes the zero
    as positive. *)
Module JS.

Inductive num : Type :=
| NaN
| NInf
| Fin (q : Q)
| PInf.

Definition Qlt_bool (x y : Q) : bool := negb (Qle_bool y x).

(** Truncation toward zero, as used by [%]. *)
Definition Qtrunc (q : Q) : Z := Z.quot (Qnum q) (Zpos (Qden q)).

Definition neg (a : num) : num :=
  match a with
  | NaN => NaN
  | NInf => PInf
  | Fin x => Fin (- x)
  | PInf => NInf
  end.

(** [a + b] *)
Definition add (a b : num) : num :=
  match a, b with
  | NaN, _ | _, NaN => NaN
  | PInf, NInf | NInf, PInf => NaN
  | PInf, _ | _, PInf => PInf
  | NInf, _ | _, NInf => NInf
  | Fin x, Fin y => Fin (x + y)
  end.

(** [a - b] *)
Definition sub (a b : num) : num := add a (neg b).

(** An infinity of the sign of [x], [NaN] for zero. *)
Definition inf_of_sign (x : Q) (pos : num) : num :=
  match x ?= 0 with
  | Gt => pos
  | Lt => neg pos
  | Eq => NaN
  end.

(** [a * b] *)
Definition mul (a b : num) : num :=
  match a, b with
  | NaN, _ | _, NaN => NaN
  | Fin x, Fin y => Fin (x * y)
  | Fin x, PInf | PInf, Fin x => inf_of_sign x PInf
  | Fin x, NInf | NInf, Fin x => inf_of_sign x NInf
  | PInf, PInf | NInf, NInf => PInf
  | PInf, NInf | NInf, PInf => NInf
  end.

(** [a / b] *)
Definition div (a b : num) : num :=
  match a, b with
  | NaN, _ | _, NaN => NaN
  | Fin x, Fin y => if Qeq_bool y 0 then inf_of_sign x PInf else Fin (x / y)
  | Fin _, PInf | Fin _, NInf => Fin 0
  | PInf, Fin y => if Qlt_bool y 0 then NInf else PInf
  | NInf, Fin y => if Qlt_bool y 0 then PInf else NInf
  | PInf, _ | NInf, _ => NaN
  end.

(** [a % b]: the remainder has the sign of the dividend. *)
Definition rem (a b : num) : num :=
  match a, b with
  | NaN, _ | _, NaN => NaN
  | PInf, _ | NInf, _ => NaN
  | Fin x, PInf | Fin x, NInf => Fin x
  | Fin x, Fin y =>
      if Qeq_bool y 0 then NaN else Fin (x - y * inject_Z (Qtrunc (x / y)))
  end.

(** [a < b] *)
Definition lt (a b : num) : bool :=
  match a, b with
  | NaN, _ | _, NaN => false
  | _, NInf => false
  | PInf, _ => false
  | NInf, _ => true
  | _, PInf => true
  | Fin x, Fin y => Qlt_bool x y
  end.

(** [a === b] on numbers *)
Definition eq (a b : num) : bool :=
  match a, b with
  | NaN, _ | _, NaN => false
  | NInf, NInf | PInf, PInf => true
  | Fin x, Fin y => Qeq_bool x y
  | _, _ => false
  end.

(** [Math.max(a, b)] *)
Definition max (a b : num) : num :=
  match a, b with
  | NaN, _ | _, NaN => NaN
  | PInf, _ | _, PInf => PInf
  | NInf, c | c, NInf => c
  | Fin x, Fin y => Fin (if Qle_bool x y then y else x)
  end.

(** [Math.min(a, b)] *)
Definition min (a b : num) : num :=
  match a, b with
  | NaN, _ | _, NaN => NaN
  | NInf, _ | _, NInf => NInf
  | PInf, c | c, PInf => c
  | Fin x, Fin y => Fin (if Qle_bool x y then x else y)
  end.

(** [Math.floor(a)] *)
Definition floor (a : num) : num :=
  match a with
  | Fin x => Fin (inject_Z (Qfloor x))
  | _ => a
  end.

(** [Math.round(a)]: to the nearest integer, halves toward +infinity. *)
Definition round (a : num) : num :=
  match a with
  | Fin x => Fin (inject_Z (Qfloor (x + (1 # 2))))
  | _ => a
  end.

(** Integer literals and integer-valued numbers. *)
Definition int (z : Z) : num := Fin (inject_Z z).

End JS.

Import JS.

(* ================================================================== *)
(** ** The browser side *)
(* ================================================================== *)

Module Host.

(** [AudioContext.state] *)
Inductive ctx_state : Type := running | suspended | interrupted | closed.

Definition ctx_state_eqb (a b : ctx_state) : bool :=
  match a, b with
  | running, running | suspended, suspended
  | interrupted, interrupted | closed, closed => true
  | _, _ => false
  end.

(** The audio context as the code reads it: its lifecycle state, its clock
    (a finite, non-negative number of seconds), the latency hint (which
    some browsers do not define) and the flag [mobile.js] sets on it. *)
Record AudioContext : Type := mkCtx {
  state         : ctx_state;
  currentTime   : Q;
  baseLatency   : option Q;
  _mobileHooked : bool
}.

(** One oscillator through one gain node: [osc.frequency.value],
    [gain.gain.setValueAtTime(vol, time)], [osc.start(time)] and
    [osc.stop(time + CLICK_DURATION)]. *)
Record tone : Type := mkTone {
  frequency : num;
  gain      : num;
  startTime : num;
  stopTime  : num
}.

(** The two properties [mobile.js] assigns on the metronome object. *)
Inductive hook : Type := onStart | onStop.

(** Calls that leave the metronome: what a run of the code asks of the
    browser, in order. *)
Inductive call : Type :=
| NewAudioContext
| CtxResume
| Click (beat subdiv : num) (t : tone)
| SetTimeout (beat delayMs : num)
| SetInterval (handle : nat) (ms : Z)
| ClearInterval (handle : nat)
| RequestWakeLock
| Invoke (h : hook).

(** How a call of a method ends: it returns, it throws, or the model ran
    out of fuel before the loop inside it finished. *)
Inductive result (A : Type) : Type :=
| Ret (a : A)
| Throw
| OutOfFuel.

Arguments Ret {A} a.
Arguments Throw {A}.
Arguments OutOfFuel {A}.

Definition bind {A B : Type} (r : result A) (k : A -> result B) : result B :=
  match r with
  | Ret a => k a
  | Throw => Throw
  | OutOfFuel => OutOfFuel
  end.

End Host.

Import Host.

Notation "x <- r ;; k" := (bind r (fun x => k))
  (at level 61, r at next level, right associativity).

(* ================================================================== *)
(** ** The Metronome class *)
(* ================================================================== *)

Module Metronome.

(** The metronome object together with the browser state its methods read
    and write.  The first nine fields are the instance fields of the class,
    under their names; [onBeat] is only read when a timeout fires and is
    left out. *)
Record world : Type := mkWorld {
  _bpm             : num;
  _beatsPerMeasure : num;
  _volume          : num;
  _subdivision     : num;
  _audioCtx        : option AudioContext;
  _intervalId      : option nat;
  _nextBeatTime    : num;
  _currentBeat     : num;
  _currentSubdiv   : num;
  (* browser *)
  AC         : AudioContext;   (* what [new AC()] hands out *)
  timers     : list nat;       (* live [setInterval] handles *)
  nextHandle : nat;            (* next handle [setInterval] returns *)
  log        : list call       (* calls made so far, oldest first *)
}.

(** Constants set in the constructor and never assigned again. *)
Definition SCHEDULE_AHEAD_TIME : num := Fin (1 # 10).
Definition LOOKAHEAD_INTERVAL : Z := 25.
Definition FREQ_ACCENT : num := int 1500.
Definition FREQ_NORMAL : num := int 1000.
Definition CLICK_DURATION : num := Fin (3 # 100).

(** [new Metronome()] in a page whose audio constructor hands out [ac]. *)
Definition constructor (ac : AudioContext) : world :=
  {| _bpm := int 120; _beatsPerMeasure := int 4; _volume := Fin (8 # 10);
     _subdivision := int 1;
     _audioCtx := None; _intervalId := None;
     _nextBeatTime := int 0; _currentBeat := int 0; _currentSubdiv := int 0;
     AC := ac; timers := []; nextHandle := 1%nat; log := [] |}.

(** Field assignments. *)
Definition with_bpm (v : num) (w : world) : world :=
  mkWorld v (_beatsPerMeasure w) (_volume w) (_subdivision w) (_audioCtx w)
    (_intervalId w) (_nextBeatTime w) (_currentBeat w) (_currentSubdiv w)
    (AC w) (timers w) (nextHandle w) (log w).

Definition with_beatsPerMeasure (v : num) (w : world) : world :=
  mkWorld (_bpm w) v (_volume w) (_subdivision w) (_audioCtx w)
    (_intervalId w) (_nextBeatTime w) (_currentBeat w) (_currentSubdiv w)
    (AC w) (timers w) (nextHandle w) (log w).

Definition with_volume (v : num) (w : world) : world :=
  mkWorld (_bpm w) (_beatsPerMeasure w) v (_subdivision w) (_audioCtx w)
    (_intervalId w) (_nextBeatTime w) (_currentBeat w) (_currentSubdiv w)
    (AC w) (timers w) (nextHandle w) (log w).

Definition with_subdivision (v : num) (w : world) : world :=
  mkWorld (_bpm w) (_beatsPerMeasure w) (_volume w) v (_audioCtx w)
    (_intervalId w) (_nextBeatTime w) (_currentBeat w) (_currentSubdiv w)
    (AC w) (timers w) (nextHandle w) (log w).

Definition with_audioCtx (v : option AudioContext) (w : world) : world :=
  mkWorld (_bpm w) (_beatsPerMeasure w) (_volume w) (_subdivision w) v
    (_intervalId w) (_nextBeatTime w) (_currentBeat w) (_currentSubdiv w)
    (AC w) (timers w) (nextHandle w) (log w).

Definition with_nextBeatTime (v : num) (w : world) : world :=
  mkWorld (_bpm w) (_beatsPerMeasure w) (_volume w) (_subdivision w)
    (_audioCtx w) (_intervalId w) v (_currentBeat w) (_currentSubdiv w)
    (AC w) (timers w) (nextHandle w) (log w).

Definition with_currentBeat (v : num) (w : world) : world :=
  mkWorld (_bpm w) (_beatsPerMeasure w) (_volume w) (_subdivision w)
    (_audioCtx w) (_intervalId w) (_nextBeatTime w) v (_currentSubdiv w)
    (AC w) (timers w) (nextHandle w) (log w).

Definition with_currentSubdiv (v : num) (w : world) : world :=
  mkWorld (_bpm w) (_beatsPerMeasure w) (_volume w) (_subdivision w)
    (_audioCtx w) (_intervalId w) (_nextBeatTime w) (_currentBeat w) v
    (AC w) (timers w) (nextHandle w) (log w).

Definition with_log (l : list call) (w : world) : world :=
  mkWorld (_bpm w) (_beatsPerMeasure w) (_volume w) (_subdivision w)
    (_audioCtx w) (_intervalId w) (_nextBeatTime w) (_currentBeat w)
    (_currentSubdiv w) (AC w) (timers w) (nextHandle w) l.

(** A call reaches the browser. *)
Definition emit (c : call) (w : world) : world := with_log (log w ++ [c]) w.

(** [this._intervalId = setInterval(cb, ms)]: the browser registers a timer
    and returns a fresh, non-null handle. *)
Definition setInterval (ms : Z) (w : world) : world :=
  let h := nextHandle w in
  mkWorld (_bpm w) (_beatsPerMeasure w) (_volume w) (_subdivision w)
    (_audioCtx w) (Some h) (_nextBeatTime w) (_currentBeat w)
    (_currentSubdiv w) (AC w) (h :: timers w) (S h)
    (log w ++ [SetInterval h ms]).

(** [clearInterval(h); this._intervalId = null] *)
Definition clearInterval (h : nat) (w : world) : world :=
  mkWorld (_bpm w) (_beatsPerMeasure w) (_volume w) (_subdivision w)
    (_audioCtx w) None (_nextBeatTime w) (_currentBeat w)
    (_currentSubdiv w) (AC w)
    (filter (fun h' => negb (Nat.eqb h' h)) (timers w)) (nextHandle w)
    (log w ++ [ClearInterval h]).

(** *** Public API *)

(** [set bpm(value)] *)
Definition set_bpm (value : num) (w : world) : world :=
  with_bpm (min (int 300) (max (int 20) (round value))) w.

(** [set beatsPerMeasure(value)] *)
Definition set_beatsPerMeasure (value : num) (w : world) : world :=
  with_currentBeat (int 0) (with_beatsPerMeasure value w).

(** [set volume(value)] *)
Definition set_volume (value : num) (w : world) : world :=
  with_volume (min (int 1) (max (int 0) value)) w.

(** [set subdivision(value)] *)
Definition set_subdivision (value : num) (w : world) : world :=
  with_currentSubdiv (int 0)
    (with_subdivision (max (int 1) (floor value)) w).

(** [get isRunning()] *)
Definition isRunning (w : world) : bool :=
  match _intervalId w with
  | Some _ => true
  | None => false
  end.

(** *** Internal *)

(** [_ensureAudioContext()] *)
Definition _ensureAudioContext (w : world) : world :=
  match _audioCtx w with
  | Some _ => w
  | None => with_audioCtx (Some (AC w)) (emit NewAudioContext w)
  end.

(** [ctx.baseLatency || 0.01]: [undefined] and [0] are both falsy. *)
Definition latency_or_default (ctx : AudioContext) : Q :=
  match baseLatency ctx with
  | Some l => if Qeq_bool l 0 then 1 # 100 else l
  | None => 1 # 100
  end.

(** [_scheduleClick(beat, subdiv, time)] *)
Definition _scheduleClick (beat subdiv time : num) (w : world)
  : result world :=
  match _audioCtx w with
  | None => Throw
  | Some ctx =>
      let isAccent := eq beat (int 0) && eq subdiv (int 0) in
      let isBeat := eq subdiv (int 0) in
      let freq :=
        if isAccent then FREQ_ACCENT
        else if isBeat then FREQ_NORMAL
        else int 600 in
      let subdivVolume :=
        if isBeat then _volume w else mul (_volume w) (Fin (45 # 100)) in
      let vol := max subdivVolume (Fin (1 # 10000)) in
      let w1 :=
        emit (Click beat subdiv
                (mkTone freq vol time (add time CLICK_DURATION))) w in
      if eq subdiv (int 0) then
        let delayMs :=
          max (int 0)
              (mul (sub time (Fin (currentTime ctx))) (int 1000)) in
        Ret (emit (SetTimeout beat delayMs) w1)
      else Ret w1
  end.

(** [_advanceBeat()] *)
Definition _advanceBeat (w : world) : world :=
  let w1 :=
    with_nextBeatTime
      (add (_nextBeatTime w) (div (div (int 60) (_bpm w)) (_subdivision w)))
      w in
  let w2 :=
    with_currentSubdiv
      (rem (add (_currentSubdiv w1) (int 1)) (_subdivision w1)) w1 in
  if eq (_currentSubdiv w2) (int 0) then
    with_currentBeat
      (rem (add (_currentBeat w2) (int 1)) (_beatsPerMeasure w2)) w2
  else w2.

(** The [while] loop of [_schedule]; one unit of fuel per iteration. *)
Fixpoint schedule_loop (fuel : nat) (scheduleUntil : num) (w : world)
  : result world :=
  if lt (_nextBeatTime w) scheduleUntil then
    match fuel with
    | O => OutOfFuel
    | S fuel' =>
        w1 <- _scheduleClick (_currentBeat w) (_currentSubdiv w)
                (_nextBeatTime w) w ;;
        schedule_loop fuel' scheduleUntil (_advanceBeat w1)
    end
  else Ret w.

(** [_schedule()] *)
Definition _schedule (fuel : nat) (w : world) : result world :=
  match _audioCtx w with
  | None => Throw
  | Some ctx =>
      let scheduleUntil := add (Fin (currentTime ctx)) SCHEDULE_AHEAD_TIME in
      schedule_loop fuel scheduleUntil w
  end.

(** [start()] *)
Definition start (fuel : nat) (w : world) : result world :=
  if isRunning w then Ret w
  else
    let w1 := _ensureAudioContext w in
    match _audioCtx w1 with
    | None => Throw
    | Some ctx =>
        let w2 :=
          if ctx_state_eqb (state ctx) suspended then emit CtxResume w1
          else w1 in
        let w3 := with_currentBeat (int 0) w2 in
        let w4 := with_currentSubdiv (int 0) w3 in
        let w5 :=
          with_nextBeatTime
            (add (Fin (currentTime ctx)) (Fin (latency_or_default ctx))) w4 in
        w6 <- _schedule fuel w5 ;;
        Ret (setInterval LOOKAHEAD_INTERVAL w6)
    end.

(** [stop()] *)
Definition stop (w : world) : world :=
  match _intervalId w with
  | None => w
  | Some h => clearInterval h w
  end.

(** *** What the browser does to the page *)

(** The audio clock reads [t]. *)
Definition set_clock (t : Q) (w : world) : world :=
  match _audioCtx w with
  | None => w
  | Some ctx =>
      with_audioCtx
        (Some (mkCtx (state ctx) t (baseLatency ctx) (_mobileHooked ctx))) w
  end.

(** The audio context changes its lifecycle state. *)
Definition set_state (s : ctx_state) (w : world) : world :=
  match _audioCtx w with
  | None => w
  | Some ctx =>
      with_audioCtx
        (Some (mkCtx s (currentTime ctx) (baseLatency ctx)
                 (_mobileHooked ctx))) w
  end.

(** The interval callback [() => this._schedule()] fires while the audio
    clock reads [now]. *)
Definition tick (fuel : nat) (now : Q) (w : world) : result world :=
  _schedule fuel (set_clock now w).

(** The interval callback fires once per clock reading of [nows]. *)
Fixpoint ticks (fuel : nat) (nows : list Q) (w : world) : result world :=
  match nows with
  | [] => Ret w
  | now :: rest => w1 <- tick fuel now w ;; ticks fuel rest w1
  end.

End Metronome.

Import Metronome.

(* ================================================================== *)
(** ** mobile.js: recovery after an interruption *)
(* ================================================================== *)

Module Mobile.

(** [requestWakeLock()]: touches neither the metronome nor the audio
    context; whether the browser has the API is the browser's side. *)
Definition requestWakeLock (w : world) : world := emit RequestWakeLock w.

(** [recoverPlayback()] *)
Definition recoverPlayback (w : world) : world :=
  match _audioCtx w with
  | None => w
  | Some ctx =>
      let w1 :=
        if ctx_state_eqb (state ctx) suspended
           || ctx_state_eqb (state ctx) interrupted
        then emit CtxResume w
        else w in
      if isRunning w1 then
        with_nextBeatTime
          (add (Fin (currentTime ctx)) (Fin (latency_or_default ctx))) w1
      else w1
  end.

(** [hookAudioContextRecovery()]: registers the [statechange] listener,
    once per context. *)
Definition hookAudioContextRecovery (w : world) : world :=
  match _audioCtx w with
  | None => w
  | Some ctx =>
      if _mobileHooked ctx then w
      else
        with_audioCtx
          (Some (mkCtx (state ctx) (currentTime ctx) (baseLatency ctx) true))
          w
  end.

(** The body of the [statechange] listener. *)
Definition statechange_listener (w : world) : world :=
  match _audioCtx w with
  | None => w
  | Some ctx =>
      if ctx_state_eqb (state ctx) running && isRunning w then
        with_nextBeatTime
          (add (Fin (currentTime ctx)) (Fin (latency_or_default ctx))) w
      else w
  end.

(** The audio context moves to state [s]; the listener runs if it was
    registered. *)
Definition statechange (s : ctx_state) (w : world) : world :=
  let w1 := set_state s w in
  match _audioCtx w1 with
  | Some ctx => if _mobileHooked ctx then statechange_listener w1 else w1
  | None => w1
  end.

(** The [visibilitychange] listener; [visible] is
    [document.visibilityState === 'visible']. *)
Definition visibilitychange_listener (visible : bool) (w : world) : world :=
  if visible && isRunning w then requestWakeLock (recoverPlayback w)
  else w.

End Mobile.

Import Mobile.

(* ================================================================== *)
(** ** Reading the log *)
(* ================================================================== *)

(** The (beat, subdivision) pairs of the clicks in a log, in order. *)
Fixpoint clicks (l : list call) : list (num * num) :=
  match l with
  | [] => []
  | Click b s _ :: rest => (b, s) :: clicks rest
  | _ :: rest => clicks rest
  end.

(** The tones of the clicks in a log, in order. *)
Fixpoint tones (l : list call) : list tone :=
  match l with
  | [] => []
  | Click _ _ t :: rest => t :: tones rest
  | _ :: rest => tones rest
  end.

(** The beat indices handed to [setTimeout] callbacks, in order. *)
Fixpoint timeouts (l : list call) : list num :=
  match l with
  | [] => []
  | SetTimeout b _ :: rest => b :: timeouts rest
  | _ :: rest => timeouts rest
  end.

(** What happened between two worlds. *)
Definition since (w w' : world) : list call :=
  skipn (length (log w)) (log w').

(** A session: [start()], then the interval callback at the clock readings
    [nows]. *)
Definition session (fuel : nat) (nows : list Q) (w : world) : result world :=
  w1 <- start fuel w ;; ticks fuel nows w1.

(* ================================================================== *)
(** ** Vocabulary of the properties *)
(* ================================================================== *)

(** The Playback Cursor. *)
Definition cursor (w : world) : num * num * num :=
  (_currentBeat w, _currentSubdiv w, _nextBeatTime w).

(** The cursor before the [k]-th click of a run that started at (0, 0):
    row-major position [k] of [0, M) x [0, S), cycling. *)
Definition cursor_at (M S k : Z) : num * num :=
  (int ((k / S) mod M), int (k mod S)).

(** The subdivision interval [(60 / bpm) / subdivision], in seconds. *)
Definition interval (b s : Z) : Q := (inject_Z 60 / inject_Z b) / inject_Z s.

(** Number of iterations of the loop of a pass that starts with the cursor
    at time [t] and schedules until [u]. *)
Definition pass_length (u t i : Q) : nat := Z.to_nat (Qceiling ((u - t) / i)).

(** Upper bound on a pass read off the window: the lookahead over the
    subdivision interval, rounded up. *)
Definition window_bound (b s : Z) : nat :=
  Z.to_nat (Qceiling ((1 # 10) / interval b s)).

(** A positive integer, as a stored number. *)
Definition positive_integer (v : num) : Prop :=
  exists z : Z, (1 <= z)%Z /\ v = int z.

(** A tone that starts at a finite time, not before [T]. *)
Definition not_before (T : Q) (tn : tone) : Prop :=
  exists t : Q, startTime tn = Fin t /\ T <= t.

(** The rule a click obeys when the configured volume is [vol]: accent
    pitch at (0, 0), beat pitch at (n, 0), subdivision pitch elsewhere;
    beat clicks at the configured volume and subdivision clicks at 0.45
    of it, neither below the floor of 0.0001 the gain ramp needs. *)
Definition click_rule (vol : num) (c : call) : Prop :=
  match c with
  | Click b s tn =>
      (eq b (int 0) = true -> eq s (int 0) = true ->
       frequency tn = int 1500)
      /\ (eq b (int 0) = false -> eq s (int 0) = true ->
          frequency tn = int 1000)
      /\ (eq s (int 0) = true -> gain tn = max vol (Fin (1 # 10000)))
      /\ (eq s (int 0) = false ->
          frequency tn = int 600
          /\ gain tn = max (mul vol (Fin (45 # 100))) (Fin (1 # 10000)))
  | _ => True
  end.

(** The page with a running metronome has exactly its timer live. *)
Definition timer_live (w : world) : Prop :=
  timers w = match _intervalId w with Some h => [h] | None => [] end.

(* ================================================================== *)
(** ** Invariants of a run *)
(* ================================================================== *)

(** [_scheduleClick] and [_advanceBeat] leave the configuration, the audio
    context and the timers alone. *)
Definition same_setup (w w' : world) : Prop :=
  _bpm w' = _bpm w /\ _beatsPerMeasure w' = _beatsPerMeasure w
  /\ _volume w' = _volume w /\ _subdivision w' = _subdivision w
  /\ _audioCtx w' = _audioCtx w /\ _intervalId w' = _intervalId w
  /\ AC w' = AC w /\ timers w' = timers w /\ nextHandle w' = nextHandle w.

(** A metronome that can run a pass: it has its audio context, a stored
    tempo [b] and a stored subdivision [s], both positive integers. *)
Definition ready (b s : Z) (w : world) : Prop :=
  (0 < b)%Z /\ (0 < s)%Z /\ _bpm w = int b /\ _subdivision w = int s
  /\ exists ctx, _audioCtx w = Some ctx.

(** The audio context [start()] works with: the one already created, or the
    one [_ensureAudioContext] creates. *)
Definition start_ctx (w : world) : AudioContext :=
  match _audioCtx w with
  | Some ctx => ctx
  | None => AC w
  end.

(** The world [start()] hands to its first pass, when it does not return
    early: context ensured and resumed, cursor reset and anchored. *)
Definition before_first_pass (w : world) : world :=
  let w1 := _ensureAudioContext w in
  let ctx := start_ctx w in
  let w2 :=
    if ctx_state_eqb (state ctx) suspended then emit CtxResume w1 else w1 in
  with_nextBeatTime
    (add (Fin (currentTime ctx)) (Fin (latency_or_default ctx)))
    (with_currentSubdiv (int 0) (with_currentBeat (int 0) w2)).

(** The calls [evs] made since a start at the cursor (0, 0), read against
    the row-major enumeration for meter [M] and subdivision [S]: the clicks
    are its first positions, each carrying its pair; a timeout was set for
    exactly the clicks whose subdivision index is 0, with the beat index
    of that click; and the cursor of [w] is the next position. *)
Definition in_sequence (M S : Z) (evs : list call) (w : world) : Prop :=
  clicks evs
  = map (fun k => cursor_at M S (Z.of_nat k)) (seq 0 (length (clicks evs)))
  /\ timeouts evs
     = map fst (filter (fun p => eq (snd p) (int 0)) (clicks evs))
  /\ (_currentBeat w, _currentSubdiv w)
     = cursor_at M S (Z.of_nat (length (clicks evs))).

(** The invariant of a run with meter [M] and subdivision [S] that started
    when the log was [pre]. *)
Definition sequencing (M S : Z) (pre : list call) (w : world) : Prop :=
  _beatsPerMeasure w = int M /\ _subdivision w = int S
  /\ exists evs, log w = pre ++ evs /\ in_sequence M S evs w.

(** The invariant of a run at configured volume [vol] that started when the
    log was [pre]: every call since obeys [click_rule]. *)
Definition ruled (vol : num) (pre : list call) (w : world) : Prop :=
  _volume w = vol
  /\ exists evs, log w = pre ++ evs /\ Forall (click_rule vol) evs.

(* ================================================================== *)
(** ** The page as a transition system *)
(* ================================================================== *)

(** What can happen to the page: the UI calls the public API (and, in its
    click handler, [_ensureAudioContext] and [ctx.resume()]); the interval
    timer fires while it is live; the audio clock moves; the audio context
    changes state; the page changes visibility.  [mobile.js] registers its
    [statechange] listener from the [onStart] property only; the step is
    there for any caller of [hookAudioContextRecovery]. *)
Inductive step : world -> world -> Prop :=
| step_set_bpm v w : step w (set_bpm v w)
| step_set_beatsPerMeasure v w : step w (set_beatsPerMeasure v w)
| step_set_volume v w : step w (set_volume v w)
| step_set_subdivision v w : step w (set_subdivision v w)
| step_start fuel w w' : start fuel w = Ret w' -> step w w'
| step_stop w : step w (stop w)
| step_ensure w : step w (_ensureAudioContext w)
| step_resume w : step w (emit CtxResume w)
| step_tick fuel now w w' :
    timers w <> [] -> tick fuel now w = Ret w' -> step w w'
| step_clock now w : step w (set_clock now w)
| step_hook w : step w (hookAudioContextRecovery w)
| step_statechange s w : step w (statechange s w)
| step_visibility visible w : step w (visibilitychange_listener visible w).

(** The worlds the page can be in, from [new Metronome()] on. *)
Inductive reachable : world -> Prop :=
| reachable_new ac : reachable (constructor ac)
| reachable_step w w' : reachable w -> step w w' -> reachable w'.

(* ================================================================== *)
(** ** Sample pages *)
(* ================================================================== *)

(** A running audio context at time 0 that reports 5 ms of latency. *)
Definition sample_ctx : AudioContext := mkCtx running 0 (Some (5 # 1000)) false.

(** A fresh metronome: 120 bpm, 4 beats, subdivision 1, volume 0.8. *)
Definition fresh : world := constructor sample_ctx.

(** Three beats per measure, two clicks per beat. *)
Definition waltz : world :=
  set_subdivision (int 2) (set_beatsPerMeasure (int 3) fresh).

(** Muted, two clicks per beat. *)
Definition muted : world :=
  set_subdivision (int 2) (set_volume (int 0) fresh).

(** The fresh metronome started at time 0; its first pass scheduled the
    click at 0.005 and left the cursor at 0.505. *)
Definition started : result world := start 4 fresh.

(** The fresh metronome, running since time 0. *)
Definition playing : world :=
  match started with
  | Ret w => w
  | _ => fresh
  end.

(** The running metronome when its timer fires 2 s late, and after the
    pass that then runs. *)
Definition overdue : world := set_clock 2 playing.

Definition caught_up : world :=
  match _schedule 10 overdue with
  | Ret w => w
  | _ => overdue
  end.

(* ================================================================== *)
(** ** Tactics *)
(* ================================================================== *)

(** Case analysis on the condition of the [if] in the goal. *)
Ltac case_if :=
  match goal with
  | |- context [if ?c then _ else _] => destruct c
  end.

(* ================================================================== *)
(** ** A running page, more generally *)
(* ================================================================== *)

(** What happens to a page between [start()] and [stop()]: the interval
    callback fires at a clock reading, the audio clock moves on, the page
    changes visibility, the audio context changes state, the user moves
    the tempo or the volume control. *)
Inductive happening : Type :=
| Tick (now : Q)
| Clock (now : Q)
| VisibilityChange (visible : bool)
| StateChange (s : ctx_state)
| SetTempo (v : num)
| SetVolume (v : num).

Definition happen1 (fuel : nat) (h : happening) (w : world) : result world :=
  match h with
  | Tick now => tick fuel now w
  | Clock now => Ret (set_clock now w)
  | VisibilityChange visible => Ret (visibilitychange_listener visible w)
  | StateChange s => Ret (statechange s w)
  | SetTempo v => Ret (set_bpm v w)
  | SetVolume v => Ret (set_volume v w)
  end.

Fixpoint happen (fuel : nat) (hs : list happening) (w : world)
  : result world :=
  match hs with
  | [] => Ret w
  | h :: rest => w1 <- happen1 fuel h w ;; happen fuel rest w1
  end.

(** A tempo input that is a finite number. *)
Definition finite_tempo (h : happening) : Prop :=
  match h with
  | SetTempo (Fin _) => True
  | SetTempo _ => False
  | _ => True
  end.

(** The calls a scheduling pass makes: clicks and their timeouts. *)
Definition pass_call (c : call) : Prop :=
  match c with
  | Click _ _ _ | SetTimeout _ _ => True
  | _ => False
  end.

(** How many audio contexts the log shows being created. *)
Fixpoint contexts_created (l : list call) : nat :=
  match l with
  | [] => 0
  | NewAudioContext :: rest => S (contexts_created rest)
  | _ :: rest => contexts_created rest
  end.

(** The delays handed to [setTimeout], in order. *)
Fixpoint delays (l : list call) : list num :=
  match l with
  | [] => []
  | SetTimeout _ d :: rest => d :: delays rest
  | _ :: rest => delays rest
  end.

(** The anchor of a start: the clock's time plus the safety margin. *)
Definition anchor_of (ctx : AudioContext) : Q :=
  currentTime ctx + latency_or_default ctx.

(** The invariant of a run whose clicks lie on the grid that starts at
    [t0] with step [i]: the [k]-th tone since [pre] starts at
    [t0 + k * i], and the cursor time is the next grid point. *)
Definition on_grid (t0 i : Q) (pre : list call) (w : world) : Prop :=
  exists evs,
    log w = pre ++ evs
    /\ (forall k tn,
           nth_error (tones evs) k = Some tn ->
           exists t, startTime tn = Fin t
                     /\ t == t0 + inject_Z (Z.of_nat k) * i)
    /\ exists t, _nextBeatTime w = Fin t
                 /\ t == t0 + inject_Z (Z.of_nat (length (tones evs))) * i.

(** The waltz after [start()] at time 0 and passes at 0.5 s and 1 s. *)
Definition waltz_run : world :=
  match session 10 [1 # 2; 1] waltz with
  | Ret w => w
  | _ => waltz
  end.

(** A timeout delay within the lookahead window: a finite number of
    milliseconds from 0 up to, not including, 100. *)
Definition delay_ok (d : num) : Prop :=
  exists q : Q, d = Fin q /\ 0 <= q /\ q < 100.

(** The invariant of a run whose timeouts all have such a delay. *)
Definition punctual (b s : Z) (pre : list call) (w : world) : Prop :=
  ready b s w
  /\ (exists t, _nextBeatTime w = Fin t)
  /\ exists evs, log w = pre ++ evs /\ Forall delay_ok (delays evs).

(** What an event that is not a pass may change: the next-event time, the
    audio context's clock and state, the tempo and the volume, and the log
    by calls that are neither clicks nor timeouts.  The meter, the
    subdivision, both cursor indices, the run state and the timers stay. *)
Definition undisturbed (w w' : world) : Prop :=
  _beatsPerMeasure w' = _beatsPerMeasure w
  /\ _subdivision w' = _subdivision w
  /\ _currentBeat w' = _currentBeat w
  /\ _currentSubdiv w' = _currentSubdiv w
  /\ _intervalId w' = _intervalId w
  /\ timers w' = timers w
  /\ nextHandle w' = nextHandle w
  /\ exists l,
       log w' = log w ++ l
       /\ Forall (fun c => c = CtxResume \/ c = RequestWakeLock) l.

(** [start()], then whatever happens. *)
Definition run (fuel : nat) (hs : list happening) (w : world) : result world :=
  w1 <- start fuel w ;; happen fuel hs w1.

(** A metronome that can run a pass and whose cursor time is finite. *)
Definition steady (s : Z) (w : world) : Prop :=
  exists (b : Z) (t : Q), ready b s w /\ _nextBeatTime w = Fin t.

(** An audio context that reports 200 ms of latency. *)
Definition laggy_ctx : AudioContext := mkCtx running 0 (Some (2 # 10)) false.

(** A fresh metronome on that context, and the same after [start()]. *)
Definition laggy : world := constructor laggy_ctx.

Definition laggy_started : world :=
  match start 4 laggy with
  | Ret w => w
  | _ => laggy
  end.

(** The waltz after [start()], a pass, a re-anchor at time 5 on the page
    becoming visible, a pass, a tempo change and another pass. *)
Definition recovery_story : list happening :=
  [Tick (1 # 2); Clock 5; VisibilityChange true; Tick 5;
   SetTempo (int 90); Tick 6].

Definition waltz_recovered : world :=
  match run 20 recovery_story waltz with
  | Ret w => w
  | _ => waltz
  end.

(** What holds of every page: the log shows one audio context created if
    the metronome has one and none otherwise; a running metronome has its
    audio context; every live timer handle is positive and below the next
    handle the browser will hand out. *)
Definition page_inv (w : world) : Prop :=
  contexts_created (log w)
  = match _audioCtx w with Some _ => 1%nat | None => 0%nat end
  /\ (isRunning w = true -> _audioCtx w <> None)
  /\ Forall (fun h => (1 <= h < nextHandle w)%nat) (timers w)
  /\ (1 <= nextHandle w)%nat.

(** A run with a NaN tempo: at most one click since [pre], and none to
    come once it is made. *)
Definition stalled (pre : list call) (w : world) : Prop :=
  _bpm w = NaN
  /\ exists evs,
       log w = pre ++ evs
       /\ (clicks evs = []
           \/ (length (clicks evs) = 1%nat /\ _nextBeatTime w = NaN)).

(** How many interval timers the log shows being set, and being cleared. *)
Fixpoint intervals_set (l : list call) : nat :=
  match l with
  | [] => 0
  | SetInterval _ _ :: rest => S (intervals_set rest)
  | _ :: rest => intervals_set rest
  end.

Fixpoint intervals_cleared (l : list call) : nat :=
  match l with
  | [] => 0
  | ClearInterval _ :: rest => S (intervals_cleared rest)
  | _ :: rest => intervals_cleared rest
  end.

Definition no_interval_call (c : call) : Prop :=
  match c with
  | SetInterval _ _ | ClearInterval _ => False
  | _ => True
  end.

(** Every timer the log shows being set and not cleared is live, and no
    other. *)
Definition balanced (w : world) : Prop :=
  intervals_set (log w)
  = (intervals_cleared (log w) + length (timers w))%nat.

(** A happening that does not re-anchor the cursor. *)
Definition keeps_anchor (h : happening) : Prop :=
  match h with
  | VisibilityChange _ | StateChange _ => False
  | _ => True
  end.

(** The running metronome after a tempo input that is not a number. *)
Definition tempo_lost : world := set_bpm NaN playing.

(** The same after the pass at 0.5 s, which makes its one last click. *)
Definition tempo_lost_run : world :=
  match ticks 1 [1 # 2] tempo_lost with
  | Ret w => w
  | _ => tempo_lost
  end.

(* ================================================================== *)
(** ** The controls *)
(* ================================================================== *)

From Stdlib Require Import Sorted.
From Stdlib Require String.
Import (notations) String.

(** [initUI(metronome)] of [ui.js].  Beside the metronome, the page keeps
    the tap times, what the tempo readout shows, the ['bpm'] entry of
    [localStorage], the text and the [running] class of the start/stop
    button, and what the beat display shows and how it pulses.  A readout
    is kept as the number it shows.  The tempo slider, the selects, the
    theme and the other [localStorage] entries take their values and
    bounds from the HTML and are left out; their handlers are modelled by
    what they do to the metronome. *)
Module UI.

Inductive pulse_class : Type := no_pulse | pulse | pulse_accent.

Record page : Type := mkPage {
  metronome       : world;
  tapTimes        : list Z;           (* [Date.now()] readings, in ms *)
  bpmValueEl      : num;              (* [bpmValueEl.textContent] *)
  storedBpm       : option num;       (* [Number] of the saved ['bpm'] *)
  startStopText   : String.string;    (* [startStopBtn.textContent] *)
  startStopClass  : bool;             (* [startStopBtn] has class [running] *)
  beatDisplay     : num;              (* [beatDisplay.textContent] *)
  beatIndicator   : pulse_class
}.

Definition with_metronome (m : world) (p : page) : page :=
  mkPage m (tapTimes p) (bpmValueEl p) (storedBpm p) (startStopText p)
    (startStopClass p) (beatDisplay p) (beatIndicator p).

Definition with_tapTimes (l : list Z) (p : page) : page :=
  mkPage (metronome p) l (bpmValueEl p) (storedBpm p) (startStopText p)
    (startStopClass p) (beatDisplay p) (beatIndicator p).

Definition with_bpmValueEl (v : num) (p : page) : page :=
  mkPage (metronome p) (tapTimes p) v (storedBpm p) (startStopText p)
    (startStopClass p) (beatDisplay p) (beatIndicator p).

Definition with_storedBpm (v : option num) (p : page) : page :=
  mkPage (metronome p) (tapTimes p) (bpmValueEl p) v (startStopText p)
    (startStopClass p) (beatDisplay p) (beatIndicator p).

Definition with_startStop (text : String.string) (cls : bool) (p : page)
  : page :=
  mkPage (metronome p) (tapTimes p) (bpmValueEl p) (storedBpm p) text cls
    (beatDisplay p) (beatIndicator p).

Definition with_beat (shown : num) (c : pulse_class) (p : page) : page :=
  mkPage (metronome p) (tapTimes p) (bpmValueEl p) (storedBpm p)
    (startStopText p) (startStopClass p) shown c.

(** [isNaN(v)] on a number *)
Definition isNaN (v : num) : bool :=
  match v with
  | NaN => true
  | _ => false
  end.

(** *** Helpers *)

(** [updateBpmDisplay(bpm)] *)
Definition updateBpmDisplay (bpm : num) (p : page) : page :=
  with_bpmValueEl bpm p.

(** [setBpm(bpm)] *)
Definition setBpm (bpm : num) (p : page) : page :=
  let p1 := with_metronome (set_bpm bpm (metronome p)) p in
  let p2 := updateBpmDisplay (_bpm (metronome p1)) p1 in
  with_storedBpm (Some (_bpm (metronome p2))) p2.

(** [flashBeat(beat)] *)
Definition flashBeat (beat : num) (p : page) : page :=
  let isAccent := eq beat (int 0) in
  with_beat (add beat (int 1)) (if isAccent then pulse_accent else pulse) p.

(** *** Handlers *)

(** The [click] listener of the start/stop button. *)
Definition startStop_click (fuel : nat) (p : page) : result page :=
  if isRunning (metronome p) then
    let p1 := with_metronome (stop (metronome p)) p in
    let p2 := with_startStop "Start" false p1 in
    Ret (with_beat (int 1) no_pulse p2)
  else
    let m1 := _ensureAudioContext (metronome p) in
    match _audioCtx m1 with
    | None => Throw
    | Some _ =>
        m3 <- start fuel (emit CtxResume m1) ;;
        Ret (with_startStop "Stop" true (with_metronome m3 p))
    end.

(** The [click] listeners of the up and down buttons. *)
Definition bpmUp_click (p : page) : page :=
  setBpm (add (_bpm (metronome p)) (int 1)) p.

Definition bpmDown_click (p : page) : page :=
  setBpm (sub (_bpm (metronome p)) (int 1)) p.

(** [commit] of the tempo edit box, the first time it runs; [val] is
    [Number(input.value)]. *)
Definition commit (val : num) (p : page) : page :=
  let p1 := if negb (isNaN val) then setBpm val p else p in
  updateBpmDisplay (_bpm (metronome p1)) p1.

(** The [change] listener of the time signature select; [beats] is
    [Number(timeSigSelect.value)]. *)
Definition timeSig_change (beats : num) (p : page) : page :=
  let p1 := with_metronome (set_beatsPerMeasure beats (metronome p)) p in
  with_beat (int 1) (beatIndicator p1) p1.

(** The [input] listener of the volume slider and the [change] listener
    of the subdivision select. *)
Definition volume_input (v : num) (p : page) : page :=
  with_metronome (set_volume v (metronome p)) p.

Definition subdiv_change (v : num) (p : page) : page :=
  with_metronome (set_subdivision v (metronome p)) p.

(** Tap tempo. *)
Definition TAP_RESET_MS : Z := 2000.

(** The [for] loop that fills [intervals]. *)
Fixpoint gaps (l : list Z) : list Z :=
  match l with
  | a :: (b :: _) as rest => (b - a)%Z :: gaps rest
  | _ => []
  end.

(** The [click] listener of the tap button; [now] is [Date.now()]. *)
Definition tap (now : Z) (p : page) : page :=
  let kept :=
    if negb (length (tapTimes p) =? 0)%nat
       && (TAP_RESET_MS <? now - last (tapTimes p) 0)%Z
    then []
    else tapTimes p in
  let times := kept ++ [now] in
  let p1 := with_tapTimes times p in
  if (2 <=? length times)%nat then
    let intervals := gaps times in
    let avgInterval :=
      div (int (fold_left Z.add intervals 0%Z))
          (int (Z.of_nat (length intervals))) in
    setBpm (round (div (int 60000) avgInterval)) p1
  else p1.

(** The [keydown] listener of the document; [typing] is whether the
    target is an [INPUT] or a [SELECT], [now] what [Date.now()] reads. *)
Definition keydown (fuel : nat) (typing : bool) (key : String.string)
    (now : Z) (p : page) : result page :=
  if typing then Ret p
  else if String.eqb key " " then startStop_click fuel p
  else if String.eqb key "ArrowUp" then
    Ret (setBpm (add (_bpm (metronome p)) (int 1)) p)
  else if String.eqb key "ArrowDown" then
    Ret (setBpm (sub (_bpm (metronome p)) (int 1)) p)
  else if String.eqb key "t" || String.eqb key "T" then Ret (tap now p)
  else Ret p.

(** The restore of the saved tempo when [initUI] runs. *)
Definition restore_bpm (p : page) : page :=
  match storedBpm p with
  | Some saved => setBpm saved p
  | None => p
  end.

(** The [touchstart] listener. *)
Definition touchstart (p : page) : result page :=
  let m1 := _ensureAudioContext (metronome p) in
  match _audioCtx m1 with
  | None => Throw
  | Some ctx =>
      Ret (with_metronome
             (if ctx_state_eqb (state ctx) suspended then emit CtxResume m1
              else m1) p)
  end.

(** *** The page's events *)

(** The user's inputs, with the value each handler reads; the interval
    timer, the audio clock, the audio context and the page's visibility;
    and a timeout calling [onBeat]. *)
Inductive event : Type :=
| StartStopClick
| BpmUpClick
| BpmDownClick
| SliderInput (value : Q)
| PresetClick (value : num)
| Commit (val : num)
| TimeSigChange (beats : num)
| VolumeInput (value : num)
| SubdivChange (value : num)
| TapClick (now : Z)
| Keydown (typing : bool) (key : String.string) (now : Z)
| Touchstart
| TimerFires (now : Q)
| ClockReads (now : Q)
| Visibility (visible : bool)
| ContextState (s : ctx_state)
| BeatTimeout (beat : num).

Definition handle (fuel : nat) (e : event) (p : page) : result page :=
  match e with
  | StartStopClick => startStop_click fuel p
  | BpmUpClick => Ret (bpmUp_click p)
  | BpmDownClick => Ret (bpmDown_click p)
  | SliderInput value => Ret (setBpm (Fin value) p)
  | PresetClick value => Ret (setBpm value p)
  | Commit val => Ret (commit val p)
  | TimeSigChange beats => Ret (timeSig_change beats p)
  | VolumeInput value => Ret (volume_input value p)
  | SubdivChange value => Ret (subdiv_change value p)
  | TapClick now => Ret (tap now p)
  | Keydown typing key now => keydown fuel typing key now p
  | Touchstart => touchstart p
  | TimerFires now =>
      m <- tick fuel now (metronome p) ;; Ret (with_metronome m p)
  | ClockReads now => Ret (with_metronome (set_clock now (metronome p)) p)
  | Visibility visible =>
      Ret (with_metronome
             (visibilitychange_listener visible (metronome p)) p)
  | ContextState s => Ret (with_metronome (statechange s (metronome p)) p)
  | BeatTimeout beat => Ret (flashBeat beat p)
  end.

Fixpoint handle_all (fuel : nat) (es : list event) (p : page) : result page :=
  match es with
  | [] => Ret p
  | e :: rest => p1 <- handle fuel e p ;; handle_all fuel rest p1
  end.

(** The taps at the clock readings [nows], one after the other. *)
Definition taps (nows : list Z) (p : page) : page :=
  fold_left (fun q now => tap now q) nows p.

(** The page a reload hands to [initUI]: a new metronome, no taps, the
    readout, the button and the beat display as the HTML of [html] has
    them, and the [localStorage] of [p]. *)
Definition reloaded (ac : AudioContext) (html p : page) : page :=
  mkPage (constructor ac) [] (bpmValueEl html) (storedBpm p)
    (startStopText html) (startStopClass html) (beatDisplay html)
    (beatIndicator html).

Definition STOP_TEXT : String.string := "Stop".
Definition START_TEXT : String.string := "Start".

End UI.

Import UI.

(** A preset whose [data-bpm] is a number. *)
Definition numeric (e : event) : Prop :=
  match e with
  | PresetClick NaN => False
  | _ => True
  end.

(** The button says what a click on it will do. *)
Definition in_sync (p : page) : Prop :=
  startStopText p
  = (if isRunning (metronome p) then STOP_TEXT else START_TEXT)
  /\ startStopClass p = isRunning (metronome p).

(** The stored tempo is an integer from 20 to 300, the readout shows it,
    and [localStorage] holds it, or nothing while it is still the 120 of
    the constructor. *)
Definition tempo_shown (p : page) : Prop :=
  exists b : Z,
    (20 <= b <= 300)%Z
    /\ _bpm (metronome p) = int b
    /\ bpmValueEl p = int b
    /\ match storedBpm p with
       | Some saved => saved = int b
       | None => b = 120%Z
       end.

(** Tap times that never go back and are never more than the reset time
    apart. *)
Definition spaced (l : list Z) : Prop :=
  Forall (fun g => (0 <= g <= TAP_RESET_MS)%Z) (gaps l).

(** The tempo of [p'] is that of [p], or an integer from [lo] to 300. *)
Definition tempo_kept_or_within (lo : Z) (p p' : page) : Prop :=
  _bpm (metronome p') = _bpm (metronome p)
  \/ exists b : Z, (lo <= b <= 300)%Z /\ _bpm (metronome p') = int b.

(** The page as the HTML has it, before any input: a new metronome, the
    readout at 120, the button saying Start. *)
Definition first_page : page :=
  mkPage fresh [] (int 120) None START_TEXT false (int 1) no_pulse.

(** The first page after taps at 0 ms and 500 ms. *)
Definition two_taps : page := taps [0; 500]%Z first_page.

(** The first page after the tempo is set to 90. *)
Definition slow_page : page := setBpm (int 90) first_page.

(** A while on the first page: start, a pass, two taps, a key, an edit
    that is not a number, a meter change, the page hidden and shown. *)
Definition a_while : list event :=
  [StartStopClick; TimerFires (1 # 2); TapClick 0; TapClick 400;
   Keydown false "ArrowUp" 450; Commit NaN; TimeSigChange (int 3);
   Visibility false; Visibility true; Keydown false " " 900].

Definition after_a_while : page :=
  match handle_all 10 a_while first_page with
  | Ret p => p
  | _ => first_page
  end.

(* ================================================================== *)
(** ** The silent audio file *)
(* ================================================================== *)

(** [buildSilentWavUrl] of [mobile.js] fills an [ArrayBuffer] through a
    [DataView].  The buffer is a list of bytes, each a [Z] from 0 to 255;
    a write outside the buffer is the [RangeError] of the [DataView]. *)
Module SilentAudio.

(** [new ArrayBuffer(n)]: [n] zero bytes. *)
Definition ArrayBuffer (n : nat) : list Z := repeat 0%Z n.

(** The [n] low bytes of [v], lowest first. *)
Fixpoint le_bytes (n : nat) (v : Z) : list Z :=
  match n with
  | O => []
  | S n' => (v mod 256)%Z :: le_bytes n' (v / 256)%Z
  end.

(** The number whose bytes, lowest first, are [l]. *)
Fixpoint le_value (l : list Z) : Z :=
  match l with
  | [] => 0%Z
  | b :: rest => (b + 256 * le_value rest)%Z
  end.

Definition write (byteOffset : nat) (bytes buf : list Z)
  : option (list Z) :=
  if (byteOffset + length bytes <=? length buf)%nat then
    Some (firstn byteOffset buf ++ bytes
          ++ skipn (byteOffset + length bytes) buf)
  else None.

Definition read (byteOffset n : nat) (buf : list Z) : option (list Z) :=
  if (byteOffset + n <=? length buf)%nat then
    Some (firstn n (skipn byteOffset buf))
  else None.

(** [view.setUint32(byteOffset, value, littleEndian)] and the like: the
    value is taken modulo 2^(8 * width). *)
Definition setUint (width byteOffset : nat) (value : Z) (littleEndian : bool)
    (buf : list Z) : option (list Z) :=
  let bytes := le_bytes width value in
  write byteOffset (if littleEndian then bytes else rev bytes) buf.

Definition setUint32 := setUint 4.
Definition setUint16 := setUint 2.
Definition setInt16 := setUint 2.

(** [view.getUint32(byteOffset, littleEndian)] and the like. *)
Definition getUint (width byteOffset : nat) (littleEndian : bool)
    (buf : list Z) : option Z :=
  match read byteOffset width buf with
  | Some bytes => Some (le_value (if littleEndian then bytes else rev bytes))
  | None => None
  end.

Definition getUint32 := getUint 4.
Definition getUint16 := getUint 2.

Definition and_then (r : option (list Z))
    (k : list Z -> option (list Z)) : option (list Z) :=
  match r with
  | Some buf => k buf
  | None => None
  end.

(** [buildSilentWavUrl()], up to the buffer handed to the [Blob]. *)
Definition buildSilentWavUrl : option (list Z) :=
  let buf := ArrayBuffer 46 in
  and_then (setUint32 0 0x52494646 false buf) (fun buf =>
  and_then (setUint32 4 38 true buf) (fun buf =>
  and_then (setUint32 8 0x57415645 false buf) (fun buf =>
  and_then (setUint32 12 0x666d7420 false buf) (fun buf =>
  and_then (setUint32 16 16 true buf) (fun buf =>
  and_then (setUint16 20 1 true buf) (fun buf =>
  and_then (setUint16 22 1 true buf) (fun buf =>
  and_then (setUint32 24 44100 true buf) (fun buf =>
  and_then (setUint32 28 88200 true buf) (fun buf =>
  and_then (setUint16 32 2 true buf) (fun buf =>
  and_then (setUint16 34 16 true buf) (fun buf =>
  and_then (setUint32 36 0x64617461 false buf) (fun buf =>
  and_then (setUint32 40 2 true buf) (fun buf =>
  setInt16 44 0 true buf))))))))))))).

End SilentAudio.

(** The fields of a canonical RIFF/WAVE file with one format chunk of 16
    bytes followed by the data chunk, read at their offsets. *)
Record wav_header : Type := mkWav {
  riff_tag      : list Z;
  riff_size     : Z;
  wave_tag      : list Z;
  fmt_tag       : list Z;
  fmt_size      : Z;
  audio_format  : Z;
  channels      : Z;
  sample_rate   : Z;
  byte_rate     : Z;
  block_align   : Z;
  bits_per_sample : Z;
  data_tag      : list Z;
  data_size     : Z
}.

Definition read_header (buf : list Z) : option wav_header :=
  match SilentAudio.read 0 4 buf, SilentAudio.getUint32 4 true buf,
        SilentAudio.read 8 4 buf, SilentAudio.read 12 4 buf,
        SilentAudio.getUint32 16 true buf, SilentAudio.getUint16 20 true buf,
        SilentAudio.getUint16 22 true buf, SilentAudio.getUint32 24 true buf,
        SilentAudio.getUint32 28 true buf, SilentAudio.getUint16 32 true buf,
        SilentAudio.getUint16 34 true buf, SilentAudio.read 36 4 buf,
        SilentAudio.getUint32 40 true buf with
  | Some a, Some b, Some c, Some d, Some e, Some f, Some g, Some h, Some i,
    Some j, Some k, Some l, Some m =>
      Some (mkWav a b c d e f g h i j k l m)
  | _, _, _, _, _, _, _, _, _, _, _, _, _ => None
  end.

(** ASCII codes of the four chunk tags. *)
Definition RIFF : list Z := [82; 73; 70; 70]%Z.
Definition WAVE : list Z := [87; 65; 86; 69]%Z.
Definition fmt_ : list Z := [102; 109; 116; 32]%Z.
Definition data : list Z := [100; 97; 116; 97]%Z.

(** A header that describes a PCM file of [len] bytes: the tags, the sizes
    counted from the file's length, the rates from the sample format, and
    whole sample frames of silence-or-not after the header. *)
Definition describes (h : wav_header) (len : nat) : Prop :=
  riff_tag h = RIFF /\ wave_tag h = WAVE /\ fmt_tag h = fmt_
  /\ data_tag h = data
  /\ riff_size h = (Z.of_nat len - 8)%Z
  /\ fmt_size h = 16%Z
  /\ audio_format h = 1%Z
  /\ (1 <= channels h)%Z
  /\ (bits_per_sample h mod 8 = 0)%Z
  /\ block_align h = (channels h * (bits_per_sample h / 8))%Z
  /\ byte_rate h = (sample_rate h * block_align h)%Z
  /\ data_size h = (Z.of_nat len - 44)%Z
  /\ (0 < data_size h)%Z
  /\ (data_size h mod block_align h = 0)%Z.

(* ================================================================== *)
(** ** The scheduling pass in rounded arithmetic *)
(* ================================================================== *)

From Stdlib Require Import Qpower.

(** How many clicks one pass makes, and whether it ends, depends on how
    the sums of the code round.  [Rounded] is the pass again with every
    finite result of [+], [-], [*] and [/], and every decimal literal,
    put through a rounding function [rnd]; comparisons, [Math.max] and
    the index arithmetic on small integers are exact on doubles.
    Overflow to an infinity is not modelled.  With [rnd] the identity
    this is the pass of [Metronome]; [binary64] below is the rounding of
    IEEE doubles. *)
Module Rounded.

Section Arithmetic.

Variable rnd : Q -> Q.

Definition rd (v : num) : num :=
  match v with
  | Fin q => Fin (rnd q)
  | _ => v
  end.

Definition add (a b : num) : num := rd (JS.add a b).
Definition sub (a b : num) : num := rd (JS.sub a b).
Definition mul (a b : num) : num := rd (JS.mul a b).
Definition div (a b : num) : num := rd (JS.div a b).

(** [_scheduleClick(beat, subdiv, time)] *)
Definition _scheduleClick (beat subdiv time : num) (w : world)
  : result world :=
  match _audioCtx w with
  | None => Throw
  | Some ctx =>
      let isAccent := eq beat (int 0) && eq subdiv (int 0) in
      let isBeat := eq subdiv (int 0) in
      let freq :=
        if isAccent then FREQ_ACCENT
        else if isBeat then FREQ_NORMAL
        else int 600 in
      let subdivVolume :=
        if isBeat then _volume w
        else mul (_volume w) (rd (Fin (45 # 100))) in
      let vol := max subdivVolume (rd (Fin (1 # 10000))) in
      let w1 :=
        emit (Click beat subdiv
                (mkTone freq vol time (add time (rd CLICK_DURATION)))) w in
      if eq subdiv (int 0) then
        let delayMs :=
          max (int 0)
              (mul (sub time (Fin (currentTime ctx))) (int 1000)) in
        Ret (emit (SetTimeout beat delayMs) w1)
      else Ret w1
  end.

(** [_advanceBeat()] *)
Definition _advanceBeat (w : world) : world :=
  let w1 :=
    with_nextBeatTime
      (add (_nextBeatTime w) (div (div (int 60) (_bpm w)) (_subdivision w)))
      w in
  let w2 :=
    with_currentSubdiv
      (rem (JS.add (_currentSubdiv w1) (int 1)) (_subdivision w1)) w1 in
  if eq (_currentSubdiv w2) (int 0) then
    with_currentBeat
      (rem (JS.add (_currentBeat w2) (int 1)) (_beatsPerMeasure w2)) w2
  else w2.

(** The [while] loop of [_schedule]; one unit of fuel per iteration. *)
Fixpoint schedule_loop (fuel : nat) (scheduleUntil : num) (w : world)
  : result world :=
  if lt (_nextBeatTime w) scheduleUntil then
    match fuel with
    | O => OutOfFuel
    | S fuel' =>
        w1 <- _scheduleClick (_currentBeat w) (_currentSubdiv w)
                (_nextBeatTime w) w ;;
        schedule_loop fuel' scheduleUntil (_advanceBeat w1)
    end
  else Ret w.

(** [_schedule()] *)
Definition _schedule (fuel : nat) (w : world) : result world :=
  match _audioCtx w with
  | None => Throw
  | Some ctx =>
      let scheduleUntil :=
        add (Fin (currentTime ctx)) (rd SCHEDULE_AHEAD_TIME) in
      schedule_loop fuel scheduleUntil w
  end.

End Arithmetic.

(** *** Rounding to a double *)

(** The integer nearest to [y], the even one of two equally near. *)
Definition nearest_even (y : Q) : Z :=
  let f := Qfloor y in
  match Qcompare (y - inject_Z f) (1 # 2) with
  | Lt => f
  | Gt => (f + 1)%Z
  | Eq => if Z.even f then f else (f + 1)%Z
  end.

(** The exponent of a number other than 0: the largest [e] with
    [2 ^ e <= |x|]. *)
Definition exponent (x : Q) : Z :=
  let a := Qred (Qabs x) in
  let e0 := (Z.log2 (Qnum a) - Z.log2 (Zpos (Qden a)))%Z in
  if Qle_bool (Qpower 2 e0) a then e0 else (e0 - 1)%Z.

(** Rounding to the nearest number with a significand of 53 bits, ties
    to even, the exponent unbounded. *)
Definition binary64 (x : Q) : Q :=
  if Qeq_bool x 0 then 0
  else
    let ulp := Qpower 2 (exponent x - 52) in
    Qred (inject_Z (nearest_even (x / ulp)) * ulp).

End Rounded.

(** The rounding error of doubles up to magnitude [U]. *)
Definition double_error (U : Q) : Q := U * (1 # 9007199254740992).

(** A metronome at 300 bpm with four clicks per beat whose cursor time is
    the clock's reading, 2 s. *)
Definition brisk_ctx : AudioContext := mkCtx running 2 (Some (5 # 1000)) false.

Definition brisk : world :=
  with_nextBeatTime (Fin 2)
    (with_audioCtx (Some brisk_ctx)
       (set_subdivision (int 4) (set_bpm (int 300) fresh))).

(** The running metronome of [playing] as doubles have it after its first
    click, the cursor at 0.005 + 0.5, when the clock reads 0.405. *)
Definition edge_ctx : AudioContext :=
  mkCtx running (Rounded.binary64 (405 # 1000)) (Some (5 # 1000)) false.

Definition on_the_edge : world :=
  with_nextBeatTime
    (Fin (Rounded.binary64 (Rounded.binary64 (5 # 1000) + (1 # 2))))
    (with_audioCtx (Some edge_ctx) playing).

(* ================================================================== *)
(** ** More sample pages *)
(* ================================================================== *)

(** The running metronome when the page is shown again with the audio
    clock at 12 s. *)
Definition shown_again_ctx : AudioContext :=
  mkCtx running 12 (Some (5 # 1000)) false.

Definition shown_again : world := set_clock 12 playing.

(** A metronome started at time 0 on an audio context that reports a
    latency of 0, with the audio clock now at 7 s. *)
Definition zero_latency_ctx : AudioContext := mkCtx running 0 (Some 0) false.

Definition zero_latency_playing : world :=
  match start 4 (constructor zero_latency_ctx) with
  | Ret w => w
  | _ => constructor zero_latency_ctx
  end.

Definition zero_latency_late : world := set_clock 7 zero_latency_playing.

(* ================================================================== *)
(** ** Number facts *)
(* ================================================================== *)

Lemma Qlt_bool_iff (x y : Q) : Qlt_bool x y = true <-> x < y.
Proof.
  unfold Qlt_bool. rewrite negb_true_iff.
  destruct (Qle_bool y x) eqn:E.
  - apply Qle_bool_iff in E. split; [discriminate | intro H].
    exfalso. apply (Qlt_irrefl x). eapply Qlt_le_trans; eauto.
  - split; [intros _ | reflexivity].
    apply Qnot_le_lt. intro H. apply Qle_bool_iff in H. congruence.
Qed.

Lemma Qlt_bool_false (x y : Q) : Qlt_bool x y = false <-> y <= x.
Proof.
  unfold Qlt_bool. rewrite negb_false_iff. apply Qle_bool_iff.
Qed.

Lemma lt_Fin (x y : Q) : lt (Fin x) (Fin y) = true <-> x < y.
Proof. apply Qlt_bool_iff. Qed.

Lemma eq_int (a b : Z) : eq (int a) (int b) = Z.eqb a b.
Proof.
  unfold eq, int, Qeq_bool, inject_Z. simpl.
  rewrite !Z.mul_1_r. reflexivity.
Qed.

Lemma add_int (a b : Z) : add (int a) (int b) = int (a + b).
Proof.
  unfold add, int, inject_Z, Qplus. simpl.
  rewrite !Z.mul_1_r. reflexivity.
Qed.

Lemma inject_Z_nonzero (b : Z) : (0 < b)%Z -> Qeq_bool (inject_Z b) 0 = false.
Proof.
  intro H. unfold Qeq_bool, inject_Z. simpl.
  rewrite Z.mul_1_r. apply Z.eqb_neq. lia.
Qed.

(** On non-negative integers [%] is [Z.modulo]. *)
Lemma rem_int (a b : Z) :
  (0 <= a)%Z -> (0 < b)%Z -> rem (int a) (int b) = int (a mod b).
Proof.
  intros Ha Hb. unfold rem, int.
  rewrite (inject_Z_nonzero b Hb).
  destruct b as [|p|p]; try lia.
  unfold Qtrunc, inject_Z, Qdiv, Qinv, Qmult, Qminus, Qplus, Qopp.
  cbn -[Z.mul Z.add Z.quot Z.div Z.modulo Z.opp].
  rewrite !Z.mul_1_r, Z.quot_div_nonneg by lia.
  rewrite (Z.mod_eq a (Z.pos p)) by lia.
  f_equal; lia.
Qed.

Lemma interval_pos (b s : Z) : (0 < b)%Z -> (0 < s)%Z -> 0 < interval b s.
Proof.
  intros Hb Hs. unfold interval.
  assert (0 < inject_Z b) by (change 0 with (inject_Z 0); rewrite <- Zlt_Qlt; lia).
  assert (0 < inject_Z s) by (change 0 with (inject_Z 0); rewrite <- Zlt_Qlt; lia).
  apply Qlt_shift_div_l; [assumption |].
  rewrite Qmult_0_l.
  apply Qlt_shift_div_l; [assumption |].
  rewrite Qmult_0_l. reflexivity.
Qed.

(** The increment [_advanceBeat] adds to the cursor time. *)
Lemma div_interval (b s : Z) :
  (0 < b)%Z -> (0 < s)%Z ->
  div (div (int 60) (int b)) (int s) = Fin (interval b s).
Proof.
  intros Hb Hs. unfold div, int.
  rewrite (inject_Z_nonzero b Hb), (inject_Z_nonzero s Hs). reflexivity.
Qed.

(** Row-major successor. *)
Lemma next_subdiv (S k : Z) :
  (0 < S)%Z -> ((k mod S + 1) mod S = (k + 1) mod S)%Z.
Proof. intros. rewrite Z.add_mod_idemp_l by lia. reflexivity. Qed.

Lemma next_beat_wrap (M S k : Z) :
  (0 < M)%Z -> (0 < S)%Z -> (0 <= k)%Z -> ((k + 1) mod S = 0)%Z ->
  ((((k / S) mod M) + 1) mod M = ((k + 1) / S) mod M)%Z.
Proof.
  intros HM HS Hk Hw.
  assert (E : ((k + 1) / S = k / S + 1)%Z).
  { pose proof (Z.div_mod k S ltac:(lia)).
    pose proof (Z.div_mod (k + 1) S ltac:(lia)).
    pose proof (Z.mod_pos_bound k S HS).
    rewrite Hw in *. nia. }
  rewrite E, Z.add_mod_idemp_l by lia. reflexivity.
Qed.

Lemma next_beat_stay (S k : Z) :
  (0 < S)%Z -> (0 <= k)%Z -> ((k + 1) mod S <> 0)%Z ->
  ((k + 1) / S = k / S)%Z.
Proof.
  intros HS Hk Hw.
  pose proof (Z.div_mod k S ltac:(lia)).
  pose proof (Z.div_mod (k + 1) S ltac:(lia)).
  pose proof (Z.mod_pos_bound k S HS).
  pose proof (Z.mod_pos_bound (k + 1) S HS).
  nia.
Qed.

(* ================================================================== *)
(** ** Reading the log: append *)
(* ================================================================== *)

Lemma clicks_app (l1 l2 : list call) : clicks (l1 ++ l2) = clicks l1 ++ clicks l2.
Proof.
  induction l1 as [|c l1 IH]; simpl; [reflexivity |].
  destruct c; simpl; rewrite ?IH; reflexivity.
Qed.

Lemma tones_app (l1 l2 : list call) : tones (l1 ++ l2) = tones l1 ++ tones l2.
Proof.
  induction l1 as [|c l1 IH]; simpl; [reflexivity |].
  destruct c; simpl; rewrite ?IH; reflexivity.
Qed.

Lemma timeouts_app (l1 l2 : list call) :
  timeouts (l1 ++ l2) = timeouts l1 ++ timeouts l2.
Proof.
  induction l1 as [|c l1 IH]; simpl; [reflexivity |].
  destruct c; simpl; rewrite ?IH; reflexivity.
Qed.

Lemma since_app (w w' : world) (evs : list call) :
  log w' = log w ++ evs -> since w w' = evs.
Proof.
  intro H. unfold since. rewrite H, skipn_app, skipn_all, Nat.sub_diag.
  reflexivity.
Qed.

Lemma since_refl (w : world) : since w w = [].
Proof. apply since_app. rewrite app_nil_r. reflexivity. Qed.

(* ================================================================== *)
(** ** One iteration of the scheduling loop *)
(* ================================================================== *)

(** The calls one [_scheduleClick] makes. *)
Lemma scheduleClick_calls (w : world) (ctx : AudioContext) (b s t : num) :
  _audioCtx w = Some ctx ->
  exists evs,
    _scheduleClick b s t w = Ret (with_log (log w ++ evs) w)
    /\ (exists tn, evs = Click b s tn ::
                     (if eq s (int 0)
                      then [SetTimeout b
                              (max (int 0)
                                 (mul (sub t (Fin (currentTime ctx)))
                                    (int 1000)))]
                      else [])
                   /\ startTime tn = t).
Proof.
  intro Hc. unfold _scheduleClick. rewrite Hc.
  destruct (eq s (int 0)) eqn:Es.
  - eexists. split.
    + unfold emit, with_log. simpl. rewrite <- app_assoc. reflexivity.
    + eexists. split; reflexivity.
  - eexists. split.
    + unfold emit, with_log. simpl. reflexivity.
    + eexists. split; reflexivity.
Qed.

Lemma same_setup_refl (w : world) : same_setup w w.
Proof. unfold same_setup. repeat split. Qed.

Lemma same_setup_trans (w1 w2 w3 : world) :
  same_setup w1 w2 -> same_setup w2 w3 -> same_setup w1 w3.
Proof. unfold same_setup. intuition congruence. Qed.

Lemma advanceBeat_setup (w : world) : same_setup w (_advanceBeat w).
Proof.
  unfold _advanceBeat, same_setup.
  case_if; simpl; repeat split.
Qed.

Lemma advanceBeat_log (w : world) : log (_advanceBeat w) = log w.
Proof.
  unfold _advanceBeat.
  case_if; reflexivity.
Qed.

Lemma advanceBeat_time (w : world) :
  _nextBeatTime (_advanceBeat w)
  = add (_nextBeatTime w) (div (div (int 60) (_bpm w)) (_subdivision w)).
Proof.
  unfold _advanceBeat.
  case_if; reflexivity.
Qed.

Lemma schedule_loop_exit (fuel : nat) (u : num) (w : world) :
  lt (_nextBeatTime w) u = false -> schedule_loop fuel u w = Ret w.
Proof. intro H. destruct fuel; simpl; rewrite H; reflexivity. Qed.

Lemma schedule_loop_enter (fuel : nat) (u : num) (w : world) :
  lt (_nextBeatTime w) u = true ->
  schedule_loop (S fuel) u w
  = (w1 <- _scheduleClick (_currentBeat w) (_currentSubdiv w)
             (_nextBeatTime w) w ;;
     schedule_loop fuel u (_advanceBeat w1)).
Proof. intro H. simpl. rewrite H. reflexivity. Qed.

(** The Hoare rule of the loop: a property kept by every iteration holds
    when the loop returns, and the loop condition is then false. *)
Lemma schedule_loop_rule (P : world -> Prop) (u : num) :
  (forall w w1,
      P w -> lt (_nextBeatTime w) u = true ->
      _scheduleClick (_currentBeat w) (_currentSubdiv w) (_nextBeatTime w) w
      = Ret w1 ->
      P (_advanceBeat w1)) ->
  forall fuel w w',
    P w -> schedule_loop fuel u w = Ret w' ->
    P w' /\ lt (_nextBeatTime w') u = false.
Proof.
  intros Hstep fuel. induction fuel as [|fuel IH]; intros w w' HP Hrun;
    simpl in Hrun; destruct (lt (_nextBeatTime w) u) eqn:Hlt;
    try discriminate.
  - inversion Hrun; subst. auto.
  - destruct (_scheduleClick (_currentBeat w) (_currentSubdiv w)
                (_nextBeatTime w) w) as [w1| |] eqn:Hc;
      simpl in Hrun; try discriminate.
    eapply IH; [| exact Hrun]. eapply Hstep; eauto.
  - inversion Hrun; subst. auto.
Qed.

(** More fuel never changes the outcome of a loop that returned. *)
Lemma schedule_loop_fuel (fuel fuel' : nat) (u : num) (w w' : world) :
  (fuel <= fuel')%nat ->
  schedule_loop fuel u w = Ret w' -> schedule_loop fuel' u w = Ret w'.
Proof.
  revert fuel' w. induction fuel as [|fuel IH]; intros fuel' w Hle Hrun;
    simpl in Hrun.
  - destruct (lt (_nextBeatTime w) u) eqn:Hlt; try discriminate.
    destruct fuel'; simpl; rewrite Hlt; exact Hrun.
  - destruct fuel' as [|fuel']; [lia |].
    simpl. destruct (lt (_nextBeatTime w) u) eqn:Hlt; [| exact Hrun].
    destruct (_scheduleClick (_currentBeat w) (_currentSubdiv w)
                (_nextBeatTime w) w) as [w1| |]; simpl in *;
      try discriminate.
    apply IH; [lia | exact Hrun].
Qed.

(* ================================================================== *)
(** ** Length of a pass *)
(* ================================================================== *)

Lemma Qceiling_unique (x : Q) (c : Z) :
  inject_Z (c - 1) < x -> x <= inject_Z c -> Qceiling x = c.
Proof.
  intros Hlo Hhi.
  pose proof (Qle_ceiling x) as H1. pose proof (Qceiling_lt x) as H2.
  assert (c - 1 < Qceiling x)%Z
    by (rewrite Zlt_Qlt; eapply Qlt_le_trans; eauto).
  assert (Qceiling x - 1 < c)%Z
    by (rewrite Zlt_Qlt; eapply Qlt_le_trans; eauto).
  lia.
Qed.

Lemma Qceiling_pred (x : Q) : Qceiling (x - 1) = (Qceiling x - 1)%Z.
Proof.
  pose proof (Qle_ceiling x) as H1. pose proof (Qceiling_lt x) as H2.
  apply Qceiling_unique.
  - unfold Z.sub in *. rewrite !inject_Z_plus, !inject_Z_opp in *.
    change (inject_Z 1) with 1 in *. lra.
  - unfold Z.sub in *. rewrite !inject_Z_plus, !inject_Z_opp in *.
    change (inject_Z 1) with 1 in *. lra.
Qed.

Lemma Qceiling_pos (x : Q) : 0 < x -> (1 <= Qceiling x)%Z.
Proof.
  intro H. pose proof (Qle_ceiling x) as H1.
  assert (0 < Qceiling x)%Z
    by (rewrite Zlt_Qlt; eapply Qlt_le_trans; eauto).
  lia.
Qed.

Lemma Qceiling_nonpos (x : Q) : x <= 0 -> (Qceiling x <= 0)%Z.
Proof. intro H. apply (Qceiling_resp_le x 0) in H. exact H. Qed.

(** An iteration that runs shortens the rest of the pass by one. *)
Lemma pass_length_step (u t i : Q) :
  0 < i -> t < u -> pass_length u t i = S (pass_length u (t + i) i).
Proof.
  intros Hi Hlt. unfold pass_length.
  assert (E : (u - (t + i)) / i == (u - t) / i - 1) by (field; lra).
  rewrite (Qceiling_comp _ _ E), Qceiling_pred.
  assert (0 < (u - t) / i).
  { apply Qlt_shift_div_l; [assumption | lra]. }
  pose proof (Qceiling_pos _ H). lia.
Qed.

(** The loop stops at once when the cursor is not inside the window. *)
Lemma pass_length_done (u t i : Q) : 0 < i -> u <= t -> pass_length u t i = 0%nat.
Proof.
  intros Hi Hle. unfold pass_length.
  assert ((u - t) / i <= 0).
  { apply Qle_shift_div_r; [assumption | lra]. }
  pose proof (Qceiling_nonpos _ H). lia.
Qed.

Lemma not_before_le (T T' : Q) (tn : tone) :
  T <= T' -> not_before T' tn -> not_before T tn.
Proof.
  intros Hle [t [Ht Hb]]. exists t. split; [exact Ht | lra].
Qed.

(** A pass over a ready metronome returns after exactly [pass_length]
    iterations, each of which schedules one click, none before the cursor
    time the pass started from. *)
Lemma schedule_loop_total (n : nat) :
  forall (fuel : nat) (w : world) (b s : Z) (t u : Q),
    ready b s w -> _nextBeatTime w = Fin t ->
    pass_length u t (interval b s) = n -> (n <= fuel)%nat ->
    exists w' evs,
      schedule_loop fuel (Fin u) w = Ret w'
      /\ same_setup w w'
      /\ log w' = log w ++ evs
      /\ length (clicks evs) = n
      /\ Forall (not_before t) (tones evs)
      /\ exists t', _nextBeatTime w' = Fin t' /\ t <= t' /\ u <= t'.
Proof.
  induction n as [|n IH]; intros fuel w b s t u Hr Ht Hn Hfuel.
  - (* the loop condition is false *)
    destruct Hr as (Hb & Hs & _).
    pose proof (interval_pos b s Hb Hs) as Hi.
    assert (Hge : u <= t).
    { destruct (Qlt_le_dec t u) as [Hlt|]; [| assumption].
      rewrite (pass_length_step _ _ _ Hi Hlt) in Hn. discriminate. }
    exists w, []. split; [| split; [| split; [| split; [| split]]]].
    + apply schedule_loop_exit. rewrite Ht. apply Qlt_bool_false, Hge.
    + apply same_setup_refl.
    + rewrite app_nil_r. reflexivity.
    + simpl in *. congruence.
    + constructor.
    + exists t. split; [assumption | split; [lra | assumption]].
  - destruct Hr as (Hb & Hs & Hbpm & Hsub & ctx & Hctx).
    pose proof (interval_pos b s Hb Hs) as Hi.
    assert (Hlt : t < u).
    { destruct (Qlt_le_dec t u) as [|Hge]; [assumption |].
      rewrite (pass_length_done _ _ _ Hi Hge) in Hn. discriminate. }
    rewrite (pass_length_step _ _ _ Hi Hlt) in Hn. injection Hn as Hn.
    destruct fuel as [|fuel]; [lia |].
    destruct (scheduleClick_calls w ctx (_currentBeat w) (_currentSubdiv w)
                (_nextBeatTime w) Hctx) as (evs1 & Hclick & tn & Hevs & Htn).
    set (w1 := with_log (log w ++ evs1) w) in *.
    assert (Hr2 : ready b s (_advanceBeat w1)).
    { destruct (advanceBeat_setup w1) as (E1 & _ & _ & E4 & E5 & _).
      unfold ready. rewrite E1, E4, E5. repeat split; eauto. }
    assert (Ht2 : _nextBeatTime (_advanceBeat w1) = Fin (t + interval b s)).
    { rewrite advanceBeat_time.
      change (_nextBeatTime w1) with (_nextBeatTime w).
      change (_bpm w1) with (_bpm w).
      change (_subdivision w1) with (_subdivision w).
      rewrite Ht, Hbpm, Hsub, (div_interval b s Hb Hs). reflexivity. }
    destruct (IH fuel (_advanceBeat w1) b s (t + interval b s) u
                Hr2 Ht2 Hn ltac:(lia))
      as (w' & evs & Hrun & Hsame & Hlog & Hlen & Hall & t' & Ht' & Hle1 & Hle2).
    exists w', (evs1 ++ evs). split; [| split; [| split; [| split; [| split]]]].
    + rewrite schedule_loop_enter
        by (rewrite Ht; apply lt_Fin, Hlt).
      rewrite Hclick. exact Hrun.
    + eapply same_setup_trans; [| exact Hsame].
      eapply same_setup_trans; [| apply advanceBeat_setup].
      unfold same_setup. repeat split.
    + rewrite Hlog, advanceBeat_log. simpl. rewrite app_assoc. reflexivity.
    + rewrite clicks_app, length_app, Hlen, Hevs.
      destruct (eq (_currentSubdiv w) (int 0)); reflexivity.
    + rewrite tones_app. apply Forall_app. split.
      * rewrite Hevs.
        assert (Hnb : not_before t tn)
          by (exists t; split; [congruence | lra]).
        destruct (eq (_currentSubdiv w) (int 0)); simpl; repeat constructor;
          exact Hnb.
      * eapply Forall_impl; [| exact Hall].
        intros a Ha. eapply not_before_le; [| exact Ha]. lra.
    + exists t'. split; [exact Ht' | split; [lra | exact Hle2]].
Qed.

(* ================================================================== *)
(** ** Passes, ticks and start *)
(* ================================================================== *)

Lemma schedule_fuel (fuel fuel' : nat) (w w' : world) :
  (fuel <= fuel')%nat ->
  _schedule fuel w = Ret w' -> _schedule fuel' w = Ret w'.
Proof.
  unfold _schedule. destruct (_audioCtx w); [| discriminate].
  apply schedule_loop_fuel.
Qed.

Lemma ticks_fuel (fuel fuel' : nat) (nows : list Q) :
  (fuel <= fuel')%nat ->
  forall w w', ticks fuel nows w = Ret w' -> ticks fuel' nows w = Ret w'.
Proof.
  intro Hle. induction nows as [|now nows IH]; intros w w' H; simpl in *.
  - exact H.
  - unfold tick in *.
    destruct (_schedule fuel (set_clock now w)) as [w1| |] eqn:E;
      simpl in H; try discriminate.
    rewrite (schedule_fuel _ _ _ _ Hle E). simpl. apply IH, H.
Qed.

Lemma start_eq (fuel : nat) (w : world) :
  isRunning w = false ->
  start fuel w
  = (w6 <- _schedule fuel (before_first_pass w) ;;
     Ret (setInterval LOOKAHEAD_INTERVAL w6)).
Proof.
  intro H. unfold start, before_first_pass, start_ctx, _ensureAudioContext.
  rewrite H. destruct (_audioCtx w) as [ctx|] eqn:E.
  - rewrite E. reflexivity.
  - reflexivity.
Qed.

(** What [start()] has done when the first pass begins. *)
Lemma before_first_pass_spec (w : world) :
  let w5 := before_first_pass w in
  same_setup w (with_audioCtx (_audioCtx w) w5)
  /\ _audioCtx w5 = Some (start_ctx w)
  /\ _currentBeat w5 = int 0 /\ _currentSubdiv w5 = int 0
  /\ _nextBeatTime w5
     = Fin (currentTime (start_ctx w) + latency_or_default (start_ctx w))
  /\ exists pre,
       log w5 = log w ++ pre
       /\ Forall (fun c => c = NewAudioContext \/ c = CtxResume) pre.
Proof.
  unfold before_first_pass, start_ctx, _ensureAudioContext, same_setup.
  destruct (_audioCtx w) as [ctx|] eqn:E.
  - destruct (ctx_state_eqb (state ctx) suspended); simpl;
      rewrite ?E; (split; [repeat split |]);
      repeat (split; [reflexivity |]).
    + exists [CtxResume]. split; [reflexivity |].
      constructor; [right; reflexivity | constructor].
    + exists []. split; [rewrite app_nil_r; reflexivity | constructor].
  - destruct (ctx_state_eqb (state (AC w)) suspended); simpl;
      rewrite ?E; (split; [repeat split |]);
      repeat (split; [reflexivity |]).
    + exists [NewAudioContext; CtxResume].
      split; [rewrite <- app_assoc; reflexivity |].
      constructor; [left; reflexivity |].
      constructor; [right; reflexivity | constructor].
    + exists [NewAudioContext]. split; [reflexivity |].
      constructor; [left; reflexivity | constructor].
Qed.

(** Calls of the set-up of [start()] are neither clicks nor timeouts. *)
Lemma setup_calls_silent (pre : list call) :
  Forall (fun c => c = NewAudioContext \/ c = CtxResume) pre ->
  clicks pre = [] /\ timeouts pre = [] /\ tones pre = [].
Proof.
  induction 1 as [|c pre [Hc|Hc] _ IH]; [repeat split | |]; subst; simpl;
    exact IH.
Qed.

(** [ready] survives a change of the audio clock. *)
Lemma ready_set_clock (b s : Z) (now : Q) (w : world) :
  ready b s w -> ready b s (set_clock now w).
Proof.
  intros (Hb & Hs & Hbpm & Hsub & ctx & Hctx). unfold set_clock.
  rewrite Hctx. unfold ready. simpl. repeat split; eauto.
Qed.

Lemma ready_same_setup (b s : Z) (w w' : world) :
  same_setup w w' -> ready b s w -> ready b s w'.
Proof.
  intros (E1 & _ & _ & E4 & E5 & _) (Hb & Hs & Hbpm & Hsub & ctx & Hctx).
  unfold ready. rewrite E1, E4, E5. repeat split; eauto.
Qed.

(** One pass over a ready metronome returns, given fuel for its length. *)
Lemma schedule_total (fuel : nat) (w : world) (ctx : AudioContext)
      (b s : Z) (t : Q) :
  ready b s w -> _audioCtx w = Some ctx -> _nextBeatTime w = Fin t ->
  (pass_length (currentTime ctx + (1 # 10)) t (interval b s) <= fuel)%nat ->
  exists w' evs,
    _schedule fuel w = Ret w'
    /\ same_setup w w'
    /\ log w' = log w ++ evs
    /\ length (clicks evs)
       = pass_length (currentTime ctx + (1 # 10)) t (interval b s)
    /\ Forall (not_before t) (tones evs)
    /\ exists t', _nextBeatTime w' = Fin t' /\ t <= t'.
Proof.
  intros Hr Hctx Ht Hfuel.
  destruct (schedule_loop_total _ fuel w b s t
              (currentTime ctx + (1 # 10)) Hr Ht eq_refl Hfuel)
    as (w' & evs & Hrun & Hsame & Hlog & Hlen & Hall & t' & Ht' & Hle & _).
  exists w', evs. unfold _schedule. rewrite Hctx.
  repeat (split; [assumption |]). eauto.
Qed.

(** Any sequence of ticks over a ready metronome returns, given enough
    fuel, and no click of it starts before the cursor time it began with. *)
Lemma ticks_total (b s : Z) (nows : list Q) :
  forall (w : world) (t : Q),
    ready b s w -> _nextBeatTime w = Fin t ->
    exists fuel w' evs,
      ticks fuel nows w = Ret w'
      /\ log w' = log w ++ evs
      /\ Forall (not_before t) (tones evs).
Proof.
  induction nows as [|now nows IH]; intros w t Hr Ht.
  - exists 0%nat, w, []. simpl. rewrite app_nil_r. repeat split. constructor.
  - pose proof (ready_set_clock b s now w Hr) as Hr1.
    destruct Hr1 as (Hb & Hs & Hbpm & Hsub & ctx & Hctx).
    assert (Hr1 : ready b s (set_clock now w))
      by (unfold ready; eauto 10).
    assert (Ht1 : _nextBeatTime (set_clock now w) = Fin t).
    { unfold set_clock. destruct (_audioCtx w); exact Ht. }
    destruct (schedule_total _ (set_clock now w) ctx b s t Hr1 Hctx Ht1
                (Nat.le_refl _))
      as (w1 & evs1 & Hrun1 & Hsame1 & Hlog1 & _ & Hall1 & t1 & Ht1' & Hle1).
    destruct (IH w1 t1 (ready_same_setup _ _ _ _ Hsame1 Hr1) Ht1')
      as (fuel2 & w' & evs2 & Hrun2 & Hlog2 & Hall2).
    set (fuel1 := pass_length (currentTime ctx + (1 # 10)) t (interval b s))
      in *.
    exists (Nat.max fuel1 fuel2), w', (evs1 ++ evs2).
    split; [| split].
    + simpl. unfold tick.
      rewrite (schedule_fuel _ _ _ _ (Nat.le_max_l fuel1 fuel2) Hrun1). simpl.
      apply (ticks_fuel _ _ _ (Nat.le_max_r fuel1 fuel2)), Hrun2.
    + rewrite Hlog2, Hlog1, app_assoc. f_equal.
      unfold set_clock. destruct (_audioCtx w); reflexivity.
    + rewrite tones_app. apply Forall_app. split; [exact Hall1 |].
      eapply Forall_impl; [| exact Hall2].
      intros a Ha. eapply not_before_le; eauto.
Qed.

(* ================================================================== *)
(** ** Recovery *)
(* ================================================================== *)

(** The safety margin is positive when a reported latency is not negative. *)
Lemma latency_or_default_pos (ctx : AudioContext) :
  (forall l, baseLatency ctx = Some l -> 0 <= l) ->
  0 < latency_or_default ctx.
Proof.
  intro H. unfold latency_or_default.
  destruct (baseLatency ctx) as [l|]; [| reflexivity].
  specialize (H l eq_refl).
  destruct (Qeq_bool l 0) eqn:E; [reflexivity |].
  apply Qeq_bool_neq in E. apply Qle_lteq in H. destruct H as [H|H].
  - exact H.
  - exfalso. apply E. symmetry. exact H.
Qed.

(** The visibility handler of a running metronome re-anchors the cursor
    and leaves the set-up alone. *)
Lemma visibilitychange_reanchors (w : world) (ctx : AudioContext) :
  _audioCtx w = Some ctx -> isRunning w = true ->
  _nextBeatTime (visibilitychange_listener true w)
  = Fin (currentTime ctx + latency_or_default ctx)
  /\ same_setup w (visibilitychange_listener true w).
Proof.
  intros Hctx Hrun.
  unfold visibilitychange_listener, requestWakeLock, recoverPlayback.
  rewrite Hrun, Hctx. cbn [andb].
  destruct (ctx_state_eqb (state ctx) suspended
            || ctx_state_eqb (state ctx) interrupted);
    unfold isRunning in *; cbn; destruct (_intervalId w);
    try discriminate; cbn; split; try reflexivity;
    unfold same_setup; cbn; repeat split.
Qed.

(** So does the [statechange] listener when the context is running. *)
Lemma statechange_reanchors (w : world) (ctx : AudioContext) :
  _audioCtx w = Some ctx -> isRunning w = true -> _mobileHooked ctx = true ->
  _nextBeatTime (statechange running w)
  = Fin (currentTime ctx + latency_or_default ctx)
  /\ _bpm (statechange running w) = _bpm w
  /\ _subdivision (statechange running w) = _subdivision w
  /\ exists ctx', _audioCtx (statechange running w) = Some ctx'.
Proof.
  intros Hctx Hrun Hhook.
  unfold statechange, set_state, statechange_listener. rewrite Hctx.
  cbn. rewrite Hhook. cbn.
  unfold isRunning in *. cbn. destruct (_intervalId w); try discriminate.
  cbn. repeat split. eauto.
Qed.

(** Ticks after a re-anchor: they return, and none of their clicks starts
    before the anchor. *)
Lemma ticks_not_before (b s : Z) (nows : list Q) (w : world) (t : Q) :
  ready b s w -> _nextBeatTime w = Fin t ->
  exists fuel0,
    forall fuel, (fuel0 <= fuel)%nat ->
      exists w',
        ticks fuel nows w = Ret w'
        /\ Forall (not_before t) (tones (since w w')).
Proof.
  intros Hr Ht.
  destruct (ticks_total b s nows w t Hr Ht)
    as (fuel0 & w' & evs & Hrun & Hlog & Hall).
  exists fuel0. intros fuel Hfuel. exists w'. split.
  - apply (ticks_fuel fuel0 fuel nows Hfuel), Hrun.
  - rewrite (since_app w w' evs Hlog). exact Hall.
Qed.

(* ================================================================== *)
(** ** Beat-index sequencing *)
(* ================================================================== *)

Section Sequencing.

(** A meter and a subdivision, both positive integers. *)
Variables M S : Z.
Hypothesis HM : (0 < M)%Z.
Hypothesis HS : (0 < S)%Z.

(** [_advanceBeat] moves the cursor to the next row-major position. *)
Lemma advanceBeat_cursor (k : Z) (w : world) :
  (0 <= k)%Z ->
  _beatsPerMeasure w = int M -> _subdivision w = int S ->
  (_currentBeat w, _currentSubdiv w) = cursor_at M S k ->
  (_currentBeat (_advanceBeat w), _currentSubdiv (_advanceBeat w))
  = cursor_at M S (k + 1).
Proof.
  intros Hk EM ES Hcur. unfold cursor_at in *.
  injection Hcur as Hb Hs.
  assert (Hbound : (0 <= k / S)%Z) by (apply Z.div_pos; lia).
  pose proof (Z.mod_pos_bound k S HS).
  pose proof (Z.mod_pos_bound (k / S) M HM).
  unfold _advanceBeat. cbn [_currentSubdiv _subdivision with_nextBeatTime
    with_currentSubdiv _currentBeat _beatsPerMeasure].
  rewrite Hs, ES, add_int, rem_int, next_subdiv, eq_int by lia.
  destruct (((k + 1) mod S =? 0)%Z) eqn:E.
  - apply Z.eqb_eq in E.
    cbn [_currentSubdiv _currentBeat with_currentBeat with_currentSubdiv
         with_nextBeatTime _beatsPerMeasure].
    rewrite Hb, EM, add_int, rem_int, next_beat_wrap by lia.
    reflexivity.
  - apply Z.eqb_neq in E.
    cbn [_currentSubdiv _currentBeat with_currentBeat with_currentSubdiv
         with_nextBeatTime _beatsPerMeasure].
    rewrite Hb, (next_beat_stay S k) by lia. reflexivity.
Qed.

Lemma sequencing_iteration (pre : list call) (w w1 : world) :
  sequencing M S pre w ->
  _scheduleClick (_currentBeat w) (_currentSubdiv w) (_nextBeatTime w) w
  = Ret w1 ->
  sequencing M S pre (_advanceBeat w1).
Proof.
  intros (EM & ES & evs & Hlog & Hclicks & Htimeouts & Hcur) Hclick.
  destruct (_audioCtx w) as [ctx|] eqn:Hctx;
    [| unfold _scheduleClick in Hclick; rewrite Hctx in Hclick;
       discriminate].
  destruct (scheduleClick_calls w ctx (_currentBeat w) (_currentSubdiv w)
              (_nextBeatTime w) Hctx) as (evs1 & Hret & tn & Hevs & _).
  rewrite Hret in Hclick. injection Hclick as <-.
  set (w1 := with_log (log w ++ evs1) w).
  destruct (advanceBeat_setup w1) as (_ & E2 & _ & E4 & _).
  split; [rewrite E2; exact EM |]. split; [rewrite E4; exact ES |].
  exists (evs ++ evs1). split.
  { rewrite advanceBeat_log. simpl. rewrite Hlog, app_assoc. reflexivity. }
  set (n := length (clicks evs)) in *.
  assert (Hc1 : clicks evs1 = [cursor_at M S (Z.of_nat n)]).
  { rewrite Hevs, <- Hcur.
    destruct (eq (_currentSubdiv w) (int 0)); reflexivity. }
  assert (Ht1 : timeouts evs1
                = map fst (filter (fun p => eq (snd p) (int 0))
                             [cursor_at M S (Z.of_nat n)])).
  { rewrite Hevs, <- Hcur. simpl.
    destruct (eq (_currentSubdiv w) (int 0)); reflexivity. }
  assert (Hlen : length (clicks (evs ++ evs1)) = Datatypes.S n).
  { rewrite clicks_app, length_app, Hc1. simpl. subst n. lia. }
  unfold in_sequence. rewrite Hlen. split; [| split].
  - rewrite clicks_app, Hc1, seq_S, map_app, <- Hclicks. reflexivity.
  - rewrite timeouts_app, clicks_app, Hc1, filter_app, map_app, Ht1,
      <- Htimeouts. reflexivity.
  - replace (Z.of_nat (Datatypes.S n)) with (Z.of_nat n + 1)%Z by lia.
    apply advanceBeat_cursor; try lia; assumption.
Qed.

Lemma sequencing_schedule (pre : list call) (fuel : nat) (w w' : world) :
  sequencing M S pre w -> _schedule fuel w = Ret w' -> sequencing M S pre w'.
Proof.
  intros Hinv Hrun. unfold _schedule in Hrun.
  destruct (_audioCtx w) as [ctx|]; [| discriminate].
  eapply (schedule_loop_rule (sequencing M S pre)); [| exact Hinv | exact Hrun].
  intros v v1 Hv _ Hclick. eapply sequencing_iteration; eauto.
Qed.

Lemma sequencing_set_clock (pre : list call) (now : Q) (w : world) :
  sequencing M S pre w -> sequencing M S pre (set_clock now w).
Proof.
  unfold set_clock. destruct (_audioCtx w); intro H; exact H.
Qed.

Lemma sequencing_ticks (pre : list call) (fuel : nat) (nows : list Q) :
  forall w w',
    sequencing M S pre w -> ticks fuel nows w = Ret w' ->
    sequencing M S pre w'.
Proof.
  induction nows as [|now nows IH]; intros w w' Hinv Hrun; simpl in Hrun.
  - injection Hrun as <-. exact Hinv.
  - unfold tick in Hrun.
    destruct (_schedule fuel (set_clock now w)) as [w1| |] eqn:E;
      simpl in Hrun; try discriminate.
    eapply IH; [| exact Hrun].
    eapply sequencing_schedule; [| exact E].
    apply sequencing_set_clock, Hinv.
Qed.

(** The run is in sequence when the first pass of [start()] begins, and
    registering the interval timer keeps it so. *)
Lemma sequencing_before_first_pass (w : world) :
  _beatsPerMeasure w = int M -> _subdivision w = int S ->
  sequencing M S (log w) (before_first_pass w).
Proof.
  intros EM ES.
  destruct (before_first_pass_spec w)
    as ((_ & E2 & _ & E4 & _) & _ & Hb & Hs & _ & pre & Hlog & Hpre).
  destruct (setup_calls_silent pre Hpre) as (Hc & Ht & _).
  split; [rewrite <- EM; exact E2 |]. split; [rewrite <- ES; exact E4 |].
  exists pre. split; [exact Hlog |].
  unfold in_sequence. rewrite Hc, Ht, Hb, Hs. simpl.
  unfold cursor_at. rewrite Z.div_0_l, !Z.mod_0_l by lia.
  repeat split.
Qed.

Lemma sequencing_setInterval (pre : list call) (ms : Z) (w : world) :
  sequencing M S pre w -> sequencing M S pre (setInterval ms w).
Proof.
  intros (EM & ES & evs & Hlog & Hclicks & Htimeouts & Hcur).
  split; [exact EM |]. split; [exact ES |].
  exists (evs ++ [SetInterval (nextHandle w) ms]). split.
  - simpl. rewrite Hlog, app_assoc. reflexivity.
  - unfold in_sequence.
    rewrite clicks_app, timeouts_app. simpl. rewrite !app_nil_r.
    repeat split; assumption.
Qed.

(** Every session that returns is in sequence. *)
Lemma session_sequencing (fuel : nat) (nows : list Q) (w w' : world) :
  isRunning w = false ->
  _beatsPerMeasure w = int M -> _subdivision w = int S ->
  session fuel nows w = Ret w' ->
  sequencing M S (log w) w'.
Proof.
  intros Hstop EM ES Hrun. unfold session in Hrun.
  rewrite start_eq in Hrun by assumption.
  destruct (_schedule fuel (before_first_pass w)) as [w6| |] eqn:E6;
    simpl in Hrun; try discriminate.
  eapply sequencing_ticks; [| exact Hrun].
  apply sequencing_setInterval.
  eapply sequencing_schedule; [| exact E6].
  apply sequencing_before_first_pass; assumption.
Qed.

End Sequencing.

(* ================================================================== *)
(** ** Sessions, the click rule, hooks and timers *)
(* ================================================================== *)

Lemma nth_error_map_seq {A : Type} (f : nat -> A) (n k : nat) (p : A) :
  nth_error (map f (seq 0 n)) k = Some p -> p = f k.
Proof.
  intro H. rewrite nth_error_map in H.
  destruct (nth_error (seq 0 n) k) as [j|] eqn:E; [| discriminate].
  assert (k < length (seq 0 n))%nat
    by (apply nth_error_Some; congruence).
  rewrite length_seq in *.
  rewrite nth_error_nth' with (d := 0%nat) in E by (rewrite length_seq; lia).
  rewrite seq_nth in E by lia. simpl in *. congruence.
Qed.

Lemma ready_before_first_pass (b s : Z) (w : world) :
  (0 < b)%Z -> (0 < s)%Z -> _bpm w = int b -> _subdivision w = int s ->
  ready b s (before_first_pass w).
Proof.
  intros Hb Hs Ebpm Esub.
  destruct (before_first_pass_spec w)
    as ((E1 & _ & _ & E4 & _) & Hctx & _).
  unfold ready. repeat split; try assumption.
  - rewrite <- Ebpm. exact E1.
  - rewrite <- Esub. exact E4.
  - eauto.
Qed.

Lemma ready_setInterval (b s : Z) (ms : Z) (w : world) :
  ready b s w -> ready b s (setInterval ms w).
Proof. intro H. exact H. Qed.

(** A session over a stopped metronome with a stored tempo and subdivision
    returns, given enough fuel. *)
Lemma session_total (b s : Z) (nows : list Q) (w : world) :
  isRunning w = false ->
  (0 < b)%Z -> (0 < s)%Z -> _bpm w = int b -> _subdivision w = int s ->
  exists fuel0,
    forall fuel, (fuel0 <= fuel)%nat -> exists w', session fuel nows w = Ret w'.
Proof.
  intros Hstop Hb Hs Ebpm Esub.
  pose proof (ready_before_first_pass b s w Hb Hs Ebpm Esub) as Hr.
  destruct (before_first_pass_spec w) as (_ & Hctx & _ & _ & Ht & _).
  destruct (schedule_total _ _ _ b s _ Hr Hctx Ht (Nat.le_refl _))
    as (w6 & evs & Hrun & Hsame & _ & _ & _ & t' & Ht' & _).
  set (fuel1 := pass_length _ _ _) in Hrun.
  destruct (ticks_total b s nows (setInterval LOOKAHEAD_INTERVAL w6) t'
              (ready_setInterval b s _ _ (ready_same_setup _ _ _ _ Hsame Hr))
              Ht')
    as (fuel2 & w' & _ & Hticks & _).
  exists (Nat.max fuel1 fuel2). intros fuel Hfuel. exists w'.
  unfold session. rewrite start_eq by assumption.
  rewrite (schedule_fuel fuel1 fuel _ _ ltac:(lia) Hrun). simpl.
  apply (ticks_fuel fuel2 fuel nows ltac:(lia)), Hticks.
Qed.

(** A late enough tick makes a session as long as one likes. *)
Lemma session_reaches (b s : Z) (K : nat) (w : world) :
  isRunning w = false ->
  (0 < b)%Z -> (0 < s)%Z -> _bpm w = int b -> _subdivision w = int s ->
  exists now fuel w',
    session fuel [now] w = Ret w'
    /\ (K < length (clicks (since w w')))%nat.
Proof.
  intros Hstop Hb Hs Ebpm Esub.
  pose proof (ready_before_first_pass b s w Hb Hs Ebpm Esub) as Hr.
  pose proof (interval_pos b s Hb Hs) as Hi.
  destruct (before_first_pass_spec w)
    as (_ & Hctx & _ & _ & Ht & pre & Hlog5 & _).
  destruct (schedule_total _ _ _ b s _ Hr Hctx Ht (Nat.le_refl _))
    as (w6 & evs6 & Hrun6 & Hsame6 & Hlog6 & _ & _ & t6 & Ht6 & _).
  set (fuel1 := pass_length _ _ _) in Hrun6.
  set (w7 := setInterval LOOKAHEAD_INTERVAL w6).
  set (now := t6 + inject_Z (Z.of_nat (Datatypes.S K)) * interval b s).
  assert (Hr7 : ready b s (set_clock now w7)).
  { apply ready_set_clock, ready_setInterval.
    exact (ready_same_setup _ _ _ _ Hsame6 Hr). }
  destruct Hr7 as (_ & _ & Ebpm7 & Esub7 & ctx7 & Hctx7).
  assert (Hr7 : ready b s (set_clock now w7)) by (unfold ready; eauto 10).
  assert (Hnow : currentTime ctx7 = now).
  { unfold set_clock in Hctx7.
    destruct (_audioCtx w7) eqn:E7; [| congruence].
    cbn in Hctx7. injection Hctx7 as <-. reflexivity. }
  assert (Ht7 : _nextBeatTime (set_clock now w7) = Fin t6).
  { unfold set_clock. destruct (_audioCtx w7); exact Ht6. }
  destruct (schedule_total _ _ ctx7 b s t6 Hr7 Hctx7 Ht7 (Nat.le_refl _))
    as (w8 & evs8 & Hrun8 & _ & Hlog8 & Hlen8 & _).
  set (fuel2 := pass_length _ _ _) in Hrun8, Hlen8.
  exists now, (Nat.max fuel1 fuel2), w8. split.
  - unfold session. rewrite start_eq by assumption.
    rewrite (schedule_fuel fuel1 _ _ _ (Nat.le_max_l _ _) Hrun6).
    simpl. unfold tick.
    fold w7. rewrite (schedule_fuel fuel2 _ _ _ (Nat.le_max_r _ _) Hrun8).
    reflexivity.
  - assert (Hlog : log w8
                   = log w ++ (pre ++ evs6
                               ++ [SetInterval (nextHandle w6)
                                     LOOKAHEAD_INTERVAL]) ++ evs8).
    { rewrite Hlog8.
      replace (log (set_clock now w7)) with (log w7)
        by (unfold set_clock; destruct (_audioCtx w7); reflexivity).
      subst w7. simpl. rewrite Hlog6, Hlog5, <- !app_assoc. reflexivity. }
    rewrite (since_app w w8 _ Hlog), !clicks_app, !length_app, Hlen8.
    assert (Datatypes.S K <= fuel2)%nat; [| lia].
    subst fuel2. unfold pass_length. rewrite Hnow.
    assert (Hq : inject_Z (Z.of_nat (Datatypes.S K))
                 <= (now + (1 # 10) - t6) / interval b s).
    { apply Qle_shift_div_l; [exact Hi |]. subst now. lra. }
    apply Qceiling_resp_le in Hq. rewrite Qceiling_Z in Hq. lia.
Qed.

(** The calls of one [_scheduleClick] obey the rule for the configured
    volume. *)
Lemma scheduleClick_rule (w w1 : world) (b s t : num) :
  _scheduleClick b s t w = Ret w1 ->
  exists evs,
    log w1 = log w ++ evs /\ Forall (click_rule (_volume w)) evs
    /\ _volume w1 = _volume w.
Proof.
  unfold _scheduleClick. destruct (_audioCtx w) as [ctx|]; [| discriminate].
  destruct (eq s (int 0)) eqn:Es; destruct (eq b (int 0)) eqn:Eb;
    cbn [andb]; intro H; injection H as <-; eexists;
    (split; [unfold emit; cbn; rewrite <- ?app_assoc; reflexivity |]);
    (split; [| reflexivity]);
    repeat constructor; cbn; rewrite ?Es, ?Eb; try discriminate;
    try reflexivity; intros; try congruence; auto.
Qed.

Lemma ruled_iteration (vol : num) (pre : list call) (w w1 : world) :
  ruled vol pre w ->
  _scheduleClick (_currentBeat w) (_currentSubdiv w) (_nextBeatTime w) w
  = Ret w1 ->
  ruled vol pre (_advanceBeat w1).
Proof.
  intros (Ev & evs & Hlog & Hall) Hclick.
  destruct (scheduleClick_rule _ _ _ _ _ Hclick)
    as (evs1 & Hlog1 & Hall1 & Ev1).
  destruct (advanceBeat_setup w1) as (_ & _ & E3 & _).
  split; [congruence |].
  exists (evs ++ evs1). split.
  - rewrite advanceBeat_log, Hlog1, Hlog, app_assoc. reflexivity.
  - apply Forall_app. split; [exact Hall | rewrite <- Ev; exact Hall1].
Qed.

Lemma ruled_schedule (vol : num) (pre : list call) (fuel : nat)
      (w w' : world) :
  ruled vol pre w -> _schedule fuel w = Ret w' -> ruled vol pre w'.
Proof.
  intros Hinv Hrun. unfold _schedule in Hrun.
  destruct (_audioCtx w) as [ctx|]; [| discriminate].
  eapply (schedule_loop_rule (ruled vol pre)); [| exact Hinv | exact Hrun].
  intros v v1 Hv _ Hclick. eapply ruled_iteration; eauto.
Qed.

Lemma ruled_ticks (vol : num) (pre : list call) (fuel : nat) (nows : list Q) :
  forall w w',
    ruled vol pre w -> ticks fuel nows w = Ret w' -> ruled vol pre w'.
Proof.
  induction nows as [|now nows IH]; intros w w' Hinv Hrun; simpl in Hrun.
  - injection Hrun as <-. exact Hinv.
  - unfold tick in Hrun.
    destruct (_schedule fuel (set_clock now w)) as [w1| |] eqn:E;
      simpl in Hrun; try discriminate.
    eapply IH; [| exact Hrun].
    eapply ruled_schedule; [| exact E].
    unfold set_clock. destruct (_audioCtx w); exact Hinv.
Qed.

Lemma ruled_session (fuel : nat) (nows : list Q) (w w' : world) :
  isRunning w = false ->
  session fuel nows w = Ret w' -> ruled (_volume w) (log w) w'.
Proof.
  intros Hstop Hrun. unfold session in Hrun.
  rewrite start_eq in Hrun by assumption.
  destruct (_schedule fuel (before_first_pass w)) as [w6| |] eqn:E6;
    simpl in Hrun; try discriminate.
  eapply ruled_ticks; [| exact Hrun].
  assert (H5 : ruled (_volume w) (log w) (before_first_pass w)).
  { destruct (before_first_pass_spec w)
      as ((_ & _ & E3 & _) & _ & _ & _ & _ & pre & Hlog & Hpre).
    split; [exact E3 |]. exists pre. split; [exact Hlog |].
    eapply Forall_impl; [| exact Hpre].
    intros c [-> | ->]; exact I. }
  destruct (ruled_schedule _ _ _ _ _ H5 E6) as (Ev & evs & Hlog & Hall).
  split; [exact Ev |].
  exists (evs ++ [SetInterval (nextHandle w6) LOOKAHEAD_INTERVAL]). split.
  - simpl. rewrite Hlog, app_assoc. reflexivity.
  - apply Forall_app. split; [exact Hall | repeat constructor].
Qed.

(** A pass only schedules clicks and their timeouts, and leaves the
    set-up alone. *)
Lemma schedule_frame (fuel : nat) (w w' : world) :
  _schedule fuel w = Ret w' ->
  same_setup w w'
  /\ exists evs,
       log w' = log w ++ evs /\ Forall (fun c => forall h, c <> Invoke h) evs.
Proof.
  unfold _schedule. destruct (_audioCtx w) as [ctx|]; [| discriminate].
  intro Hrun.
  pose (P := fun v : world =>
               same_setup w v
               /\ exists evs,
                    log v = log w ++ evs
                    /\ Forall (fun c => forall h, c <> Invoke h) evs).
  assert (HP : P w).
  { split; [apply same_setup_refl |]. exists []. rewrite app_nil_r.
    split; constructor. }
  refine (proj1 (schedule_loop_rule P _ _ fuel w w' HP Hrun)).
  intros v v1 (Hsame & evs & Hlog & Hall) _ Hclick.
  destruct (_audioCtx v) as [c|] eqn:Hc;
    [| unfold _scheduleClick in Hclick; rewrite Hc in Hclick; discriminate].
  destruct (scheduleClick_calls v c (_currentBeat v) (_currentSubdiv v)
              (_nextBeatTime v) Hc) as (evs1 & Hret & tn & Hevs & _).
  rewrite Hret in Hclick. injection Hclick as <-.
  split.
  - eapply same_setup_trans; [exact Hsame |].
    eapply same_setup_trans; [| apply advanceBeat_setup].
    unfold same_setup. repeat split.
  - exists (evs ++ evs1). split.
    + rewrite advanceBeat_log. simpl. rewrite Hlog, app_assoc. reflexivity.
    + apply Forall_app. split; [exact Hall |]. rewrite Hevs.
      destruct (eq (_currentSubdiv v) (int 0));
        repeat constructor; intros h; discriminate.
Qed.

(** [start()] that returns leaves the metronome running. *)
Lemma start_running (fuel : nat) (w w' : world) :
  start fuel w = Ret w' -> isRunning w' = true.
Proof.
  intro H. destruct (isRunning w) eqn:E.
  - unfold start in H. rewrite E in H. injection H as <-. exact E.
  - rewrite start_eq in H by assumption.
    destruct (_schedule fuel (before_first_pass w)); simpl in H;
      try discriminate.
    injection H as <-. reflexivity.
Qed.

(** [start()] on a running metronome returns at once. *)
Lemma start_noop (fuel : nat) (w : world) :
  isRunning w = true -> start fuel w = Ret w.
Proof. intro H. unfold start. rewrite H. reflexivity. Qed.

(** [stop()] leaves the metronome stopped. *)
Lemma stop_stopped (w : world) : isRunning (stop w) = false.
Proof.
  unfold stop, isRunning. destruct (_intervalId w) eqn:E.
  - reflexivity.
  - rewrite E. reflexivity.
Qed.

(** [start()] on a stopped, ready metronome returns, given enough fuel. *)
Lemma start_total (b s : Z) (w : world) :
  (0 < b)%Z -> (0 < s)%Z -> _bpm w = int b -> _subdivision w = int s ->
  exists fuel0,
    forall fuel, (fuel0 <= fuel)%nat -> exists w1, start fuel w = Ret w1.
Proof.
  intros Hb Hs Ebpm Esub. destruct (isRunning w) eqn:Hrun.
  - exists 0%nat. intros fuel _. exists w. apply start_noop, Hrun.
  - destruct (session_total b s [] w Hrun Hb Hs Ebpm Esub) as (fuel0 & H).
    exists fuel0. intros fuel Hfuel. destruct (H fuel Hfuel) as (w' & Hw').
    unfold session in Hw'.
    destruct (start fuel w) as [w1| |]; simpl in Hw'; try discriminate.
    exists w1. reflexivity.
Qed.

(** The meter setter stores what it is given and resets the beat; it
    touches nothing else and never fails. *)
Lemma set_beatsPerMeasure_stores (v : num) (w : world) :
  _beatsPerMeasure (set_beatsPerMeasure v w) = v
  /\ _currentBeat (set_beatsPerMeasure v w) = int 0
  /\ _currentSubdiv (set_beatsPerMeasure v w) = _currentSubdiv w
  /\ _nextBeatTime (set_beatsPerMeasure v w) = _nextBeatTime w.
Proof. repeat split. Qed.

Lemma zero_not_positive_integer : ~ positive_integer (int 0).
Proof.
  intros (z & Hz & E). unfold int in E. injection E as E. lia.
Qed.

(** No method of the class calls a hook: neither [start()] nor [stop()]
    adds an [Invoke] to the log. *)
Lemma start_invokes_nothing (fuel : nat) (w w' : world) (h : hook) :
  start fuel w = Ret w' -> ~ In (Invoke h) (since w w').
Proof.
  intro H. destruct (isRunning w) eqn:E.
  - unfold start in H. rewrite E in H. injection H as <-.
    rewrite since_refl. intros [].
  - rewrite start_eq in H by assumption.
    destruct (_schedule fuel (before_first_pass w)) as [w6| |] eqn:E6;
      simpl in H; try discriminate.
    injection H as <-.
    destruct (before_first_pass_spec w)
      as (_ & _ & _ & _ & _ & pre & Hlog & Hpre).
    destruct (schedule_frame _ _ _ E6) as (_ & evs & Hlog6 & Hall).
    rewrite (since_app w _ (pre ++ evs ++ [SetInterval (nextHandle w6) 25])).
    + rewrite !in_app_iff. intros [Hin | [Hin | [Hin | []]]].
      * rewrite Forall_forall in Hpre.
        destruct (Hpre _ Hin); discriminate.
      * rewrite Forall_forall in Hall. apply (Hall _ Hin h). reflexivity.
      * discriminate.
    + simpl. rewrite Hlog6, Hlog, <- !app_assoc. reflexivity.
Qed.

Lemma stop_invokes_nothing (w : world) (h : hook) :
  ~ In (Invoke h) (since w (stop w)).
Proof.
  unfold stop. destruct (_intervalId w) as [n|].
  - rewrite (since_app w _ [ClearInterval n]) by reflexivity.
    intros [Hin | []]. discriminate.
  - rewrite since_refl. intros [].
Qed.

(** The metronome's timer is the only interval timer of the page, and it
    is live exactly while the handle is stored. *)
Lemma step_timer_live (w w' : world) :
  step w w' -> timer_live w -> timer_live w'.
Proof.
  unfold timer_live. intros Hstep Hlive. destruct Hstep; try exact Hlive.
  - (* start *)
    destruct (isRunning w) eqn:E.
    + unfold start in H. rewrite E in H. injection H as <-. exact Hlive.
    + rewrite start_eq in H by assumption.
      destruct (_schedule fuel (before_first_pass w)) as [w6| |] eqn:E6;
        simpl in H; try discriminate.
      injection H as <-.
      destruct (schedule_frame _ _ _ E6)
        as ((_ & _ & _ & _ & _ & _ & _ & Et & _) & _).
      destruct (before_first_pass_spec w)
        as ((_ & _ & _ & _ & _ & _ & _ & Et0 & _) & _).
      simpl in *. rewrite Et.
      change (timers (before_first_pass w)) with
        (timers (with_audioCtx (_audioCtx w) (before_first_pass w))).
      rewrite Et0, Hlive.
      unfold isRunning in E. destruct (_intervalId w); [discriminate |].
      reflexivity.
  - (* stop *)
    unfold stop. destruct (_intervalId w) as [h|] eqn:E.
    + simpl. rewrite Hlive. simpl. rewrite Nat.eqb_refl. reflexivity.
    + rewrite E. exact Hlive.
  - (* _ensureAudioContext *)
    unfold _ensureAudioContext. destruct (_audioCtx w); exact Hlive.
  - (* tick *)
    unfold tick in H0.
    destruct (schedule_frame _ _ _ H0)
      as ((_ & _ & _ & _ & _ & Ei & _ & Et & _) & _).
    rewrite Et, Ei. unfold set_clock. destruct (_audioCtx w); exact Hlive.
  - unfold set_clock. destruct (_audioCtx w); exact Hlive.
  - unfold hookAudioContextRecovery.
    destruct (_audioCtx w) as [c|]; [| exact Hlive].
    destruct (_mobileHooked c); exact Hlive.
  - unfold statechange, set_state, statechange_listener.
    destruct (_audioCtx w) as [c|] eqn:Ec; cbn; rewrite ?Ec;
      [| exact Hlive].
    destruct (_mobileHooked c); cbn; [| exact Hlive].
    destruct (ctx_state_eqb s running && _); exact Hlive.
  - unfold visibilitychange_listener, requestWakeLock, recoverPlayback.
    destruct (visible && isRunning w); [| exact Hlive].
    destruct (_audioCtx w) as [c|]; [| exact Hlive].
    destruct (ctx_state_eqb (state c) suspended
              || ctx_state_eqb (state c) interrupted);
      case_if; exact Hlive.
Qed.

Lemma reachable_timer_live (w : world) : reachable w -> timer_live w.
Proof.
  induction 1 as [ac | w w' _ IH Hstep].
  - reflexivity.
  - eapply step_timer_live; eauto.
Qed.

(* ================================================================== *)
(** ** The pass in rounded arithmetic *)
(* ================================================================== *)

Lemma rd_exact (v : num) : Rounded.rd (fun x => x) v = v.
Proof. destruct v; reflexivity. Qed.

(** With nothing rounded, the rounded pass is the pass of [Metronome]. *)
Lemma rounded_scheduleClick_exact (beat subdiv time : num) (w : world) :
  Rounded._scheduleClick (fun x => x) beat subdiv time w
  = _scheduleClick beat subdiv time w.
Proof.
  unfold Rounded._scheduleClick, _scheduleClick, Rounded.add, Rounded.sub,
    Rounded.mul.
  destruct (_audioCtx w); [| reflexivity].
  rewrite !rd_exact. reflexivity.
Qed.

Lemma rounded_advanceBeat_exact (w : world) :
  Rounded._advanceBeat (fun x => x) w = _advanceBeat w.
Proof.
  unfold Rounded._advanceBeat, _advanceBeat, Rounded.add, Rounded.div.
  rewrite !rd_exact. reflexivity.
Qed.

Lemma rounded_schedule_exact (fuel : nat) (w : world) :
  Rounded._schedule (fun x => x) fuel w = _schedule fuel w.
Proof.
  unfold Rounded._schedule, _schedule.
  destruct (_audioCtx w) as [ctx|]; [| reflexivity].
  unfold Rounded.add. rewrite !rd_exact.
  generalize (add (Fin (currentTime ctx)) SCHEDULE_AHEAD_TIME). intro u.
  revert w. induction fuel as [|fuel IH]; intro w; simpl;
    destruct (lt (_nextBeatTime w) u); try reflexivity.
  rewrite rounded_scheduleClick_exact.
  destruct (_scheduleClick (_currentBeat w) (_currentSubdiv w)
              (_nextBeatTime w) w) as [w1| |]; simpl; try reflexivity.
  rewrite rounded_advanceBeat_exact. apply IH.
Qed.

(** *** Rounding to a double is off by at most half a unit in the last
    place *)

Lemma nearest_even_err (y : Q) :
  Qabs (inject_Z (Rounded.nearest_even y) - y) <= 1 # 2.
Proof.
  unfold Rounded.nearest_even.
  pose proof (Qfloor_le y) as H1. pose proof (Qlt_floor y) as H2.
  rewrite inject_Z_plus in H2. change (inject_Z 1) with 1 in H2.
  apply Qabs_Qle_condition.
  destruct (Qcompare_spec (y - inject_Z (Qfloor y)) (1 # 2)) as [E | E | E].
  - destruct (Z.even (Qfloor y));
      rewrite ?inject_Z_plus; change (inject_Z 1) with 1; lra.
  - lra.
  - rewrite inject_Z_plus. change (inject_Z 1) with 1. lra.
Qed.

Lemma pow2_pos (e : Z) : 0 < Qpower 2 e.
Proof. apply Qpower_0_lt. reflexivity. Qed.

Lemma pow2_nat (k : Z) : (0 <= k)%Z -> Qpower 2 k == inject_Z (2 ^ k).
Proof. intro H. rewrite Zpower_Qpower by exact H. reflexivity. Qed.

(** The exponent is not too large. *)
Lemma exponent_le (x : Q) :
  ~ x == 0 -> Qpower 2 (Rounded.exponent x) <= Qabs x.
Proof.
  intro Hx. unfold Rounded.exponent.
  set (a := Qred (Qabs x)).
  assert (Ea : a == Qabs x) by apply Qred_correct.
  assert (Hpos : 0 < a).
  { rewrite Ea. destruct (Qlt_le_dec 0 (Qabs x)) as [H | H]; [exact H |].
    exfalso. apply Hx.
    pose proof (proj1 (Qabs_Qle_condition x 0) H). lra. }
  set (ln := Z.log2 (Qnum a)). set (ld := Z.log2 (Zpos (Qden a))).
  destruct (Qle_bool (Qpower 2 (ln - ld)) a) eqn:T.
  - apply Qle_bool_iff in T. rewrite <- Ea. exact T.
  - rewrite <- Ea.
    assert (Hn : (0 < Qnum a)%Z).
    { unfold Qlt in Hpos. simpl in Hpos. lia. }
    pose proof (Z.log2_spec (Qnum a) Hn) as (Hn1 & _).
    pose proof (Z.log2_spec (Zpos (Qden a)) ltac:(lia)) as (_ & Hd2).
    fold ln in Hn1. fold ld in Hd2.
    assert (Hln : (0 <= ln)%Z) by apply Z.log2_nonneg.
    assert (Hld : (0 <= ld)%Z) by apply Z.log2_nonneg.
    replace (ln - ld - 1)%Z with (ln - (ld + 1))%Z by lia.
    rewrite Qpower_minus by (intro H; discriminate H).
    rewrite (pow2_nat ln Hln), (pow2_nat (ld + 1)) by lia.
    assert (Eq : a == inject_Z (Qnum a) / inject_Z (Zpos (Qden a))).
    { destruct a as [n d]. apply Qmake_Qdiv. }
    rewrite Eq.
    assert (P1 : 0 < inject_Z (2 ^ (ld + 1)))
      by (change 0 with (inject_Z 0); rewrite <- Zlt_Qlt;
          apply Z.pow_pos_nonneg; lia).
    assert (P2 : 0 < inject_Z (Zpos (Qden a)))
      by (change 0 with (inject_Z 0); rewrite <- Zlt_Qlt; lia).
    assert (Q1 : inject_Z (2 ^ ln) <= inject_Z (Qnum a))
      by (rewrite <- Zle_Qle; exact Hn1).
    assert (Q2 : inject_Z (Zpos (Qden a)) <= inject_Z (2 ^ (ld + 1)))
      by (rewrite <- Zle_Qle; lia).
    assert (P3 : 0 < inject_Z (2 ^ ln))
      by (change 0 with (inject_Z 0); rewrite <- Zlt_Qlt;
          apply Z.pow_pos_nonneg; lia).
    apply Qle_shift_div_l; [exact P2 |].
    unfold Qdiv. rewrite <- Qmult_assoc, (Qmult_comm (/ _)), Qmult_assoc.
    apply Qle_shift_div_r; [exact P1 |].
    nra.
Qed.

(** Nor too small: the significand has 53 bits. *)
Lemma exponent_lt (x : Q) :
  ~ x == 0 -> Qabs x < Qpower 2 (Rounded.exponent x + 1).
Proof.
  intro Hx. unfold Rounded.exponent.
  set (a := Qred (Qabs x)).
  assert (Ea : a == Qabs x) by apply Qred_correct.
  assert (Hpos : 0 < a).
  { rewrite Ea. destruct (Qlt_le_dec 0 (Qabs x)) as [H | H]; [exact H |].
    exfalso. apply Hx.
    pose proof (proj1 (Qabs_Qle_condition x 0) H). lra. }
  set (ln := Z.log2 (Qnum a)). set (ld := Z.log2 (Zpos (Qden a))).
  destruct (Qle_bool (Qpower 2 (ln - ld)) a) eqn:T.
  - rewrite <- Ea.
    assert (Hn : (0 < Qnum a)%Z).
    { unfold Qlt in Hpos. simpl in Hpos. lia. }
    pose proof (Z.log2_spec (Qnum a) Hn) as (_ & Hn2).
    pose proof (Z.log2_spec (Zpos (Qden a)) ltac:(lia)) as (Hd1 & _).
    fold ln in Hn2. fold ld in Hd1.
    assert (Hln : (0 <= ln)%Z) by apply Z.log2_nonneg.
    assert (Hld : (0 <= ld)%Z) by apply Z.log2_nonneg.
    replace (ln - ld + 1)%Z with (ln + 1 - ld)%Z by lia.
    rewrite Qpower_minus by (intro H; discriminate H).
    rewrite (pow2_nat (ln + 1)), (pow2_nat ld Hld) by lia.
    assert (Eq : a == inject_Z (Qnum a) / inject_Z (Zpos (Qden a))).
    { destruct a as [n d]. apply Qmake_Qdiv. }
    rewrite Eq.
    assert (P1 : 0 < inject_Z (2 ^ ld))
      by (change 0 with (inject_Z 0); rewrite <- Zlt_Qlt;
          apply Z.pow_pos_nonneg; lia).
    assert (P2 : 0 < inject_Z (Zpos (Qden a)))
      by (change 0 with (inject_Z 0); rewrite <- Zlt_Qlt; lia).
    assert (Q1 : inject_Z (Qnum a) < inject_Z (2 ^ (ln + 1)))
      by (rewrite <- Zlt_Qlt; lia).
    assert (Q2 : inject_Z (2 ^ ld) <= inject_Z (Zpos (Qden a)))
      by (rewrite <- Zle_Qle; exact Hd1).
    assert (P3 : 0 < inject_Z (Qnum a))
      by (change 0 with (inject_Z 0); rewrite <- Zlt_Qlt; exact Hn).
    apply Qlt_shift_div_r; [exact P2 |].
    unfold Qdiv. rewrite <- Qmult_assoc, (Qmult_comm (/ _)), Qmult_assoc.
    apply Qlt_shift_div_l; [exact P1 |].
    nra.
  - replace (ln - ld - 1 + 1)%Z with (ln - ld)%Z by lia.
    rewrite <- Ea.
    destruct (Qlt_le_dec a (Qpower 2 (ln - ld))) as [H | H]; [exact H |].
    apply Qle_bool_iff in H. congruence.
Qed.

(** Up to magnitude [U] the rounding error of a double is at most
    [U * 2^-53]. *)
Lemma binary64_err (U x : Q) :
  Qabs x <= U ->
  Qabs (Rounded.binary64 x - x) <= U * (1 # 9007199254740992).
Proof.
  intro HU. unfold Rounded.binary64.
  destruct (Qeq_bool x 0) eqn:E0.
  - apply Qeq_bool_iff in E0.
    assert (E : 0 - x == 0) by (rewrite E0; ring).
    rewrite E. change (Qabs 0) with 0.
    pose proof (Qabs_nonneg x). nra.
  - apply Qeq_bool_neq in E0.
    set (e := Rounded.exponent x).
    set (ulp := Qpower 2 (e - 52)).
    set (m := inject_Z (Rounded.nearest_even (x / ulp))).
    rewrite Qred_correct.
    assert (Hulp : 0 < ulp) by apply pow2_pos.
    pose proof (nearest_even_err (x / ulp)) as Hm. fold m in Hm.
    apply Qabs_Qle_condition in Hm.
    assert (Ex : x / ulp * ulp == x) by (field; lra).
    assert (Hle : Qpower 2 e <= U)
      by (eapply Qle_trans; [apply exponent_le; exact E0 | exact HU]).
    assert (Eu : ulp == Qpower 2 e * (1 # 4503599627370496)).
    { unfold ulp. replace (e - 52)%Z with (e + -52)%Z by lia.
      rewrite Qpower_plus by (intro H; discriminate H). reflexivity. }
    assert (Hp : 0 < Qpower 2 e) by apply pow2_pos.
    apply Qabs_Qle_condition.
    set (y := x / ulp) in *. clearbody m y.
    assert (E1 : m * ulp - x == (m - y) * ulp) by (rewrite <- Ex; ring).
    rewrite E1, Eu. clear E1 Ex Eu Hulp. clearbody e. clear ulp.
    set (P := Qpower 2 e) in *. clearbody P.
    split; nra.
Qed.

(** *** One pass under a rounding whose error is bounded *)

Section RoundedPass.

Variable rnd : Q -> Q.
Variables U delta : Q.
Hypothesis rnd_err : forall x, Qabs x <= U -> Qabs (rnd x - x) <= delta.
Hypothesis HU : 8 <= U.

Variables b s : Z.
Hypothesis Hb : (20 <= b <= 300)%Z.
Hypothesis Hs : (1 <= s)%Z.
Hypothesis Hsmall :
  delta * (5 * interval b s + (3 # 10)) <= interval b s * interval b s.

Lemma rnd_bounds (x : Q) :
  - U <= x <= U -> x - delta <= rnd x <= x + delta.
Proof.
  intro H.
  pose proof (rnd_err x (proj2 (Qabs_Qle_condition x U) H)) as E.
  apply Qabs_Qle_condition in E. lra.
Qed.

Lemma tempo_range :
  1 # 5 <= inject_Z 60 / inject_Z b <= 3.
Proof.
  assert (H1 : 20 <= inject_Z b)
    by (change 20 with (inject_Z 20); rewrite <- Zle_Qle; lia).
  assert (H2 : inject_Z b <= 300)
    by (change 300 with (inject_Z 300); rewrite <- Zle_Qle; lia).
  change (inject_Z 60) with 60. split.
  - apply Qle_shift_div_l; lra.
  - apply Qle_shift_div_r; lra.
Qed.

Lemma subdivision_inverse :
  0 < / inject_Z s <= 1.
Proof.
  assert (H1 : 1 <= inject_Z s)
    by (change 1 with (inject_Z 1); rewrite <- Zle_Qle; lia).
  split.
  - apply Qinv_lt_0_compat. lra.
  - assert (E : / inject_Z s == 1 / inject_Z s) by (field; lra).
    rewrite E. apply Qle_shift_div_r; lra.
Qed.

Lemma interval_range : 0 < interval b s <= 3.
Proof.
  split; [apply interval_pos; lia |].
  unfold interval, Qdiv at 1.
  pose proof tempo_range. pose proof subdivision_inverse. nra.
Qed.

(** The rounding error is small against the interval. *)
Lemma delta_small : 5 * delta <= interval b s.
Proof.
  pose proof interval_range as (Hi & _).
  destruct (Qlt_le_dec (interval b s) (5 * delta)) as [H | H];
    [exfalso; nra | exact H].
Qed.

(** The increment the code adds to the cursor time. *)
Lemma increment_bounds :
  let ir := rnd (rnd (inject_Z 60 / inject_Z b) / inject_Z s) in
  interval b s - 2 * delta <= ir <= interval b s + 2 * delta.
Proof.
  intro ir. subst ir.
  pose proof tempo_range as Ha. pose proof subdivision_inverse as Hr.
  pose proof interval_range as Hi. pose proof delta_small as Hd.
  set (a := inject_Z 60 / inject_Z b) in *.
  pose proof (rnd_bounds a ltac:(lra)) as Har.
  set (ar := rnd a) in *. clearbody ar.
  change (interval b s) with (a * / inject_Z s) in *.
  change (rnd (ar / inject_Z s)) with (rnd (ar * / inject_Z s)).
  set (r := / inject_Z s) in *. clearbody r.
  assert (Hc : - U <= ar * r <= U) by (split; nra).
  pose proof (rnd_bounds _ Hc) as Hir.
  set (ir := rnd (ar * r)) in *. clearbody ir.
  split; nra.
Qed.

Lemma rounded_scheduleClick_calls (w : world) (ctx : AudioContext)
    (beat subdiv time : num) :
  _audioCtx w = Some ctx ->
  exists evs,
    Rounded._scheduleClick rnd beat subdiv time w
    = Ret (with_log (log w ++ evs) w)
    /\ length (clicks evs) = 1%nat.
Proof.
  intro Hc. unfold Rounded._scheduleClick. rewrite Hc.
  destruct (eq subdiv (int 0)).
  - eexists. split.
    + unfold emit, with_log. simpl. rewrite <- app_assoc. reflexivity.
    + reflexivity.
  - eexists. split.
    + unfold emit, with_log. simpl. reflexivity.
    + reflexivity.
Qed.

Lemma rounded_advanceBeat_spec (w : world) :
  same_setup w (Rounded._advanceBeat rnd w)
  /\ log (Rounded._advanceBeat rnd w) = log w
  /\ _nextBeatTime (Rounded._advanceBeat rnd w)
     = Rounded.add rnd (_nextBeatTime w)
         (Rounded.div rnd (Rounded.div rnd (int 60) (_bpm w))
            (_subdivision w)).
Proof.
  unfold Rounded._advanceBeat, same_setup.
  case_if; simpl; repeat split.
Qed.

Lemma rounded_advance_time (w : world) (t : Q) :
  _bpm w = int b -> _subdivision w = int s -> _nextBeatTime w = Fin t ->
  _nextBeatTime (Rounded._advanceBeat rnd w)
  = Fin (rnd (t + rnd (rnd (inject_Z 60 / inject_Z b) / inject_Z s))).
Proof.
  intros Eb Es Et.
  destruct (rounded_advanceBeat_spec w) as (_ & _ & ->).
  rewrite Eb, Es, Et.
  unfold Rounded.add, Rounded.div, div, int.
  rewrite (inject_Z_nonzero b) by lia. cbn [Rounded.rd].
  rewrite (inject_Z_nonzero s) by lia. reflexivity.
Qed.

(** The loop: with [k] iterations enough at the least advance per
    iteration, it returns within [k], one click per iteration, and never
    with fewer clicks than the greatest advance allows. *)
Lemma rounded_loop_bounded (ctx : AudioContext) (u : Q) (k : nat) :
  u + 5 <= U ->
  forall (w : world) (t : Q),
    _bpm w = int b -> _subdivision w = int s ->
    _audioCtx w = Some ctx -> _nextBeatTime w = Fin t ->
    0 <= t ->
    u - t <= inject_Z (Z.of_nat k) * (interval b s - 3 * delta) ->
    exists w' evs,
      (forall fuel, (k <= fuel)%nat ->
                    Rounded.schedule_loop rnd fuel (Fin u) w = Ret w')
      /\ log w' = log w ++ evs
      /\ (length (clicks evs) <= k)%nat
      /\ u - t
         <= inject_Z (Z.of_nat (length (clicks evs)))
            * (interval b s + 3 * delta).
Proof.
  intro Hu.
  pose proof interval_range as Hi. pose proof delta_small as Hd.
  pose proof increment_bounds as Hinc. cbv zeta in Hinc.
  induction k as [|k IH]; intros w t Eb Es Ec Et Ht Hk.
  - change (inject_Z (Z.of_nat 0)) with 0 in Hk.
    exists w, []. split; [| split; [| split]].
    + intros fuel _. destruct fuel; simpl; rewrite Et;
        assert (E : lt (Fin t) (Fin u) = false)
          by (apply Qlt_bool_false; lra);
        rewrite E; reflexivity.
    + rewrite app_nil_r. reflexivity.
    + simpl. lia.
    + change (inject_Z (Z.of_nat (length (clicks [])))) with 0. lra.
  - destruct (Qlt_le_dec t u) as [Hlt | Hge].
    + destruct (rounded_scheduleClick_calls w ctx (_currentBeat w)
                  (_currentSubdiv w) (_nextBeatTime w) Ec)
        as (evs1 & Hclick & Hlen1).
      set (w1 := with_log (log w ++ evs1) w) in *.
      destruct (rounded_advanceBeat_spec w1)
        as ((E1 & _ & _ & E4 & E5 & _) & Elog & _).
      pose proof (rounded_advance_time w1 t Eb Es Et) as Et2.
      set (ir := rnd (rnd (inject_Z 60 / inject_Z b) / inject_Z s)) in *.
      pose proof (rnd_bounds (t + ir) ltac:(lra)) as Hstep.
      set (t2 := rnd (t + ir)) in *.
      assert (Hk2 : u - t2
                    <= inject_Z (Z.of_nat k) * (interval b s - 3 * delta)).
      { rewrite Nat2Z.inj_succ, <- Z.add_1_r, inject_Z_plus in Hk.
        change (inject_Z 1) with 1 in Hk. lra. }
      destruct (IH (Rounded._advanceBeat rnd w1) t2)
        as (w' & evs & Hrun & Hlog & Hlen & Hlow);
        [rewrite E1; exact Eb | rewrite E4; exact Es | rewrite E5; exact Ec
        | exact Et2 | lra | exact Hk2 |].
      exists w', (evs1 ++ evs). split; [| split; [| split]].
      * intros fuel Hfuel. destruct fuel as [|fuel]; [lia |].
        simpl. rewrite Et.
        assert (E : lt (Fin t) (Fin u) = true) by (apply lt_Fin; exact Hlt).
        rewrite E. rewrite <- Et, Hclick. cbn [bind].
        apply Hrun. lia.
      * rewrite Hlog, Elog. unfold w1. cbn [log with_log].
        rewrite app_assoc. reflexivity.
      * rewrite clicks_app, length_app, Hlen1. lia.
      * rewrite clicks_app, length_app, Hlen1.
        rewrite Nat2Z.inj_add, inject_Z_plus.
        change (inject_Z (Z.of_nat 1)) with 1. lra.
    + exists w, []. split; [| split; [| split]].
      * intros fuel _. destruct fuel; simpl; rewrite Et;
          assert (E : lt (Fin t) (Fin u) = false)
            by (apply Qlt_bool_false; exact Hge);
          rewrite E; reflexivity.
      * rewrite app_nil_r. reflexivity.
      * simpl. lia.
      * change (inject_Z (Z.of_nat (length (clicks [])))) with 0. lra.
Qed.

(** The end of the window as the code computes it. *)
Lemma rounded_until (now : Q) :
  0 <= now -> now + 8 <= U ->
  let until := rnd (now + rnd (1 # 10)) in
  now + (1 # 10) - 2 * delta <= until <= now + (1 # 10) + 2 * delta.
Proof.
  intros H0 H8 until. subst until.
  pose proof interval_range as Hi. pose proof delta_small as Hd.
  pose proof (rnd_bounds (1 # 10) ltac:(lra)) as Hw.
  set (wr := rnd (1 # 10)) in *. clearbody wr.
  pose proof (rnd_bounds (now + wr) ltac:(lra)). lra.
Qed.

End RoundedPass.

(** [k] steps of [p] cover [D] when [k] is the ceiling of [D / p]. *)
Lemma ceiling_cover (D p : Q) :
  0 < p -> D <= inject_Z (Z.of_nat (Z.to_nat (Qceiling (D / p)))) * p.
Proof.
  intro Hp. pose proof (Qle_ceiling (D / p)) as H.
  assert (Hz : (Qceiling (D / p) <= Z.of_nat (Z.to_nat (Qceiling (D / p))))%Z)
    by lia.
  rewrite Zle_Qle in Hz.
  assert (E : D == D / p * p) by (field; lra).
  rewrite E at 1. apply Qmult_le_r; [exact Hp |].
  eapply Qle_trans; eassumption.
Qed.

Lemma ceiling_least (x : Q) (n : nat) :
  x <= inject_Z (Z.of_nat n) -> (Z.to_nat (Qceiling x) <= n)%nat.
Proof.
  intro H. pose proof (Qceiling_resp_le _ _ H) as C.
  rewrite Qceiling_Z in C. lia.
Qed.

(** With a rounding error small against the interval, a window that is
    too long by two errors and steps that are too short by three fit one
    more step than the exact window does, no more. *)
Lemma window_plus_one (delta i D : Q) :
  0 <= delta -> 0 < i ->
  delta * (5 * i + (3 # 10)) <= i * i ->
  D <= (1 # 10) + 2 * delta ->
  D / (i - 3 * delta) <= (1 # 10) / i + 1.
Proof.
  intros Hd Hi Hsmall HD.
  assert (H5 : 5 * delta <= i).
  { destruct (Qlt_le_dec i (5 * delta)) as [H | H];
      [exfalso; nra | exact H]. }
  assert (Eq : (1 # 10) / i * i == 1 # 10) by (field; lra).
  assert (Hq : 0 < (1 # 10) / i).
  { apply Qlt_shift_div_l; [exact Hi | lra]. }
  set (q := (1 # 10) / i) in *. clearbody q.
  assert (Hk : 5 * delta + 3 * delta * q <= i).
  { destruct (Qlt_le_dec i (5 * delta + 3 * delta * q)) as [H | H];
      [exfalso; nra | exact H]. }
  apply Qle_shift_div_r; [nra |]. nra.
Qed.

(* ================================================================== *)
(** ** A subdivision of +Infinity *)
(* ================================================================== *)

(** With a stored subdivision of [+Infinity] the interval is 0: the cursor
    time stays where it is, and the loop, once entered, is not left. *)
Lemma schedule_loop_never_left (b : Z) (ctx : AudioContext) (u : num)
    (fuel : nat) :
  (0 < b)%Z ->
  forall (w : world) (t : Q),
    _bpm w = int b -> _subdivision w = PInf ->
    _audioCtx w = Some ctx -> _nextBeatTime w = Fin t ->
    lt (Fin t) u = true ->
    schedule_loop fuel u w = OutOfFuel.
Proof.
  intro Hb.
  induction fuel as [|fuel IH]; intros w t Eb Es Ec Et Hlt; simpl;
    rewrite Et, Hlt; [reflexivity |].
  rewrite <- Et.
  destruct (scheduleClick_calls w ctx (_currentBeat w) (_currentSubdiv w)
              (_nextBeatTime w) Ec) as (evs & -> & _).
  cbn [bind].
  set (w1 := with_log (log w ++ evs) w).
  destruct (advanceBeat_setup w1) as (E1 & _ & _ & E4 & E5 & _).
  apply (IH (_advanceBeat w1) (t + 0)).
  - rewrite E1. exact Eb.
  - rewrite E4. exact Es.
  - rewrite E5. exact Ec.
  - rewrite advanceBeat_time.
    change (_nextBeatTime w1) with (_nextBeatTime w).
    change (_bpm w1) with (_bpm w).
    change (_subdivision w1) with (_subdivision w).
    rewrite Et, Eb, Es. unfold div, int.
    rewrite (inject_Z_nonzero b Hb). reflexivity.
  - destruct u as [| |y|]; try discriminate; [| reflexivity].
    apply lt_Fin. apply lt_Fin in Hlt. lra.
Qed.

(** [start()] with such a subdivision, a stored tempo and a safety margin
    inside the window never returns. *)
Lemma start_never_returns (b : Z) (fuel : nat) (w : world) :
  (0 < b)%Z -> isRunning w = false ->
  _bpm w = int b -> _subdivision w = PInf ->
  latency_or_default (start_ctx w) < 1 # 10 ->
  start fuel w = OutOfFuel.
Proof.
  intros Hb Hstop Eb Es Hlat.
  rewrite start_eq by exact Hstop.
  destruct (before_first_pass_spec w)
    as ((E1 & _ & _ & E4 & _) & Hctx & _ & _ & Ht & _).
  unfold _schedule. rewrite Hctx.
  rewrite (schedule_loop_never_left b (start_ctx w) _ fuel Hb
             (before_first_pass w) _ (Logic.eq_trans E1 Eb)
             (Logic.eq_trans E4 Es) Hctx Ht).
  - reflexivity.
  - apply lt_Fin. lra.
Qed.

(* ================================================================== *)
(** ** Theorems *)
(* ================================================================== *)

(** C1. Beat-index sequencing.  From a fresh [start()] of a stopped
    metronome with meter [M >= 1] and subdivision [S >= 1] (and a stored
    tempo), followed by scheduling passes at any clock readings: the run
    returns, the [k]-th click since the start carries the pair
    [(floor(k / S) mod M, k mod S)], and the beat callback is scheduled for
    exactly the clicks whose subdivision index is 0, with their beat
    index.  Every index [k] is reached by some run. *)
Theorem beat_index_sequencing (w0 : world) (b M S : Z) :
  isRunning w0 = false ->
  _bpm w0 = int b -> (20 <= b <= 300)%Z ->
  _beatsPerMeasure w0 = int M -> (1 <= M)%Z ->
  _subdivision w0 = int S -> (1 <= S)%Z ->
  (forall nows : list Q,
      exists fuel0,
        forall fuel, (fuel0 <= fuel)%nat ->
          exists w,
            session fuel nows w0 = Ret w
            /\ (forall k p,
                   nth_error (clicks (since w0 w)) k = Some p ->
                   p = cursor_at M S (Z.of_nat k))
            /\ timeouts (since w0 w)
               = map fst (filter (fun p => eq (snd p) (int 0))
                            (clicks (since w0 w))))
  /\ (forall k : nat,
        exists now fuel w,
          session fuel [now] w0 = Ret w
          /\ nth_error (clicks (since w0 w)) k
             = Some (cursor_at M S (Z.of_nat k))).
Proof.
  intros Hstop Ebpm Hb EM HM ES HS.
  assert (Hseq : forall fuel nows w,
             session fuel nows w0 = Ret w ->
             forall k p,
               nth_error (clicks (since w0 w)) k = Some p ->
               p = cursor_at M S (Z.of_nat k)).
  { intros fuel nows w Hrun k p Hk.
    destruct (session_sequencing M S ltac:(lia) ltac:(lia) fuel nows w0 w
                Hstop EM ES Hrun)
      as (_ & _ & evs & Hlog & Hclicks & _).
    rewrite (since_app w0 w evs Hlog) in Hk. rewrite Hclicks in Hk.
    apply (nth_error_map_seq _ _ _ _ Hk). }
  split.
  - intro nows.
    destruct (session_total b S nows w0 Hstop ltac:(lia) ltac:(lia) Ebpm ES)
      as (fuel0 & Htotal).
    exists fuel0. intros fuel Hfuel.
    destruct (Htotal fuel Hfuel) as (w & Hrun).
    exists w. split; [exact Hrun |]. split; [exact (Hseq fuel nows w Hrun) |].
    destruct (session_sequencing M S ltac:(lia) ltac:(lia) fuel nows w0 w
                Hstop EM ES Hrun)
      as (_ & _ & evs & Hlog & _ & Htimeouts & _).
    rewrite (since_app w0 w evs Hlog). exact Htimeouts.
  - intro k.
    destruct (session_reaches b S k w0 Hstop ltac:(lia) ltac:(lia) Ebpm ES)
      as (now & fuel & w & Hrun & Hlen).
    exists now, fuel, w. split; [exact Hrun |].
    destruct (nth_error (clicks (since w0 w)) k) as [p|] eqn:Ek.
    + rewrite (Hseq fuel [now] w Hrun k p Ek). reflexivity.
    + apply nth_error_None in Ek. lia.
Qed.

Lemma beat_index_sequencing_witness :
  (forall nows : list Q,
      exists fuel0,
        forall fuel, (fuel0 <= fuel)%nat ->
          exists w,
            session fuel nows waltz = Ret w
            /\ (forall k p,
                   nth_error (clicks (since waltz w)) k = Some p ->
                   p = cursor_at 3 2 (Z.of_nat k))
            /\ timeouts (since waltz w)
               = map fst (filter (fun p => eq (snd p) (int 0))
                            (clicks (since waltz w))))
  /\ (forall k : nat,
        exists now fuel w,
          session fuel [now] waltz = Ret w
          /\ nth_error (clicks (since waltz w)) k
             = Some (cursor_at 3 2 (Z.of_nat k))).
Proof.
  apply (beat_index_sequencing waltz 120 3 2); try reflexivity; lia.
Defined.

(* ------------------------------------------------------------------ *)

(** C2. Recovery re-anchor, as the code has it.  When the visibility
    handler runs for a visible page while the metronome is running, the
    cursor time afterwards is the clock's current time plus the safety
    margin, which is the reported latency, or 0.01 when none or a latency
    of 0 is reported; that is later than the clock's reading; and whatever
    the clock reads at the passes that follow, they return and none of
    their clicks starts before that anchor. *)
Theorem recovery_reanchors (w : world) (ctx : AudioContext) (b s : Z)
        (nows : list Q) :
  _audioCtx w = Some ctx -> isRunning w = true ->
  (forall l, baseLatency ctx = Some l -> 0 <= l) ->
  _bpm w = int b -> (20 <= b <= 300)%Z ->
  _subdivision w = int s -> (1 <= s)%Z ->
  let w1 := visibilitychange_listener true w in
  let now := currentTime ctx in
  let anchor := now + latency_or_default ctx in
  _nextBeatTime w1 = Fin anchor
  /\ now < anchor
  /\ (baseLatency ctx = None -> latency_or_default ctx = 1 # 100)
  /\ (forall l, baseLatency ctx = Some l ->
                latency_or_default ctx = if Qeq_bool l 0 then 1 # 100 else l)
  /\ exists fuel0,
       forall fuel, (fuel0 <= fuel)%nat ->
         exists w',
           ticks fuel nows w1 = Ret w'
           /\ Forall (not_before anchor) (tones (since w1 w')).
Proof.
  intros Hctx Hrun Hlat Ebpm Hb Esub Hs w1 now anchor.
  pose proof (latency_or_default_pos ctx Hlat) as Hpos.
  destruct (visibilitychange_reanchors w ctx Hctx Hrun) as (Ht & Hsame).
  assert (Hr : ready b s w1).
  { apply (ready_same_setup b s w _ Hsame).
    unfold ready. repeat split; try lia; eauto. }
  split; [exact Ht |]. split; [subst anchor now; lra |].
  split; [intro E; unfold latency_or_default; rewrite E; reflexivity |].
  split; [intros l E; unfold latency_or_default; rewrite E; reflexivity |].
  apply (ticks_not_before b s nows w1 anchor Hr Ht).
Qed.

Lemma recovery_reanchors_witness :
  let w1 := visibilitychange_listener true shown_again in
  _nextBeatTime w1 = Fin (12 + (5 # 1000))
  /\ exists fuel0,
       forall fuel, (fuel0 <= fuel)%nat ->
         exists w',
           ticks fuel [12; 25 # 2] w1 = Ret w'
           /\ Forall (not_before (12 + (5 # 1000))) (tones (since w1 w')).
Proof.
  assert (Hlat : forall l, baseLatency shown_again_ctx = Some l -> 0 <= l).
  { intros l E. injection E as <-. unfold Qle. simpl. lia. }
  assert (Hctx : _audioCtx shown_again = Some shown_again_ctx)
    by (vm_compute; reflexivity).
  assert (Hrun : isRunning shown_again = true) by (vm_compute; reflexivity).
  assert (Eb : _bpm shown_again = int 120) by (vm_compute; reflexivity).
  assert (Es : _subdivision shown_again = int 1)
    by (vm_compute; reflexivity).
  destruct (recovery_reanchors shown_again shown_again_ctx 120 1
              [12; 25 # 2] Hctx Hrun Hlat Eb ltac:(lia) Es ltac:(lia))
    as (Ht & _ & _ & _ & Hticks).
  split; [exact Ht | exact Hticks].
Defined.

(** C2 as worded fails when the audio context reports a latency of 0: the
    margin is then 0.01, not the reported latency. *)
Lemma reanchor_ignores_zero_latency :
  _audioCtx zero_latency_late = Some (mkCtx running 7 (Some 0) false)
  /\ isRunning zero_latency_late = true
  /\ _nextBeatTime (visibilitychange_listener true zero_latency_late)
     = Fin (7 + (1 # 100))
  /\ ~ (7 + (1 # 100) == 7 + 0).
Proof.
  split; [vm_compute; reflexivity |].
  split; [vm_compute; reflexivity |].
  split; [| intro H; discriminate H].
  assert (Hctx : _audioCtx zero_latency_late
                 = Some (mkCtx running 7 (Some 0) false))
    by (vm_compute; reflexivity).
  assert (Hrun : isRunning zero_latency_late = true)
    by (vm_compute; reflexivity).
  rewrite (proj1 (visibilitychange_reanchors _ _ Hctx Hrun)).
  reflexivity.
Qed.

(* ------------------------------------------------------------------ *)

(** C3. Accent placement, as the code has it.  Every click of a session is
    pitched 1500 Hz at beat 0, subdivision 0, 1000 Hz at any other beat
    with subdivision 0, and 600 Hz at a subdivision index other than 0,
    where its gain is the larger of volume x 0.45 and the floor 0.0001:
    volume x 0.45 itself as soon as that reaches the floor. *)
Theorem accent_placement (fuel : nat) (nows : list Q) (w w' : world)
        (v : Q) (b s : num) (tn : tone) :
  isRunning w = false -> _volume w = Fin v ->
  session fuel nows w = Ret w' ->
  In (Click b s tn) (since w w') ->
  (eq s (int 0) = true ->
   frequency tn = if eq b (int 0) then int 1500 else int 1000)
  /\ (eq s (int 0) = false ->
      frequency tn = int 600
      /\ gain tn = max (Fin (v * (45 # 100))) (Fin (1 # 10000))
      /\ (1 # 10000 <= v * (45 # 100) ->
          exists g, gain tn = Fin g /\ g == v * (45 # 100))
      /\ (v * (45 # 100) < 1 # 10000 -> gain tn = Fin (1 # 10000))).
Proof.
  intros Hstop Hv Hrun Hin.
  destruct (ruled_session fuel nows w w' Hstop Hrun)
    as (_ & evs & Hlog & Hall).
  rewrite (since_app w w' evs Hlog) in Hin.
  rewrite Forall_forall in Hall. specialize (Hall _ Hin).
  destruct Hall as (H1 & H2 & _ & H4). split.
  - intro Es. destruct (eq b (int 0)) eqn:Eb; auto.
  - intro Es. destruct (H4 Es) as (Hf & Hg). rewrite Hv in Hg.
    split; [exact Hf |]. split; [exact Hg |].
    rewrite Hg. unfold mul, max.
    destruct (Qle_bool (v * (45 # 100)) (1 # 10000)) eqn:E.
    + apply Qle_bool_iff in E. split.
      * intro Hge. exists (1 # 10000). split; [reflexivity |].
        apply Qle_antisym; assumption.
      * reflexivity.
    + split.
      * intros _. exists (v * (45 # 100)). split; reflexivity.
      * intro Hlt. exfalso.
        assert (Qle_bool (v * (45 # 100)) (1 # 10000) = true)
          by (apply Qle_bool_iff, Qlt_le_weak, Hlt).
        congruence.
Qed.

Lemma accent_placement_witness :
  exists w' tn,
    session 4 [3 # 10] waltz = Ret w'
    /\ In (Click (int 0) (int 1) tn) (since waltz w')
    /\ frequency tn = int 600
    /\ gain tn = max (Fin ((8 # 10) * (45 # 100))) (Fin (1 # 10000)).
Proof.
  eexists. eexists. split; [vm_compute; reflexivity |].
  match goal with |- In ?c ?l /\ _ => eassert (Hin : In c l) end.
  { vm_compute. do 4 right. left. reflexivity. }
  split; [exact Hin |].
  destruct (accent_placement 4 [3 # 10] waltz _ (8 # 10) _ _ _
              eq_refl eq_refl ltac:(vm_compute; reflexivity) Hin)
    as (_ & H).
  destruct (H eq_refl) as (Hf & Hg & _).
  split; [exact Hf | exact Hg].
Defined.

(** C3 as worded fails on a muted metronome: a subdivision click then plays
    at gain 0.0001, not at 0 x 0.45. *)
Lemma muted_subdivision_click_gain :
  exists w' b s tn,
    session 4 [3 # 10] muted = Ret w'
    /\ _volume muted = Fin 0
    /\ In (Click b s tn) (since muted w')
    /\ eq s (int 0) = false
    /\ gain tn = Fin (1 # 10000)
    /\ ~ (1 # 10000 == 0 * (45 # 100)).
Proof.
  eexists. eexists. eexists. eexists.
  split; [vm_compute; reflexivity |].
  split; [reflexivity |].
  split; [vm_compute; do 4 right; left; reflexivity |].
  split; [reflexivity |]. split; [reflexivity |].
  intro H. discriminate H.
Qed.

(* ------------------------------------------------------------------ *)

(** C4. Size of a pass, as the code has it.  The pass is taken in rounded
    arithmetic: [rnd] is any rounding whose error is at most [delta] up to
    magnitude [U], as that of doubles is for [delta = U * 2^-53].  With a
    stored tempo in [20, 300], a stored finite subdivision [>= 1] and a
    rounding error small against the subdivision interval [i], a
    scheduling pass returns; from a cursor time [t] it makes at most
    ceil((until - t) / (i - 3 delta)) clicks and at least
    (until - t) / (i + 3 delta), where [until], the end of the window as
    the code computes it, is within two errors of the clock time plus
    0.1; that is at most ceil(0.1 / i) + 1 when the cursor is not behind
    the clock at the start of the pass.  In exact arithmetic the clicks
    are ceil((until - t) / i), at most ceil(0.1 / i) in that case. *)
Theorem pass_terminates_bounded (rnd : Q -> Q) (U delta : Q) (w : world)
        (ctx : AudioContext) (b s : Z) (t : Q) :
  (forall x, Qabs x <= U -> Qabs (rnd x - x) <= delta) ->
  _audioCtx w = Some ctx ->
  _bpm w = int b -> (20 <= b <= 300)%Z ->
  _subdivision w = int s -> (1 <= s)%Z ->
  _nextBeatTime w = Fin t -> 0 <= t ->
  0 <= currentTime ctx -> currentTime ctx + 8 <= U ->
  delta * (5 * interval b s + (3 # 10)) <= interval b s * interval b s ->
  let i := interval b s in
  let until := rnd (currentTime ctx + rnd (1 # 10)) in
  let most := Z.to_nat (Qceiling ((until - t) / (i - 3 * delta))) in
  exists w' evs,
    (forall fuel, (most <= fuel)%nat -> Rounded._schedule rnd fuel w = Ret w')
    /\ log w' = log w ++ evs
    /\ (length (clicks evs) <= most)%nat
    /\ (until - t) / (i + 3 * delta)
       <= inject_Z (Z.of_nat (length (clicks evs)))
    /\ currentTime ctx + (1 # 10) - 2 * delta <= until
       <= currentTime ctx + (1 # 10) + 2 * delta
    /\ (currentTime ctx <= t ->
        (length (clicks evs) <= window_bound b s + 1)%nat)
    /\ (delta == 0 ->
        length (clicks evs) = pass_length until t i
        /\ (currentTime ctx <= t ->
            (length (clicks evs) <= window_bound b s)%nat)).
Proof.
  intros Hrnd Hctx Eb Hb Es Hs Et Ht Hnow HU Hsmall i until most.
  assert (HU8 : 8 <= U) by lra.
  assert (Hd : 0 <= delta).
  { eapply Qle_trans; [apply (Qabs_nonneg (rnd 0 - 0)) |].
    apply Hrnd. change (Qabs 0) with 0. lra. }
  pose proof (interval_range b s Hb Hs) as Hi. fold i in Hi.
  pose proof (delta_small delta b s Hb Hs Hsmall) as H5. fold i in H5.
  pose proof (rounded_until rnd U delta Hrnd HU8 b s Hb Hs Hsmall
                (currentTime ctx) Hnow HU) as Hu.
  cbv zeta in Hu. fold until in Hu.
  assert (Hp : 0 < i - 3 * delta) by lra.
  assert (HP : 0 < i + 3 * delta) by lra.
  pose proof (ceiling_cover (until - t) (i - 3 * delta) Hp) as Hcover.
  fold most in Hcover.
  destruct (rounded_loop_bounded rnd U delta Hrnd HU8 b s Hb Hs Hsmall
              ctx until most ltac:(lra) w t Eb Es Hctx Et Ht Hcover)
    as (w' & evs & Hrun & Hlog & Hlen & Hlow).
  fold i in Hlow.
  assert (Hlow' : (until - t) / (i + 3 * delta)
                  <= inject_Z (Z.of_nat (length (clicks evs))))
    by (apply Qle_shift_div_r; [exact HP | exact Hlow]).
  exists w', evs.
  split; [| split; [exact Hlog | split; [exact Hlen | split;
    [exact Hlow' | split; [exact Hu | split]]]]].
  - intros fuel Hfuel. unfold Rounded._schedule. rewrite Hctx.
    apply Hrun, Hfuel.
  - intro Hbehind.
    assert (H : (until - t) / (i - 3 * delta) <= (1 # 10) / i + 1)
      by (apply window_plus_one;
          [exact Hd | apply Hi | exact Hsmall | lra]).
    pose proof (Qceiling_resp_le _ _ H) as C.
    change ((1 # 10) / i + 1) with ((1 # 10) / i + inject_Z 1) in C.
    assert (E : Qceiling ((1 # 10) / i + inject_Z 1)
                = (Qceiling ((1 # 10) / i) + 1)%Z).
    { pose proof (Qceiling_pred ((1 # 10) / i + inject_Z 1)) as Hc.
      assert (E1 : (1 # 10) / i + inject_Z 1 - 1 == (1 # 10) / i)
        by (change (inject_Z 1) with 1; ring).
      rewrite (Qceiling_comp _ _ E1) in Hc. lia. }
    rewrite E in C. unfold window_bound. fold i.
    assert (H0 : (0 <= Qceiling ((1 # 10) / i))%Z).
    { assert (H1 : 0 < (1 # 10) / i)
        by (apply Qlt_shift_div_l; lra).
      pose proof (Qceiling_pos _ H1). lia. }
    subst most. lia.
  - intro E0.
    assert (Ep : i - 3 * delta == i) by (rewrite E0; ring).
    assert (EP : i + 3 * delta == i) by (rewrite E0; ring).
    assert (Em : most = pass_length until t i).
    { unfold most, pass_length. f_equal. apply Qceiling_comp.
      rewrite Ep. reflexivity. }
    assert (Hge : (pass_length until t i <= length (clicks evs))%nat).
    { unfold pass_length. apply ceiling_least.
      rewrite <- EP. exact Hlow'. }
    split; [lia |].
    intro Hbehind. unfold window_bound. fold i.
    assert (H : (until - t) / i <= (1 # 10) / i).
    { apply Qle_shift_div_l; [lra |].
      assert (E : (until - t) / i * i == until - t) by (field; lra).
      rewrite E. rewrite E0 in Hu. lra. }
    pose proof (Qceiling_resp_le _ _ H) as C.
    rewrite Em in Hlen. unfold pass_length in Hlen. lia.
Qed.

Lemma pass_terminates_bounded_witness :
  exists w' evs,
    Rounded._schedule Rounded.binary64 3 brisk = Ret w'
    /\ log w' = log brisk ++ evs
    /\ (length (clicks evs) <= window_bound 300 4 + 1)%nat.
Proof.
  assert (Hrnd : forall x, Qabs x <= 1048576 ->
                           Qabs (Rounded.binary64 x - x)
                           <= double_error 1048576)
    by (intros x Hx; apply binary64_err, Hx).
  assert (Hb : (20 <= 300 <= 300)%Z) by lia.
  assert (Hs : (1 <= 4)%Z) by lia.
  assert (H0 : 0 <= 2) by (apply Qle_bool_iff; vm_compute; reflexivity).
  assert (Hnow : 0 <= currentTime brisk_ctx)
    by (apply Qle_bool_iff; vm_compute; reflexivity).
  assert (H8 : currentTime brisk_ctx + 8 <= 1048576)
    by (apply Qle_bool_iff; vm_compute; reflexivity).
  assert (Hsmall : double_error 1048576 * (5 * interval 300 4 + (3 # 10))
                   <= interval 300 4 * interval 300 4)
    by (apply Qle_bool_iff; vm_compute; reflexivity).
  assert (Eb : _bpm brisk = int 300) by (vm_compute; reflexivity).
  assert (Es : _subdivision brisk = int 4) by (vm_compute; reflexivity).
  destruct (pass_terminates_bounded Rounded.binary64 1048576
              (double_error 1048576) brisk brisk_ctx 300 4 2
              Hrnd Logic.eq_refl Eb Hb Es Hs Logic.eq_refl H0 Hnow H8
              Hsmall)
    as (w' & evs & Hrun & Hlog & Hlen & _ & _ & Hwin & _).
  match type of Hlen with
  | (_ <= ?m)%nat =>
      assert (Hm : m = 3%nat) by (vm_compute; reflexivity);
      rewrite Hm in Hrun
  end.
  exists w', evs.
  split; [apply Hrun; lia |]. split; [exact Hlog |].
  apply Hwin. apply Qle_bool_iff. vm_compute. reflexivity.
Defined.

(** The rounded pass does what doubles do where the exact pass does not:
    with the cursor equal to the clock at 300 bpm and four clicks per
    beat it makes three clicks, one more than ceil(0.1 / 0.05); with the
    cursor at 0.005 + 0.5 and the clock at 0.405 it makes none, the
    rounded sums being equal. *)
Lemma rounded_pass_at_the_window_edge :
  (exists w', Rounded._schedule Rounded.binary64 3 brisk = Ret w'
              /\ length (clicks (since brisk w')) = 3%nat)
  /\ (exists w', _schedule 3 brisk = Ret w'
                 /\ length (clicks (since brisk w')) = 2%nat)
  /\ window_bound 300 4 = 2%nat
  /\ Rounded._schedule Rounded.binary64 0 on_the_edge = Ret on_the_edge
  /\ (exists w', _schedule 1 on_the_edge = Ret w'
                 /\ length (clicks (since on_the_edge w')) = 1%nat).
Proof.
  split; [| split; [| split; [| split]]].
  - assert (E : exists w', Rounded._schedule Rounded.binary64 3 brisk
                           = Ret w')
      by (vm_compute; eexists; reflexivity).
    destruct E as (w' & E). exists w'. split; [exact E |].
    revert E. vm_compute. intro E. injection E as <-. reflexivity.
  - assert (E : exists w', _schedule 3 brisk = Ret w')
      by (vm_compute; eexists; reflexivity).
    destruct E as (w' & E). exists w'. split; [exact E |].
    revert E. vm_compute. intro E. injection E as <-. reflexivity.
  - vm_compute. reflexivity.
  - vm_compute. reflexivity.
  - assert (E : exists w', _schedule 1 on_the_edge = Ret w')
      by (vm_compute; eexists; reflexivity).
    destruct E as (w' & E). exists w'. split; [exact E |].
    revert E. vm_compute. intro E. injection E as <-. reflexivity.
Qed.

(** C4 as worded fails when the cursor has fallen behind the clock: the
    pass of a timer that fires 2 s late at 120 bpm schedules four clicks,
    where ceil(0.1 / 0.5) is 1. *)
Lemma late_pass_exceeds_window :
  ~ (forall (fuel : nat) (w w' : world) (b s : Z),
        _bpm w = int b -> (20 <= b <= 300)%Z ->
        _subdivision w = int s -> (1 <= s)%Z ->
        _schedule fuel w = Ret w' ->
        (length (clicks (since w w')) <= window_bound b s)%nat).
Proof.
  intro H.
  assert (E : _schedule 10 overdue = Ret caught_up)
    by (vm_compute; reflexivity).
  assert (E1 : _bpm overdue = int 120) by (vm_compute; reflexivity).
  assert (E2 : _subdivision overdue = int 1) by (vm_compute; reflexivity).
  pose proof (H 10%nat overdue caught_up 120%Z 1%Z
                E1 ltac:(lia) E2 ltac:(lia) E) as H1.
  assert (Hlen : length (clicks (since overdue caught_up)) = 4%nat)
    by (vm_compute; reflexivity).
  assert (Hwin : window_bound 120 1 = 1%nat) by (vm_compute; reflexivity).
  rewrite Hlen, Hwin in H1. lia.
Qed.

(* ------------------------------------------------------------------ *)

(** C5. Idempotence.  [start()] followed by [start()] ends as [start()]
    alone does, in the same world: same metronome state, same run state,
    same calls made; once [start()] has returned the metronome is running
    and any further [start()] returns at once; with a stored tempo and
    subdivision [start()] does return.  [stop()] after [stop()] changes
    nothing, and the metronome is stopped. *)
Theorem start_stop_idempotent (w : world) :
  (forall fuel fuel',
      (w1 <- start fuel w ;; start fuel' w1) = start fuel w)
  /\ (forall fuel w1,
        start fuel w = Ret w1 ->
        isRunning w1 = true /\ forall fuel', start fuel' w1 = Ret w1)
  /\ (forall b s,
        _bpm w = int b -> (20 <= b <= 300)%Z ->
        _subdivision w = int s -> (1 <= s)%Z ->
        exists fuel0,
          forall fuel, (fuel0 <= fuel)%nat -> exists w1, start fuel w = Ret w1)
  /\ stop (stop w) = stop w
  /\ isRunning (stop w) = false.
Proof.
  split; [| split; [| split; [| split]]].
  - intros fuel fuel'. destruct (start fuel w) as [w1| |] eqn:E;
      try reflexivity.
    simpl. apply start_noop. apply (start_running fuel w w1 E).
  - intros fuel w1 E. pose proof (start_running fuel w w1 E) as Hrun.
    split; [exact Hrun |]. intro fuel'. apply start_noop, Hrun.
  - intros b s Ebpm Hb Esub Hs.
    apply (start_total b s w); try assumption; lia.
  - pose proof (stop_stopped w) as Hs. unfold stop at 1.
    unfold isRunning in Hs. destruct (_intervalId (stop w)); [discriminate |].
    reflexivity.
  - apply stop_stopped.
Qed.

Lemma start_stop_idempotent_witness :
  (w1 <- start 4 fresh ;; start 7 w1) = start 4 fresh
  /\ (isRunning playing = true /\ forall fuel', start fuel' playing = Ret playing)
  /\ (exists fuel0,
        forall fuel, (fuel0 <= fuel)%nat ->
          exists w1, start fuel fresh = Ret w1)
  /\ stop (stop fresh) = stop fresh.
Proof.
  destruct (start_stop_idempotent fresh) as (H1 & H2 & H3 & H4 & _).
  split; [exact (H1 4%nat 7%nat) |].
  split; [apply (H2 4%nat playing); vm_compute; reflexivity |].
  split; [apply (H3 120%Z 1%Z); try reflexivity; lia |].
  exact H4.
Defined.

(* ------------------------------------------------------------------ *)

(** C6. The subdivision setter, as the code has it: it stores 1 for every
    input below 1 (negative, zero, or a fraction between 0 and 1, and for
    -Infinity) and floor(n) for every input from 1 up (and for
    +Infinity). *)
Theorem subdivision_setter_floor_min1 (q : Q) (w : world) :
  (q < 1 -> _subdivision (set_subdivision (Fin q) w) = int 1)
  /\ (1 <= q -> _subdivision (set_subdivision (Fin q) w) = int (Qfloor q))
  /\ _subdivision (set_subdivision NInf w) = int 1
  /\ _subdivision (set_subdivision PInf w) = floor PInf.
Proof.
  unfold set_subdivision. cbn [_subdivision with_currentSubdiv
    with_subdivision floor max int].
  split; [| split; [| split; reflexivity]].
  - intro H.
    assert (Hf : (Qfloor q < 1)%Z).
    { rewrite Zlt_Qlt. eapply Qle_lt_trans; [apply Qfloor_le | exact H]. }
    destruct (Qle_bool (inject_Z 1) (inject_Z (Qfloor q))) eqn:E;
      [| reflexivity].
    apply Qle_bool_iff in E. rewrite <- Zle_Qle in E. lia.
  - intro H.
    assert (Hf : (1 <= Qfloor q)%Z).
    { change 1%Z with (Qfloor 1). apply Qfloor_resp_le, H. }
    destruct (Qle_bool (inject_Z 1) (inject_Z (Qfloor q))) eqn:E;
      [reflexivity |].
    assert (Qle_bool (inject_Z 1) (inject_Z (Qfloor q)) = true)
      by (apply Qle_bool_iff; rewrite <- Zle_Qle; exact Hf).
    congruence.
Qed.

Lemma subdivision_setter_floor_min1_witness :
  _subdivision (set_subdivision (Fin (1 # 2)) fresh) = int 1
  /\ _subdivision (set_subdivision (Fin (7 # 2)) fresh) = int 3.
Proof.
  split.
  - exact (proj1 (subdivision_setter_floor_min1 (1 # 2) fresh) eq_refl).
  - refine (proj1 (proj2 (subdivision_setter_floor_min1 (7 # 2) fresh)) _).
    unfold Qle. simpl. lia.
Defined.

(** C6 as worded fails between 0 and 1: for the input 0.5 the setter
    stores 1, and floor(0.5) is 0. *)
Lemma subdivision_setter_half :
  0 < 1 # 2
  /\ _subdivision (set_subdivision (Fin (1 # 2)) fresh) = int 1
  /\ int 1 <> int (Qfloor (1 # 2)).
Proof.
  split; [reflexivity |]. split; [reflexivity |]. intro H. discriminate H.
Qed.

(* ------------------------------------------------------------------ *)

(** C7, at the failing input.  [beatsPerMeasure = 0] is stored as it is,
    not normalized to a positive integer; the beat index of the run that
    follows is NaN from the second click on. *)
Theorem meter_setter_stores_zero :
  _beatsPerMeasure (set_beatsPerMeasure (int 0) fresh) = int 0
  /\ ~ positive_integer (_beatsPerMeasure (set_beatsPerMeasure (int 0) fresh))
  /\ exists w,
       session 4 [1] (set_beatsPerMeasure (int 0) fresh) = Ret w
       /\ clicks (log w) = [(int 0, int 0); (NaN, int 0); (NaN, int 0)]
       /\ _currentBeat w = NaN.
Proof.
  split; [apply set_beatsPerMeasure_stores |].
  split; [apply zero_not_positive_integer |].
  eexists. split; [vm_compute; reflexivity |].
  split; vm_compute; reflexivity.
Qed.

(* ------------------------------------------------------------------ *)

(** C8, at the failing input.  [start()] on the fresh metronome goes from
    Stopped to Running and [stop()] goes back, and the calls they make are
    exactly these: no [onStart], no [onStop]. *)
Theorem start_stop_skip_hooks :
  isRunning fresh = false /\ isRunning playing = true
  /\ start 4 fresh = Ret playing
  /\ since fresh playing
     = [NewAudioContext;
        Click (int 0) (int 0)
          (mkTone (int 1500) (Fin (8 # 10)) (Fin (0 + (5 # 1000)))
             (Fin (0 + (5 # 1000) + (3 # 100))));
        SetTimeout (int 0)
          (Fin ((0 + (5 # 1000) + - 0) * inject_Z 1000));
        SetInterval 1 25]
  /\ ~ In (Invoke onStart) (since fresh playing)
  /\ isRunning (stop playing) = false
  /\ since playing (stop playing) = [ClearInterval 1]
  /\ ~ In (Invoke onStop) (since playing (stop playing)).
Proof.
  assert (E : start 4 fresh = Ret playing) by (vm_compute; reflexivity).
  split; [reflexivity |]. split; [vm_compute; reflexivity |].
  split; [exact E |]. split; [vm_compute; reflexivity |].
  split; [apply (start_invokes_nothing 4 fresh playing onStart E) |].
  split; [apply stop_stopped |]. split; [vm_compute; reflexivity |].
  apply stop_invokes_nothing.
Qed.

(* ------------------------------------------------------------------ *)

(** C9. The running flag when [start()] does not return.  The subdivision
    setter bounds its input from below only and stores [+Infinity]; the
    metronome with that subdivision is a page the code can reach, and
    stopped.  On it the subdivision interval is 0, the cursor time never
    passes the end of the window, and [start()] does not return, whatever
    number of iterations it is allowed: the metronome is never running. *)
Theorem start_hangs_on_infinite_subdivision :
  let w := set_subdivision PInf fresh in
  reachable w
  /\ _subdivision w = PInf
  /\ isRunning w = false
  /\ forall fuel, start fuel w = OutOfFuel.
Proof.
  intro w. split; [| split; [| split]].
  - exact (reachable_step fresh w (reachable_new sample_ctx)
             (step_set_subdivision PInf fresh)).
  - reflexivity.
  - reflexivity.
  - intro fuel.
    apply (start_never_returns 120 fuel w);
      [lia | reflexivity | reflexivity | reflexivity |].
    apply Qlt_bool_iff. vm_compute. reflexivity.
Qed.

(* ------------------------------------------------------------------ *)



(* ------------------------------------------------------------------ *)

(** C10. The tempo setter and the cursor.  For every input the setter
    leaves the beat index, the subdivision index and the next-event time as
    they were; the new tempo shows only in the increment the next
    [_advanceBeat] adds to the time, the indices it computes being those it
    would have computed without the change. *)
Theorem tempo_setter_keeps_cursor (v : num) (w : world) :
  cursor (set_bpm v w) = cursor w
  /\ _currentBeat (_advanceBeat (set_bpm v w)) = _currentBeat (_advanceBeat w)
  /\ _currentSubdiv (_advanceBeat (set_bpm v w))
     = _currentSubdiv (_advanceBeat w)
  /\ _nextBeatTime (_advanceBeat (set_bpm v w))
     = add (_nextBeatTime w)
         (div (div (int 60) (_bpm (set_bpm v w))) (_subdivision w)).
Proof.
  split; [reflexivity |].
  unfold _advanceBeat, set_bpm.
  cbn [_currentSubdiv _subdivision _currentBeat _beatsPerMeasure
       _nextBeatTime _bpm with_bpm with_nextBeatTime with_currentSubdiv].
  destruct (eq (rem (add (_currentSubdiv w) (int 1)) (_subdivision w))
              (int 0)); repeat split.
Qed.

(* ================================================================== *)
(** ** More number facts *)
(* ================================================================== *)

Lemma Qle_bool_inject_Z (a b : Z) :
  Qle_bool (inject_Z a) (inject_Z b) = (a <=? b)%Z.
Proof. unfold Qle_bool, inject_Z. simpl. rewrite !Z.mul_1_r. reflexivity. Qed.

Lemma max_int (a b : Z) : max (int a) (int b) = int (Z.max a b).
Proof.
  unfold max, int. rewrite Qle_bool_inject_Z.
  destruct (Z.leb_spec a b); f_equal; f_equal; lia.
Qed.

Lemma min_int (a b : Z) : min (int a) (int b) = int (Z.min a b).
Proof.
  unfold min, int. rewrite Qle_bool_inject_Z.
  destruct (Z.leb_spec a b); f_equal; f_equal; lia.
Qed.

Lemma Qfloor_half (z : Z) : Qfloor (inject_Z z + (1 # 2)) = z.
Proof.
  unfold Qfloor, Qplus, inject_Z.
  cbn -[Z.mul Z.add Z.div]. rewrite Z.mul_1_r.
  symmetry. apply (Z.div_unique _ _ _ 1); lia.
Qed.

(** [Math.round] and [Math.floor] leave an integer alone. *)
Lemma round_int (z : Z) : round (int z) = int z.
Proof. unfold round, int. rewrite Qfloor_half. reflexivity. Qed.

Lemma floor_int (z : Z) : floor (int z) = int z.
Proof. unfold floor, int. rewrite Qfloor_Z. reflexivity. Qed.

(** The tempo the setter stores for a finite input. *)
Lemma set_bpm_Fin (q : Q) (w : world) :
  _bpm (set_bpm (Fin q) w)
  = int (Z.min 300 (Z.max 20 (Qfloor (q + (1 # 2))))).
Proof.
  unfold set_bpm. cbn [_bpm with_bpm round].
  change (Fin (inject_Z ?z)) with (int z).
  rewrite max_int, min_int. reflexivity.
Qed.

(** The subdivision the setter stores for a finite input. *)
Lemma set_subdivision_Fin (q : Q) (w : world) :
  _subdivision (set_subdivision (Fin q) w) = int (Z.max 1 (Qfloor q)).
Proof.
  unfold set_subdivision. cbn [_subdivision with_currentSubdiv
    with_subdivision floor].
  change (Fin (inject_Z ?z)) with (int z).
  rewrite max_int. reflexivity.
Qed.

(* ================================================================== *)
(** ** Rules for passes and for what happens to a page *)
(* ================================================================== *)

Lemma delays_app (l1 l2 : list call) : delays (l1 ++ l2) = delays l1 ++ delays l2.
Proof.
  induction l1 as [|c l1 IH]; simpl; [reflexivity |].
  destruct c; simpl; rewrite ?IH; reflexivity.
Qed.

Lemma contexts_created_app (l1 l2 : list call) :
  contexts_created (l1 ++ l2)
  = (contexts_created l1 + contexts_created l2)%nat.
Proof.
  induction l1 as [|c l1 IH]; simpl; [reflexivity |].
  destruct c; simpl; rewrite ?IH; reflexivity.
Qed.

(** The calls of a pass are silent for every reader but [clicks], [tones],
    [timeouts] and [delays]. *)
Lemma pass_calls_create_nothing (l : list call) :
  Forall pass_call l -> contexts_created l = 0%nat.
Proof.
  induction 1 as [|c l Hc _ IH]; [reflexivity |].
  destruct c; simpl in *; try contradiction; exact IH.
Qed.

(** The rule of a pass: a property kept by every iteration that runs
    inside the window of the pass holds when the pass returns. *)
Lemma schedule_rule (P : world -> Prop) :
  (forall v v1 ctx,
      P v -> _audioCtx v = Some ctx ->
      lt (_nextBeatTime v) (add (Fin (currentTime ctx)) SCHEDULE_AHEAD_TIME)
      = true ->
      _scheduleClick (_currentBeat v) (_currentSubdiv v) (_nextBeatTime v) v
      = Ret v1 ->
      P (_advanceBeat v1)) ->
  forall fuel w w', P w -> _schedule fuel w = Ret w' -> P w'.
Proof.
  intros Hstep fuel w w' HP Hrun. unfold _schedule in Hrun.
  destruct (_audioCtx w) as [ctx|] eqn:Hctx; [| discriminate].
  pose (P' := fun v : world => P v /\ _audioCtx v = Some ctx).
  refine (proj1 (proj1 (schedule_loop_rule P' _ _ fuel w w'
                          (conj HP Hctx) Hrun))).
  intros v v1 (Hv & Hc) Hlt Hclick. split.
  - eapply Hstep; eauto.
  - destruct (scheduleClick_calls v ctx (_currentBeat v) (_currentSubdiv v)
                (_nextBeatTime v) Hc) as (evs1 & Hret & _).
    rewrite Hret in Hclick. injection Hclick as <-.
    destruct (advanceBeat_setup (with_log (log v ++ evs1) v))
      as (_ & _ & _ & _ & E5 & _).
    rewrite E5. exact Hc.
Qed.

(** A pass makes only pass calls, leaves the set-up alone, and ends with
    the cursor outside its window. *)
Lemma schedule_calls (fuel : nat) (w w' : world) (ctx : AudioContext) :
  _audioCtx w = Some ctx ->
  _schedule fuel w = Ret w' ->
  same_setup w w'
  /\ (exists evs, log w' = log w ++ evs /\ Forall pass_call evs)
  /\ lt (_nextBeatTime w') (add (Fin (currentTime ctx)) SCHEDULE_AHEAD_TIME)
     = false.
Proof.
  intros Hctx Hrun.
  pose (P := fun v : world =>
               same_setup w v
               /\ exists evs, log v = log w ++ evs /\ Forall pass_call evs).
  assert (HP : P w).
  { split; [apply same_setup_refl |]. exists []. rewrite app_nil_r.
    split; constructor. }
  unfold _schedule in Hrun. rewrite Hctx in Hrun.
  assert (Hstep : forall v v1,
             P v ->
             lt (_nextBeatTime v)
               (add (Fin (currentTime ctx)) SCHEDULE_AHEAD_TIME) = true ->
             _scheduleClick (_currentBeat v) (_currentSubdiv v)
               (_nextBeatTime v) v = Ret v1 ->
             P (_advanceBeat v1)).
  { intros v v1 (Hsame & evs & Hlog & Hall) _ Hclick.
    destruct (_audioCtx v) as [c|] eqn:Hc;
      [| unfold _scheduleClick in Hclick; rewrite Hc in Hclick;
         discriminate].
    destruct (scheduleClick_calls v c (_currentBeat v) (_currentSubdiv v)
                (_nextBeatTime v) Hc) as (evs1 & Hret & tn & Hevs & _).
    rewrite Hret in Hclick. injection Hclick as <-. split.
    - eapply same_setup_trans; [exact Hsame |].
      eapply same_setup_trans; [| apply advanceBeat_setup].
      unfold same_setup. repeat split.
    - exists (evs ++ evs1). split.
      + rewrite advanceBeat_log. simpl. rewrite Hlog, app_assoc.
        reflexivity.
      + apply Forall_app. split; [exact Hall |]. rewrite Hevs.
        destruct (eq (_currentSubdiv v) (int 0)); repeat constructor. }
  destruct (schedule_loop_rule P _ Hstep fuel w w' HP Hrun)
    as ((Hsame & Hevs) & Hlt).
  split; [exact Hsame |]. split; [exact Hevs | exact Hlt].
Qed.

(** The rule of a run: a property kept by every iteration, by the clock,
    by both recovery handlers and by the tempo and volume setters holds
    after whatever happens. *)
Lemma happen_rule (P : world -> Prop) :
  (forall v v1 ctx,
      P v -> _audioCtx v = Some ctx ->
      lt (_nextBeatTime v) (add (Fin (currentTime ctx)) SCHEDULE_AHEAD_TIME)
      = true ->
      _scheduleClick (_currentBeat v) (_currentSubdiv v) (_nextBeatTime v) v
      = Ret v1 ->
      P (_advanceBeat v1)) ->
  (forall h v, match h with Tick _ => False | _ => True end ->
               P v -> forall v1, happen1 0 h v = Ret v1 -> P v1) ->
  (forall now v, P v -> P (set_clock now v)) ->
  forall fuel hs w w', P w -> happen fuel hs w = Ret w' -> P w'.
Proof.
  intros Hiter Hother Hclock fuel hs.
  induction hs as [|h hs IH]; intros w w' HP Hrun; simpl in Hrun.
  - injection Hrun as <-. exact HP.
  - destruct (happen1 fuel h w) as [w1| |] eqn:E; simpl in Hrun;
      try discriminate.
    eapply IH; [| exact Hrun].
    destruct h.
    + unfold happen1, tick in E.
      eapply (schedule_rule P Hiter); [| exact E]. apply Hclock, HP.
    + apply (Hother (Clock now) w I HP). exact E.
    + apply (Hother (VisibilityChange visible) w I HP). exact E.
    + apply (Hother (StateChange s) w I HP). exact E.
    + apply (Hother (SetTempo v) w I HP). exact E.
    + apply (Hother (SetVolume v) w I HP). exact E.
Qed.

(** The rule of ticks. *)
Lemma ticks_rule (P : world -> Prop) :
  (forall v v1 ctx,
      P v -> _audioCtx v = Some ctx ->
      lt (_nextBeatTime v) (add (Fin (currentTime ctx)) SCHEDULE_AHEAD_TIME)
      = true ->
      _scheduleClick (_currentBeat v) (_currentSubdiv v) (_nextBeatTime v) v
      = Ret v1 ->
      P (_advanceBeat v1)) ->
  (forall now v, P v -> P (set_clock now v)) ->
  forall fuel nows w w', P w -> ticks fuel nows w = Ret w' -> P w'.
Proof.
  intros Hiter Hclock fuel nows.
  induction nows as [|now nows IH]; intros w w' HP Hrun; simpl in Hrun.
  - injection Hrun as <-. exact HP.
  - unfold tick in Hrun.
    destruct (_schedule fuel (set_clock now w)) as [w1| |] eqn:E;
      simpl in Hrun; try discriminate.
    eapply IH; [| exact Hrun].
    eapply (schedule_rule P Hiter); [| exact E]. apply Hclock, HP.
Qed.

(** Ticks are a run in which only the timer fires. *)
Lemma ticks_happen (fuel : nat) (nows : list Q) (w : world) :
  ticks fuel nows w = happen fuel (map Tick nows) w.
Proof.
  revert w. induction nows as [|now nows IH]; intro w; simpl;
    [reflexivity |].
  unfold happen1. destruct (tick fuel now w); simpl; auto.
Qed.

(** The rule of [start()] from a stopped metronome. *)
Lemma start_rule (P : world -> Prop) (fuel : nat) (w w' : world) :
  (forall v v1 ctx,
      P v -> _audioCtx v = Some ctx ->
      lt (_nextBeatTime v) (add (Fin (currentTime ctx)) SCHEDULE_AHEAD_TIME)
      = true ->
      _scheduleClick (_currentBeat v) (_currentSubdiv v) (_nextBeatTime v) v
      = Ret v1 ->
      P (_advanceBeat v1)) ->
  (forall v, P v -> P (setInterval LOOKAHEAD_INTERVAL v)) ->
  isRunning w = false ->
  P (before_first_pass w) -> start fuel w = Ret w' -> P w'.
Proof.
  intros Hiter Hset Hstop HP Hrun.
  rewrite start_eq in Hrun by assumption.
  destruct (_schedule fuel (before_first_pass w)) as [w6| |] eqn:E6;
    simpl in Hrun; try discriminate.
  injection Hrun as <-. apply Hset.
  eapply (schedule_rule P Hiter); [exact HP | exact E6].
Qed.

(* ================================================================== *)
(** ** Click times *)
(* ================================================================== *)

Section Grid.

(** A stored tempo and subdivision, and the start of the grid. *)
Variables b s : Z.
Variable t0 : Q.
Variable pre : list call.

Let grid (v : world) : Prop :=
  ready b s v /\ on_grid t0 (interval b s) pre v.

Lemma grid_iteration (v v1 : world) (ctx : AudioContext) :
  grid v -> _audioCtx v = Some ctx ->
  lt (_nextBeatTime v) (add (Fin (currentTime ctx)) SCHEDULE_AHEAD_TIME)
  = true ->
  _scheduleClick (_currentBeat v) (_currentSubdiv v) (_nextBeatTime v) v
  = Ret v1 ->
  grid (_advanceBeat v1).
Proof.
  intros (Hr & evs & Hlog & Hgrid & t & Ht & Hteq) Hctx _ Hclick.
  destruct (scheduleClick_calls v ctx (_currentBeat v) (_currentSubdiv v)
              (_nextBeatTime v) Hctx) as (evs1 & Hret & tn & Hevs & Htn).
  rewrite Hret in Hclick. injection Hclick as <-.
  set (w1 := with_log (log v ++ evs1) v).
  assert (Hr1 : ready b s (_advanceBeat w1)).
  { apply (ready_same_setup b s v).
    - eapply same_setup_trans; [| apply advanceBeat_setup].
      unfold same_setup. repeat split.
    - exact Hr. }
  split; [exact Hr1 |].
  destruct Hr as (Hb & Hs & Ebpm & Esub & _).
  assert (Htones : tones evs1 = [tn]).
  { rewrite Hevs. destruct (eq (_currentSubdiv v) (int 0)); reflexivity. }
  exists (evs ++ evs1). split; [| split].
  - rewrite advanceBeat_log. simpl. rewrite Hlog, app_assoc. reflexivity.
  - intros k tk Hk. rewrite tones_app, Htones in Hk.
    destruct (Nat.lt_ge_cases k (length (tones evs))) as [Hlt|Hge].
    + rewrite nth_error_app1 in Hk by exact Hlt. apply (Hgrid k tk Hk).
    + rewrite nth_error_app2 in Hk by exact Hge.
      destruct (k - length (tones evs))%nat as [|j] eqn:Ej.
      * simpl in Hk. injection Hk as <-.
        exists t. split; [congruence |].
        replace k with (length (tones evs)) by lia. exact Hteq.
      * simpl in Hk. destruct j; discriminate.
  - exists (t + interval b s). split.
    + rewrite advanceBeat_time.
      change (_nextBeatTime w1) with (_nextBeatTime v).
      change (_bpm w1) with (_bpm v).
      change (_subdivision w1) with (_subdivision v).
      rewrite Ht, Ebpm, Esub, (div_interval b s Hb Hs). reflexivity.
    + rewrite tones_app, Htones, length_app. simpl.
      rewrite Nat.add_1_r, Nat2Z.inj_succ. unfold Z.succ.
      rewrite inject_Z_plus, Hteq. change (inject_Z 1) with 1. ring.
Qed.

Lemma grid_set_clock (now : Q) (v : world) : grid v -> grid (set_clock now v).
Proof.
  intros (Hr & Hg). split; [apply ready_set_clock, Hr |].
  unfold set_clock. destruct (_audioCtx v); exact Hg.
Qed.

Lemma grid_setInterval (v : world) :
  grid v -> grid (setInterval LOOKAHEAD_INTERVAL v).
Proof.
  intros (Hr & evs & Hlog & Hgrid & Hnext). split; [exact Hr |].
  exists (evs ++ [SetInterval (nextHandle v) LOOKAHEAD_INTERVAL]).
  split; [| split].
  - simpl. rewrite Hlog, app_assoc. reflexivity.
  - rewrite tones_app. simpl. rewrite app_nil_r. exact Hgrid.
  - rewrite tones_app. simpl. rewrite app_nil_r. exact Hnext.
Qed.

Lemma grid_session (fuel : nat) (nows : list Q) (w w' : world) :
  isRunning w = false ->
  grid (before_first_pass w) -> session fuel nows w = Ret w' -> grid w'.
Proof.
  intros Hstop HP Hrun. unfold session in Hrun.
  destruct (start fuel w) as [w1| |] eqn:E; simpl in Hrun; try discriminate.
  apply (ticks_rule grid grid_iteration grid_set_clock fuel nows w1 w');
    [| exact Hrun].
  apply (start_rule grid fuel w w1 grid_iteration grid_setInterval Hstop HP E).
Qed.

End Grid.

(** Every session that returns has its clicks on the grid that starts at
    the anchor of its [start()]. *)
Lemma session_on_grid (b s : Z) (fuel : nat) (nows : list Q) (w w' : world) :
  isRunning w = false ->
  (0 < b)%Z -> (0 < s)%Z -> _bpm w = int b -> _subdivision w = int s ->
  session fuel nows w = Ret w' ->
  on_grid (anchor_of (start_ctx w)) (interval b s) (log w) w'.
Proof.
  intros Hstop Hb Hs Ebpm Esub Hrun.
  refine (proj2 (grid_session b s _ (log w) fuel nows w w' Hstop _ Hrun)).
  split; [apply ready_before_first_pass; assumption |].
  destruct (before_first_pass_spec w)
    as (_ & _ & _ & _ & Ht & pre & Hlog & Hpre).
  destruct (setup_calls_silent pre Hpre) as (_ & _ & Htones).
  exists pre. split; [exact Hlog |]. rewrite Htones. split.
  - intros k tn Hk. destruct k; discriminate.
  - exists (anchor_of (start_ctx w)). split; [exact Ht |].
    simpl. change (inject_Z 0) with 0. ring.
Qed.

Lemma inject_Z_of_nat_lt (j k : nat) :
  (j < k)%nat -> inject_Z (Z.of_nat j) < inject_Z (Z.of_nat k).
Proof. intro H. rewrite <- Zlt_Qlt. lia. Qed.

(* ================================================================== *)
(** ** Timeouts, repeated passes, the first click *)
(* ================================================================== *)

Lemma punctual_iteration (b s : Z) (pre : list call) (v v1 : world)
      (ctx : AudioContext) :
  punctual b s pre v -> _audioCtx v = Some ctx ->
  lt (_nextBeatTime v) (add (Fin (currentTime ctx)) SCHEDULE_AHEAD_TIME)
  = true ->
  _scheduleClick (_currentBeat v) (_currentSubdiv v) (_nextBeatTime v) v
  = Ret v1 ->
  punctual b s pre (_advanceBeat v1).
Proof.
  intros (Hr & (t & Ht) & evs & Hlog & Hall) Hctx Hlt Hclick.
  destruct (scheduleClick_calls v ctx (_currentBeat v) (_currentSubdiv v)
              (_nextBeatTime v) Hctx) as (evs1 & Hret & tn & Hevs & Htn).
  rewrite Hret in Hclick. injection Hclick as <-.
  set (w1 := with_log (log v ++ evs1) v).
  split; [| split].
  - apply (ready_same_setup b s v); [| exact Hr].
    eapply same_setup_trans; [| apply advanceBeat_setup].
    unfold same_setup. repeat split.
  - destruct Hr as (Hb & Hs & Ebpm & Esub & _).
    exists (t + interval b s). rewrite advanceBeat_time.
    change (_nextBeatTime w1) with (_nextBeatTime v).
    change (_bpm w1) with (_bpm v).
    change (_subdivision w1) with (_subdivision v).
    rewrite Ht, Ebpm, Esub, (div_interval b s Hb Hs). reflexivity.
  - exists (evs ++ evs1). split.
    + rewrite advanceBeat_log. simpl. rewrite Hlog, app_assoc. reflexivity.
    + rewrite delays_app. apply Forall_app. split; [exact Hall |].
      rewrite Hevs, Ht. rewrite Ht in Hlt. apply lt_Fin in Hlt.
      destruct (eq (_currentSubdiv v) (int 0)); simpl; [| constructor].
      constructor; [| constructor].
      set (x := (t + - currentTime ctx) * inject_Z 1000).
      assert (Hx : x < 100).
      { subst x. change (inject_Z 1000) with 1000. lra. }
      unfold delay_ok.
      destruct (Qle_bool (inject_Z 0) x) eqn:E.
      * apply Qle_bool_iff in E. change (inject_Z 0) with 0 in E.
        exists x. repeat split; assumption.
      * exists (inject_Z 0). repeat split; discriminate.
Qed.

Lemma punctual_set_clock (b s : Z) (pre : list call) (now : Q) (v : world) :
  punctual b s pre v -> punctual b s pre (set_clock now v).
Proof.
  intros (Hr & Ht & Hl). split; [apply ready_set_clock, Hr |].
  unfold set_clock. destruct (_audioCtx v); split; assumption.
Qed.

Lemma punctual_setInterval (b s : Z) (pre : list call) (v : world) :
  punctual b s pre v -> punctual b s pre (setInterval LOOKAHEAD_INTERVAL v).
Proof.
  intros (Hr & Ht & evs & Hlog & Hall). split; [exact Hr |].
  split; [exact Ht |].
  exists (evs ++ [SetInterval (nextHandle v) LOOKAHEAD_INTERVAL]). split.
  - simpl. rewrite Hlog, app_assoc. reflexivity.
  - rewrite delays_app. simpl. rewrite app_nil_r. exact Hall.
Qed.

Lemma punctual_before_first_pass (b s : Z) (w : world) :
  (0 < b)%Z -> (0 < s)%Z -> _bpm w = int b -> _subdivision w = int s ->
  punctual b s (log w) (before_first_pass w).
Proof.
  intros Hb Hs Ebpm Esub.
  split; [apply ready_before_first_pass; assumption |].
  destruct (before_first_pass_spec w)
    as (_ & _ & _ & _ & Ht & pre & Hlog & Hpre).
  split; [eauto |]. exists pre. split; [exact Hlog |].
  clear Hlog. induction Hpre as [|c pre [-> | ->] _ IH]; simpl;
    [constructor | exact IH | exact IH].
Qed.

(** The log only grows in a loop. *)
Lemma schedule_loop_log (fuel : nat) (u : num) (w w' : world) :
  schedule_loop fuel u w = Ret w' -> exists evs, log w' = log w ++ evs.
Proof.
  intro Hrun.
  refine (proj1 (schedule_loop_rule
                   (fun v => exists evs, log v = log w ++ evs) u _
                   fuel w w' _ Hrun)).
  - intros v v1 (evs & Hlog) _ Hclick.
    destruct (_audioCtx v) as [c|] eqn:Hc;
      [| unfold _scheduleClick in Hclick; rewrite Hc in Hclick;
         discriminate].
    destruct (scheduleClick_calls v c (_currentBeat v) (_currentSubdiv v)
                (_nextBeatTime v) Hc) as (evs1 & Hret & _).
    rewrite Hret in Hclick. injection Hclick as <-.
    exists (evs ++ evs1). rewrite advanceBeat_log. simpl.
    rewrite Hlog, app_assoc. reflexivity.
  - exists []. rewrite app_nil_r. reflexivity.
Qed.

(* ================================================================== *)
(** ** Events that are not passes *)
(* ================================================================== *)

Lemma undisturbed_refl (w : world) : undisturbed w w.
Proof.
  unfold undisturbed. repeat (split; [reflexivity |]).
  exists []. rewrite app_nil_r. split; constructor.
Qed.

Lemma undisturbed_emit (c : call) (w v : world) :
  c = CtxResume \/ c = RequestWakeLock ->
  undisturbed w v -> undisturbed w (emit c v).
Proof.
  intros Hc (E1 & E2 & E3 & E4 & E5 & E6 & E7 & l & Hl & Hq).
  unfold undisturbed, emit. cbn.
  repeat (split; [assumption |]).
  exists (l ++ [c]). split; [rewrite Hl, app_assoc; reflexivity |].
  apply Forall_app. split; [exact Hq |].
  constructor; [exact Hc | constructor].
Qed.

Lemma undisturbed_time (t : num) (w v : world) :
  undisturbed w v -> undisturbed w (with_nextBeatTime t v).
Proof. intro H. exact H. Qed.

Lemma undisturbed_ctx (c : option AudioContext) (w v : world) :
  undisturbed w v -> undisturbed w (with_audioCtx c v).
Proof. intro H. exact H. Qed.

Lemma undisturbed_bpm (t : num) (w v : world) :
  undisturbed w v -> undisturbed w (with_bpm t v).
Proof. intro H. exact H. Qed.

Lemma undisturbed_volume (t : num) (w v : world) :
  undisturbed w v -> undisturbed w (with_volume t v).
Proof. intro H. exact H. Qed.

(** [recoverPlayback] and both listeners disturb nothing. *)
Lemma recoverPlayback_undisturbed (w : world) :
  undisturbed w (recoverPlayback w).
Proof.
  unfold recoverPlayback. destruct (_audioCtx w) as [c|];
    [| apply undisturbed_refl].
  destruct (ctx_state_eqb (state c) suspended
            || ctx_state_eqb (state c) interrupted).
  - destruct (isRunning (emit CtxResume w));
      [apply undisturbed_time |];
      apply undisturbed_emit; auto using undisturbed_refl.
  - destruct (isRunning w); [apply undisturbed_time |];
      apply undisturbed_refl.
Qed.

Lemma visibilitychange_undisturbed (visible : bool) (w : world) :
  undisturbed w (visibilitychange_listener visible w).
Proof.
  unfold visibilitychange_listener, requestWakeLock.
  destruct (visible && isRunning w); [| apply undisturbed_refl].
  apply undisturbed_emit; [auto | apply recoverPlayback_undisturbed].
Qed.

Lemma statechange_undisturbed (s : ctx_state) (w : world) :
  undisturbed w (statechange s w).
Proof.
  unfold statechange, set_state, statechange_listener.
  destruct (_audioCtx w) as [c|] eqn:Ec; cbn [_audioCtx with_audioCtx];
    rewrite ?Ec; [| apply undisturbed_refl].
  cbn [_mobileHooked state currentTime baseLatency].
  destruct (_mobileHooked c); [| apply undisturbed_ctx, undisturbed_refl].
  case_if; [apply undisturbed_time |];
    apply undisturbed_ctx, undisturbed_refl.
Qed.

(** No happening but a tick disturbs the run. *)
Lemma happen1_undisturbed (h : happening) (w w1 : world) :
  match h with Tick _ => False | _ => True end ->
  happen1 0 h w = Ret w1 -> undisturbed w w1.
Proof.
  destruct h; intros Hh Hrun; try contradiction; simpl in Hrun;
    injection Hrun as <-.
  - unfold set_clock. destruct (_audioCtx w);
      [apply undisturbed_ctx |]; apply undisturbed_refl.
  - apply visibilitychange_undisturbed.
  - apply statechange_undisturbed.
  - apply undisturbed_bpm, undisturbed_refl.
  - apply undisturbed_volume, undisturbed_refl.
Qed.

Lemma quiet_calls_silent (l : list call) :
  Forall (fun c => c = CtxResume \/ c = RequestWakeLock) l ->
  clicks l = [] /\ timeouts l = [] /\ tones l = [] /\ delays l = []
  /\ contexts_created l = 0%nat.
Proof.
  induction 1 as [|c l [-> | ->] _ IH]; [repeat split | |]; simpl; exact IH.
Qed.

(** An undisturbed run stays in sequence. *)
Lemma sequencing_undisturbed (M S : Z) (pre : list call) (w w' : world) :
  undisturbed w w' -> sequencing M S pre w -> sequencing M S pre w'.
Proof.
  intros (E1 & E2 & E3 & E4 & _ & _ & _ & l & Hl & Hq)
         (EM & ES & evs & Hlog & Hclicks & Htimeouts & Hcur).
  destruct (quiet_calls_silent l Hq) as (Hc & Ht & _).
  split; [congruence |]. split; [congruence |].
  exists (evs ++ l). split; [rewrite Hl, Hlog, app_assoc; reflexivity |].
  unfold in_sequence. rewrite clicks_app, timeouts_app, Hc, Ht, !app_nil_r.
  rewrite E3, E4. repeat split; assumption.
Qed.

(** Every run that returns is in sequence, whatever happened. *)
Lemma run_sequencing (M S : Z) (fuel : nat) (hs : list happening)
      (w w' : world) :
  (0 < M)%Z -> (0 < S)%Z ->
  isRunning w = false ->
  _beatsPerMeasure w = int M -> _subdivision w = int S ->
  run fuel hs w = Ret w' ->
  sequencing M S (log w) w'.
Proof.
  intros HM HS Hstop EM ES Hrun. unfold run in Hrun.
  destruct (start fuel w) as [w1| |] eqn:E; simpl in Hrun; try discriminate.
  assert (Hiter : forall v v1 ctx,
             sequencing M S (log w) v -> _audioCtx v = Some ctx ->
             lt (_nextBeatTime v)
               (add (Fin (currentTime ctx)) SCHEDULE_AHEAD_TIME) = true ->
             _scheduleClick (_currentBeat v) (_currentSubdiv v)
               (_nextBeatTime v) v = Ret v1 ->
             sequencing M S (log w) (_advanceBeat v1)).
  { intros v v1 ctx Hv _ _ Hclick.
    exact (sequencing_iteration M S HM HS (log w) v v1 Hv Hclick). }
  apply (happen_rule (sequencing M S (log w)) Hiter) with (fuel := fuel)
    (hs := hs) (w := w1); [| | | exact Hrun].
  - intros h v Hh Hv v1 H1.
    exact (sequencing_undisturbed M S (log w) v v1
             (happen1_undisturbed h v v1 Hh H1) Hv).
  - intros now v Hv. apply sequencing_set_clock, Hv.
  - apply (start_rule (sequencing M S (log w)) fuel w w1 Hiter
             (sequencing_setInterval M S (log w) LOOKAHEAD_INTERVAL)
             Hstop); [| exact E].
    apply sequencing_before_first_pass; assumption.
Qed.

(* ================================================================== *)
(** ** Runs return *)
(* ================================================================== *)

Lemma happen_fuel (fuel fuel' : nat) (hs : list happening) :
  (fuel <= fuel')%nat ->
  forall w w', happen fuel hs w = Ret w' -> happen fuel' hs w = Ret w'.
Proof.
  intro Hle. induction hs as [|h hs IH]; intros w w' H; simpl in *.
  - exact H.
  - destruct (happen1 fuel h w) as [w1| |] eqn:E; simpl in H;
      try discriminate.
    assert (E' : happen1 fuel' h w = Ret w1).
    { destruct h; try exact E.
      unfold happen1, tick in *. apply (schedule_fuel fuel fuel' _ _ Hle E). }
    rewrite E'. simpl. apply IH, H.
Qed.

Lemma steady_emit (s : Z) (c : call) (w : world) :
  steady s w -> steady s (emit c w).
Proof. intro H. exact H. Qed.

Lemma steady_time (s : Z) (a c : Q) (w : world) :
  steady s w -> steady s (with_nextBeatTime (add (Fin a) (Fin c)) w).
Proof.
  intros (b & t & Hr & _). exists b, (a + c). split; [exact Hr | reflexivity].
Qed.

Lemma steady_ctx (s : Z) (c : AudioContext) (w : world) :
  steady s w -> steady s (with_audioCtx (Some c) w).
Proof.
  intros (b & t & (Hb & Hs & Ebpm & Esub & _) & Ht).
  exists b, t. split; [| exact Ht]. unfold ready. cbn. eauto 10.
Qed.

(** A happening that is not a tick keeps the metronome steady, provided a
    tempo input is a finite number. *)
Lemma happen1_steady (s : Z) (h : happening) (w w1 : world) :
  match h with Tick _ => False | _ => True end ->
  finite_tempo h ->
  steady s w -> happen1 0 h w = Ret w1 -> steady s w1.
Proof.
  destruct h; intros Hh Hfin Hw Hrun; try contradiction; simpl in Hrun;
    injection Hrun as <-.
  - unfold set_clock. destruct (_audioCtx w); [apply steady_ctx |]; exact Hw.
  - unfold visibilitychange_listener, requestWakeLock, recoverPlayback.
    destruct (visible && isRunning w); [| exact Hw].
    apply steady_emit. destruct (_audioCtx w) as [c|]; [| exact Hw].
    destruct (ctx_state_eqb (state c) suspended
              || ctx_state_eqb (state c) interrupted);
      case_if; try apply steady_time; try apply steady_emit; exact Hw.
  - unfold statechange, set_state, statechange_listener.
    destruct (_audioCtx w) as [c|] eqn:Ec; cbn [_audioCtx with_audioCtx];
      rewrite ?Ec; [| exact Hw].
    cbn [_mobileHooked state currentTime baseLatency].
    destruct (_mobileHooked c); [| apply steady_ctx, Hw].
    case_if; [apply steady_time |]; apply steady_ctx, Hw.
  - destruct v as [| |q|]; try contradiction.
    destruct Hw as (b & t & (Hb & Hs & Ebpm & Esub & Hctx) & Ht).
    exists (Z.min 300 (Z.max 20 (Qfloor (q + (1 # 2))))), t.
    split; [| exact Ht]. unfold ready.
    rewrite (set_bpm_Fin q w). repeat split; try assumption; lia.
  - exact Hw.
Qed.

(** Whatever happens to a steady metronome, given enough fuel every pass
    returns and the metronome is steady afterwards. *)
Lemma happen_total (s : Z) (hs : list happening) :
  Forall finite_tempo hs ->
  forall w, steady s w ->
    exists fuel0 w', happen fuel0 hs w = Ret w' /\ steady s w'.
Proof.
  induction 1 as [|h hs Hfin _ IH]; intros w Hw.
  - exists 0%nat, w. split; [reflexivity | exact Hw].
  - assert (H1 : exists fuel1 w1, happen1 fuel1 h w = Ret w1 /\ steady s w1).
    { destruct h;
        try (exists 0%nat; eexists; split; [reflexivity |];
             eapply happen1_steady; try exact Hw; try exact Hfin;
             try exact I; reflexivity).
      destruct Hw as (b & t & Hr & Ht).
      pose proof (ready_set_clock b s now w Hr) as Hr1.
      destruct Hr1 as (Hb & Hs & Ebpm & Esub & ctx & Hctx).
      assert (Hr1 : ready b s (set_clock now w)) by (unfold ready; eauto 10).
      assert (Ht1 : _nextBeatTime (set_clock now w) = Fin t).
      { unfold set_clock. destruct (_audioCtx w); exact Ht. }
      destruct (schedule_total _ (set_clock now w) ctx b s t Hr1 Hctx Ht1
                  (Nat.le_refl _))
        as (w1 & evs1 & Hrun1 & Hsame1 & _ & _ & _ & t1 & Ht1' & _).
      eexists. exists w1. split; [exact Hrun1 |].
      exists b, t1. split; [| exact Ht1'].
      exact (ready_same_setup _ _ _ _ Hsame1 Hr1). }
    destruct H1 as (fuel1 & w1 & Hrun1 & Hw1).
    destruct (IH w1 Hw1) as (fuel2 & w' & Hrun2 & Hw').
    exists (Nat.max fuel1 fuel2), w'. split; [| exact Hw'].
    simpl.
    assert (E : happen1 (Nat.max fuel1 fuel2) h w = Ret w1).
    { destruct h; try exact Hrun1.
      unfold happen1, tick in *.
      apply (schedule_fuel fuel1 _ _ _ (Nat.le_max_l _ _) Hrun1). }
    rewrite E. simpl.
    apply (happen_fuel fuel2 _ hs (Nat.le_max_r _ _)), Hrun2.
Qed.

(** A run over a stopped metronome with a stored tempo and subdivision
    returns, given enough fuel. *)
Lemma run_total (b s : Z) (hs : list happening) (w : world) :
  isRunning w = false ->
  (0 < b)%Z -> (0 < s)%Z -> _bpm w = int b -> _subdivision w = int s ->
  Forall finite_tempo hs ->
  exists fuel0,
    forall fuel, (fuel0 <= fuel)%nat -> exists w', run fuel hs w = Ret w'.
Proof.
  intros Hstop Hb Hs Ebpm Esub Hfin.
  pose proof (ready_before_first_pass b s w Hb Hs Ebpm Esub) as Hr.
  destruct (before_first_pass_spec w) as (_ & Hctx & _ & _ & Ht & _).
  destruct (schedule_total _ _ _ b s _ Hr Hctx Ht (Nat.le_refl _))
    as (w6 & evs & Hrun & Hsame & _ & _ & _ & t' & Ht' & _).
  set (fuel1 := pass_length _ _ _) in Hrun.
  assert (Hw7 : steady s (setInterval LOOKAHEAD_INTERVAL w6)).
  { exists b, t'. split; [| exact Ht'].
    apply ready_setInterval. exact (ready_same_setup _ _ _ _ Hsame Hr). }
  destruct (happen_total s hs Hfin _ Hw7) as (fuel2 & w' & Hrun2 & _).
  exists (Nat.max fuel1 fuel2). intros fuel Hfuel. exists w'.
  unfold run. rewrite start_eq by assumption.
  rewrite (schedule_fuel fuel1 fuel _ _ ltac:(lia) Hrun). simpl.
  apply (happen_fuel fuel2 fuel hs ltac:(lia)), Hrun2.
Qed.

(* ================================================================== *)
(** ** What holds of every page *)
(* ================================================================== *)

Lemma page_inv_emit (c : call) (w : world) :
  c <> NewAudioContext -> page_inv w -> page_inv (emit c w).
Proof.
  intros Hc (H1 & H2 & H3 & H4). unfold page_inv, emit. cbn.
  split; [| repeat split; assumption].
  rewrite contexts_created_app, H1.
  destruct c; try congruence; simpl; lia.
Qed.

Lemma page_inv_ctx (c : AudioContext) (w : world) :
  _audioCtx w <> None -> page_inv w -> page_inv (with_audioCtx (Some c) w).
Proof.
  intros Hc (H1 & H2 & H3 & H4). unfold page_inv. cbn.
  split; [| split; [| split; assumption]].
  - rewrite H1. destruct (_audioCtx w); congruence.
  - intros _. discriminate.
Qed.

Lemma page_inv_same_setup (w w' : world) (l : list call) :
  same_setup w w' -> log w' = log w ++ l -> contexts_created l = 0%nat ->
  page_inv w -> page_inv w'.
Proof.
  intros (_ & _ & _ & _ & E5 & E6 & _ & E8 & E9) Hl Hc (H1 & H2 & H3 & H4).
  unfold page_inv, isRunning in *.
  rewrite E5, E6, E8, E9, Hl, contexts_created_app, Hc, H1.
  repeat split; try assumption. lia.
Qed.

Lemma page_inv_ensure (w : world) :
  page_inv w -> page_inv (_ensureAudioContext w).
Proof.
  intros (H1 & H2 & H3 & H4). unfold _ensureAudioContext.
  destruct (_audioCtx w) eqn:E.
  - unfold page_inv. rewrite E. repeat split; assumption.
  - unfold page_inv, emit. cbn. rewrite contexts_created_app, H1. simpl.
    repeat split; try assumption. intros _. discriminate.
Qed.

Lemma page_inv_recoverPlayback (w : world) :
  page_inv w -> page_inv (recoverPlayback w).
Proof.
  intro H. unfold recoverPlayback. destruct (_audioCtx w) as [c|];
    [| exact H].
  destruct (ctx_state_eqb (state c) suspended
            || ctx_state_eqb (state c) interrupted).
  - assert (H1 : page_inv (emit CtxResume w))
      by (apply page_inv_emit; [discriminate | exact H]).
    destruct (isRunning (emit CtxResume w)); exact H1.
  - destruct (isRunning w); exact H.
Qed.

(** The loop never throws on a metronome that has its audio context. *)
Lemma schedule_loop_never_throws (fuel : nat) (u : num) :
  forall w, _audioCtx w <> None -> schedule_loop fuel u w <> Throw.
Proof.
  induction fuel as [|fuel IH]; intros w Hc; simpl;
    destruct (lt (_nextBeatTime w) u); try discriminate.
  destruct (_audioCtx w) as [c|] eqn:Ec; [| congruence].
  destruct (scheduleClick_calls w c (_currentBeat w) (_currentSubdiv w)
              (_nextBeatTime w) Ec) as (evs1 & Hret & _).
  rewrite Hret. simpl. apply IH.
  destruct (advanceBeat_setup (with_log (log w ++ evs1) w))
    as (_ & _ & _ & _ & E5 & _).
  rewrite E5. cbn. rewrite Ec. discriminate.
Qed.

Lemma step_page_inv (w w' : world) : step w w' -> page_inv w -> page_inv w'.
Proof.
  intros Hstep Hinv. destruct Hstep.
  - unfold set_bpm. exact Hinv.
  - unfold set_beatsPerMeasure. exact Hinv.
  - unfold set_volume. exact Hinv.
  - unfold set_subdivision. exact Hinv.
  - (* start *)
    destruct (isRunning w) eqn:E.
    + unfold start in H. rewrite E in H. injection H as <-. exact Hinv.
    + rewrite start_eq in H by assumption.
      destruct (_schedule fuel (before_first_pass w)) as [w6| |] eqn:E6;
        simpl in H; try discriminate.
      injection H as <-.
      destruct (before_first_pass_spec w) as (_ & Hctx & _).
      assert (H5 : page_inv (before_first_pass w)).
      { unfold before_first_pass.
        assert (H1 : page_inv (_ensureAudioContext w))
          by (apply page_inv_ensure, Hinv).
        assert (H1' : page_inv (emit CtxResume (_ensureAudioContext w)))
          by (apply page_inv_emit; [discriminate | exact H1]).
        destruct (ctx_state_eqb (state (start_ctx w)) suspended);
          [exact H1' | exact H1]. }
      destruct (schedule_calls fuel _ w6 _ Hctx E6)
        as (Hsame & (evs & Hlog & Hall) & _).
      pose proof (page_inv_same_setup _ _ evs Hsame Hlog
                    (pass_calls_create_nothing evs Hall) H5)
        as (H1 & H2 & H3 & H4).
      destruct Hsame as (_ & _ & _ & _ & E5 & _).
      unfold page_inv, setInterval. cbn.
      rewrite contexts_created_app, H1. simpl.
      split; [lia |]. split; [intros _; rewrite E5, Hctx; discriminate |].
      split; [| lia].
      constructor; [lia |].
      eapply Forall_impl; [| exact H3]. intros a Ha. simpl in Ha. lia.
  - (* stop *)
    destruct Hinv as (H1 & H2 & H3 & H4).
    unfold stop. destruct (_intervalId w) as [h|] eqn:E;
      [| exact (conj H1 (conj H2 (conj H3 H4)))].
    unfold page_inv, clearInterval, isRunning. cbn.
    rewrite contexts_created_app, H1. simpl.
    split; [lia |]. split; [discriminate |]. split; [| exact H4].
    rewrite Forall_forall in *. intros a Ha.
    apply filter_In in Ha. apply H3, Ha.
  - apply page_inv_ensure, Hinv.
  - apply page_inv_emit; [discriminate | exact Hinv].
  - (* tick *)
    unfold tick in H0.
    assert (H1 : page_inv (set_clock now w)).
    { unfold set_clock. destruct (_audioCtx w) eqn:Ec; [| exact Hinv].
      apply page_inv_ctx; [congruence | exact Hinv]. }
    destruct (_audioCtx (set_clock now w)) as [c|] eqn:Ec;
      [| unfold _schedule in H0; rewrite Ec in H0; discriminate].
    destruct (schedule_calls fuel _ w' c Ec H0)
      as (Hsame & (evs & Hlog & Hall) & _).
    exact (page_inv_same_setup _ _ evs Hsame Hlog
             (pass_calls_create_nothing evs Hall) H1).
  - unfold set_clock. destruct (_audioCtx w) eqn:Ec; [| exact Hinv].
    apply page_inv_ctx; [congruence | exact Hinv].
  - unfold hookAudioContextRecovery.
    destruct (_audioCtx w) as [c|] eqn:Ec; [| exact Hinv].
    destruct (_mobileHooked c); [exact Hinv |].
    apply page_inv_ctx; [congruence | exact Hinv].
  - unfold statechange, set_state, statechange_listener.
    destruct (_audioCtx w) as [c|] eqn:Ec; cbn [_audioCtx with_audioCtx];
      rewrite ?Ec; [| exact Hinv].
    cbn [_mobileHooked state currentTime baseLatency].
    assert (H1 : page_inv
                   (with_audioCtx
                      (Some (mkCtx s (currentTime c) (baseLatency c)
                               (_mobileHooked c))) w))
      by (apply page_inv_ctx; [congruence | exact Hinv]).
    destruct (_mobileHooked c); [| exact H1]. case_if; exact H1.
  - unfold visibilitychange_listener, requestWakeLock.
    destruct (visible && isRunning w); [| exact Hinv].
    apply page_inv_emit; [discriminate |].
    apply page_inv_recoverPlayback, Hinv.
Qed.

Lemma reachable_page_inv (w : world) : reachable w -> page_inv w.
Proof.
  induction 1 as [ac | w w' _ IH Hstep].
  - unfold page_inv. cbn. repeat split; try discriminate; constructor.
  - eapply step_page_inv; eauto.
Qed.

(* ================================================================== *)
(** ** Timers set and cleared *)
(* ================================================================== *)

Lemma intervals_set_app (l1 l2 : list call) :
  intervals_set (l1 ++ l2) = (intervals_set l1 + intervals_set l2)%nat.
Proof.
  induction l1 as [|c l1 IH]; [reflexivity |].
  destruct c; simpl; rewrite IH; reflexivity.
Qed.

Lemma intervals_cleared_app (l1 l2 : list call) :
  intervals_cleared (l1 ++ l2)
  = (intervals_cleared l1 + intervals_cleared l2)%nat.
Proof.
  induction l1 as [|c l1 IH]; [reflexivity |].
  destruct c; simpl; rewrite IH; reflexivity.
Qed.

Lemma no_interval_calls (l : list call) :
  Forall no_interval_call l ->
  intervals_set l = 0%nat /\ intervals_cleared l = 0%nat.
Proof.
  induction 1 as [|c l Hc _ IH]; [split; reflexivity |].
  destruct c; simpl in *; try contradiction; exact IH.
Qed.

(** A step that appends calls other than timer calls and keeps the
    timers keeps the balance. *)
Lemma balanced_quiet (w w' : world) (l : list call) :
  log w' = log w ++ l -> Forall no_interval_call l ->
  timers w' = timers w -> balanced w -> balanced w'.
Proof.
  intros Hl Hq Ht Hb. unfold balanced in *.
  destruct (no_interval_calls l Hq) as (Hs & Hc).
  rewrite Hl, intervals_set_app, intervals_cleared_app, Hs, Hc, Ht. lia.
Qed.

Lemma balanced_undisturbed (w w' : world) :
  undisturbed w w' -> balanced w -> balanced w'.
Proof.
  intros (_ & _ & _ & _ & _ & Ht & _ & l & Hl & Hq).
  apply (balanced_quiet w w' l Hl); [| exact Ht].
  eapply Forall_impl; [| exact Hq].
  intros c [-> | ->]; exact I.
Qed.

Lemma balanced_pass (fuel : nat) (w w' : world) :
  _schedule fuel w = Ret w' -> balanced w -> balanced w'.
Proof.
  intros Hrun. unfold _schedule in Hrun.
  destruct (_audioCtx w) as [c|] eqn:Ec; [| discriminate].
  assert (Hrun' : _schedule fuel w = Ret w')
    by (unfold _schedule; rewrite Ec; exact Hrun).
  destruct (schedule_calls fuel w w' c Ec Hrun')
    as (Hsame & (evs & Hlog & Hall) & _).
  apply (balanced_quiet w w' evs Hlog).
  - eapply Forall_impl; [| exact Hall].
    intros a Ha. destruct a; simpl in *; try contradiction; exact I.
  - apply Hsame.
Qed.

Lemma balanced_ensure (w : world) :
  balanced w -> balanced (_ensureAudioContext w).
Proof.
  unfold _ensureAudioContext. destruct (_audioCtx w); [exact (fun H => H) |].
  apply (balanced_quiet w _ [NewAudioContext]); [reflexivity | | reflexivity].
  constructor; [exact I | constructor].
Qed.

Lemma balanced_resume (w : world) : balanced w -> balanced (emit CtxResume w).
Proof.
  apply (balanced_quiet w _ [CtxResume]); [reflexivity | | reflexivity].
  constructor; [exact I | constructor].
Qed.

Lemma step_balanced (w w' : world) :
  step w w' -> timer_live w -> balanced w -> balanced w'.
Proof.
  intros Hstep Hlive Hb. destruct Hstep.
  - exact Hb.
  - exact Hb.
  - exact Hb.
  - exact Hb.
  - (* start *)
    destruct (isRunning w) eqn:E.
    + unfold start in H. rewrite E in H. injection H as <-. exact Hb.
    + rewrite start_eq in H by assumption.
      destruct (_schedule fuel (before_first_pass w)) as [w6| |] eqn:E6;
        simpl in H; try discriminate.
      injection H as <-.
      assert (H5 : balanced (before_first_pass w)).
      { unfold before_first_pass.
        pose proof (balanced_ensure w Hb) as H1.
        pose proof (balanced_resume _ H1) as H2.
        destruct (ctx_state_eqb (state (start_ctx w)) suspended);
          [exact H2 | exact H1]. }
      pose proof (balanced_pass fuel _ w6 E6 H5) as H6.
      unfold balanced, setInterval in *. cbn [log timers].
      rewrite intervals_set_app, intervals_cleared_app, H6. simpl. lia.
  - (* stop *)
    unfold stop. unfold timer_live in Hlive.
    destruct (_intervalId w) as [h|] eqn:E; [| exact Hb].
    unfold balanced, clearInterval in *. cbn [log timers].
    rewrite intervals_set_app, intervals_cleared_app, Hb, Hlive. simpl.
    rewrite Nat.eqb_refl. simpl. lia.
  - apply balanced_ensure, Hb.
  - apply balanced_resume, Hb.
  - unfold tick in H0.
    apply (balanced_pass fuel (set_clock now w) w' H0).
    unfold set_clock. destruct (_audioCtx w); exact Hb.
  - unfold set_clock. destruct (_audioCtx w); exact Hb.
  - unfold hookAudioContextRecovery. destruct (_audioCtx w) as [c|];
      [| exact Hb]. destruct (_mobileHooked c); exact Hb.
  - exact (balanced_undisturbed _ _ (statechange_undisturbed s w) Hb).
  - exact (balanced_undisturbed _ _
             (visibilitychange_undisturbed visible w) Hb).
Qed.

Lemma reachable_balanced (w : world) : reachable w -> balanced w.
Proof.
  induction 1 as [ac | w w' Hr IH Hstep]; [reflexivity |].
  exact (step_balanced w w' Hstep (reachable_timer_live w Hr) IH).
Qed.

(* ================================================================== *)
(** ** A tempo that is not a number *)
(* ================================================================== *)

Lemma set_bpm_NaN (w : world) : _bpm (set_bpm NaN w) = NaN.
Proof. reflexivity. Qed.

Lemma advanceBeat_NaN (w : world) :
  _bpm w = NaN -> _nextBeatTime (_advanceBeat w) = NaN.
Proof.
  intro H. rewrite advanceBeat_time, H.
  destruct (_nextBeatTime w); reflexivity.
Qed.

Lemma stalled_pass (fuel : nat) (pre : list call) (w : world)
    (ctx : AudioContext) :
  stalled pre w -> _audioCtx w = Some ctx ->
  exists w', _schedule (S fuel) w = Ret w'
             /\ stalled pre w' /\ _audioCtx w' = Some ctx.
Proof.
  intros (Hb & evs & Hlog & Hcl) Ec. unfold _schedule. rewrite Ec.
  set (u := add (Fin (currentTime ctx)) SCHEDULE_AHEAD_TIME).
  destruct (lt (_nextBeatTime w) u) eqn:Hlt.
  - rewrite schedule_loop_enter by exact Hlt.
    destruct (scheduleClick_calls w ctx (_currentBeat w) (_currentSubdiv w)
                (_nextBeatTime w) Ec) as (evs1 & Hret & tn & Hevs & _).
    rewrite Hret. cbn [bind].
    set (v := with_log (log w ++ evs1) w).
    assert (Hnan : _nextBeatTime (_advanceBeat v) = NaN)
      by (apply advanceBeat_NaN; exact Hb).
    rewrite schedule_loop_exit by (rewrite Hnan; reflexivity).
    exists (_advanceBeat v). split; [reflexivity |].
    destruct (advanceBeat_setup v) as (E1 & _ & _ & _ & E5 & _).
    split; [| rewrite E5; exact Ec].
    split; [rewrite E1; exact Hb |].
    exists (evs ++ evs1). rewrite advanceBeat_log. unfold v. cbn [log with_log].
    split; [rewrite Hlog, app_assoc; reflexivity |].
    right. split; [| exact Hnan].
    destruct Hcl as [Hnone | (_ & Habs)];
      [| rewrite Habs in Hlt; discriminate].
    rewrite clicks_app, Hnone, Hevs.
    destruct (eq (_currentSubdiv w) (int 0)); reflexivity.
  - rewrite schedule_loop_exit by exact Hlt.
    exists w. split; [reflexivity |]. split; [| exact Ec].
    split; [exact Hb |]. exists evs. split; assumption.
Qed.

Lemma stalled_ticks (fuel : nat) (pre : list call) (nows : list Q) :
  forall w, stalled pre w -> _audioCtx w <> None ->
            exists w', ticks (S fuel) nows w = Ret w' /\ stalled pre w'.
Proof.
  induction nows as [|now nows IH]; intros w Hs Hc.
  - exists w. split; [reflexivity | exact Hs].
  - destruct (_audioCtx w) as [c|] eqn:Ec; [| congruence].
    assert (Ec' : _audioCtx (set_clock now w)
                  = Some (mkCtx (state c) now (baseLatency c)
                            (_mobileHooked c)))
      by (unfold set_clock; rewrite Ec; reflexivity).
    assert (Hs' : stalled pre (set_clock now w))
      by (unfold set_clock; rewrite Ec; exact Hs).
    destruct (stalled_pass fuel pre _ _ Hs' Ec') as (w1 & Hrun & Hs1 & Ec1).
    destruct (IH w1 Hs1) as (w' & Hrest & Hfin);
      [rewrite Ec1; discriminate |].
    exists w'. split; [| exact Hfin].
    cbn [ticks]. unfold tick. rewrite Hrun. exact Hrest.
Qed.

(** Once the cursor time is [NaN], passes, clock readings and the tempo
    and volume controls add nothing to the log and leave it [NaN]. *)
Lemma nan_cursor_happen1 (fuel : nat) (h : happening) (w : world) :
  keeps_anchor h -> _nextBeatTime w = NaN -> _audioCtx w <> None ->
  exists w', happen1 fuel h w = Ret w' /\ log w' = log w
             /\ _nextBeatTime w' = NaN /\ _audioCtx w' <> None.
Proof.
  intros Hk Hn Hc. destruct (_audioCtx w) as [c|] eqn:Ec; [| congruence].
  destruct h; simpl in Hk; try contradiction; cbn [happen1].
  - exists (set_clock now w). unfold tick, _schedule, set_clock.
    rewrite Ec. cbn [_audioCtx with_audioCtx].
    rewrite schedule_loop_exit
      by (cbn [_nextBeatTime with_audioCtx]; rewrite Hn; reflexivity).
    repeat split; [exact Hn | discriminate].
  - exists (set_clock now w). unfold set_clock. rewrite Ec.
    repeat split; [exact Hn | discriminate].
  - exists (set_bpm v w). repeat split; [exact Hn |].
    unfold set_bpm. cbn [_audioCtx with_bpm]. rewrite Ec. discriminate.
  - exists (set_volume v w). repeat split; [exact Hn |].
    unfold set_volume. cbn [_audioCtx with_volume]. rewrite Ec. discriminate.
Qed.

Lemma playing_reachable : reachable playing.
Proof.
  apply (reachable_step fresh playing (reachable_new sample_ctx)).
  apply (step_start 4 fresh playing). vm_compute. reflexivity.
Qed.

(* ================================================================== *)
(** ** Further properties of the code *)
(* ================================================================== *)

(** X1. The tempo setter.  For every input other than NaN the stored tempo
    is an integer between 20 and 300: the input rounded to the nearest
    integer (halves upward) and clamped, 300 for +Infinity and 20 for
    -Infinity.  NaN is stored as NaN. *)
Theorem tempo_setter_clamps (v : num) (w : world) :
  (v <> NaN ->
   exists z, _bpm (set_bpm v w) = int z /\ (20 <= z <= 300)%Z)
  /\ (forall q, v = Fin q ->
        _bpm (set_bpm v w)
        = int (Z.min 300 (Z.max 20 (Qfloor (q + (1 # 2))))))
  /\ _bpm (set_bpm PInf w) = int 300
  /\ _bpm (set_bpm NInf w) = int 20
  /\ _bpm (set_bpm NaN w) = NaN.
Proof.
  split; [| split; [| repeat split]].
  - intro Hv. destruct v as [| |q|].
    + congruence.
    + exists 20%Z. split; [reflexivity | lia].
    + exists (Z.min 300 (Z.max 20 (Qfloor (q + (1 # 2))))).
      split; [apply set_bpm_Fin | lia].
    + exists 300%Z. split; [reflexivity | lia].
  - intros q ->. apply set_bpm_Fin.
Qed.

Lemma tempo_setter_clamps_witness :
  (exists z, _bpm (set_bpm (Fin (1205 # 10)) fresh) = int z
             /\ (20 <= z <= 300)%Z)
  /\ _bpm (set_bpm (Fin (1205 # 10)) fresh) = int 121.
Proof.
  destruct (tempo_setter_clamps (Fin (1205 # 10)) fresh) as (H1 & H2 & _).
  split.
  - apply H1. discriminate.
  - apply (H2 (1205 # 10)). reflexivity.
Defined.

(** X2. The volume setter.  For every finite input the stored volume lies
    in [0, 1]: the input itself when it is in range, 0 below and 1 above;
    the infinities clamp to 0 and 1.  NaN is stored as NaN. *)
Theorem volume_setter_clamps (q : Q) (w : world) :
  (exists v, _volume (set_volume (Fin q) w) = Fin v
             /\ 0 <= v <= 1
             /\ (0 <= q <= 1 -> v == q)
             /\ (q < 0 -> v == 0)
             /\ (1 < q -> v == 1))
  /\ _volume (set_volume NInf w) = int 0
  /\ _volume (set_volume PInf w) = int 1
  /\ _volume (set_volume NaN w) = NaN.
Proof.
  split; [| repeat split].
  unfold set_volume. cbn [_volume with_volume max min int].
  destruct (Qle_bool (inject_Z 0) q) eqn:E0.
  - apply Qle_bool_iff in E0. change (inject_Z 0) with 0 in E0.
    destruct (Qle_bool (inject_Z 1) q) eqn:E1.
    + apply Qle_bool_iff in E1. change (inject_Z 1) with 1 in E1.
      exists 1. split; [reflexivity |].
      split; [split; discriminate |].
      split; [intros [_ H]; apply Qle_antisym; assumption |].
      split; [intro H; lra | intros _; reflexivity].
    + assert (Hlt : q < 1).
      { apply Qnot_le_lt. intro H.
        assert (Qle_bool (inject_Z 1) q = true)
          by (apply Qle_bool_iff; exact H).
        congruence. }
      exists q. split; [reflexivity |].
      split; [split; [exact E0 | lra] |].
      split; [intros _; reflexivity |].
      split; intro H; lra.
  - assert (Hlt : q < 0).
    { apply Qnot_le_lt. intro H.
      assert (Qle_bool (inject_Z 0) q = true)
        by (apply Qle_bool_iff; exact H).
      congruence. }
    change (Qle_bool (inject_Z 1) (inject_Z 0)) with false. cbn iota.
    exists 0. split; [reflexivity |].
    split; [split; discriminate |].
    split; [intros [H _]; lra |].
    split; [intros _; reflexivity | intro H; lra].
Qed.

Lemma volume_setter_clamps_witness :
  exists v, _volume (set_volume (Fin (3 # 2)) fresh) = Fin v /\ v == 1.
Proof.
  destruct (volume_setter_clamps (3 # 2) fresh)
    as ((v & Hv & _ & _ & _ & H1) & _).
  exists v. split; [exact Hv | apply H1; reflexivity].
Defined.

(** X3. Reading a stored tempo, volume or subdivision back into its setter
    stores the same number again, whatever input produced it: the clamps
    are idempotent. *)
Theorem setters_idempotent (v : num) (w w' : world) :
  _bpm (set_bpm (_bpm (set_bpm v w)) w') = _bpm (set_bpm v w)
  /\ _volume (set_volume (_volume (set_volume v w)) w')
     = _volume (set_volume v w)
  /\ _subdivision (set_subdivision (_subdivision (set_subdivision v w)) w')
     = _subdivision (set_subdivision v w).
Proof.
  split; [| split].
  - destruct v as [| |q|]; try reflexivity.
    rewrite (set_bpm_Fin q w).
    unfold set_bpm. cbn [_bpm with_bpm].
    rewrite round_int, max_int, min_int. f_equal. lia.
  - destruct v as [| |q|]; try reflexivity.
    unfold set_volume. cbn [_volume with_volume max min int].
    destruct (Qle_bool (inject_Z 0) q) eqn:E0.
    + destruct (Qle_bool (inject_Z 1) q) eqn:E1.
      * reflexivity.
      * rewrite E0, E1. reflexivity.
    + reflexivity.
  - destruct v as [| |q|]; try reflexivity.
    rewrite (set_subdivision_Fin q w).
    unfold set_subdivision. cbn [_subdivision with_currentSubdiv
      with_subdivision].
    rewrite floor_int, max_int. f_equal. lia.
Qed.

(* ------------------------------------------------------------------ *)

(** X4. Timing.  In a session started on a stopped metronome with a stored
    tempo and subdivision, the [k]-th click is scheduled at the anchor of
    the start (clock time plus safety margin) plus [k] subdivision
    intervals, however many passes it took and whenever they ran. *)
Theorem click_times_on_grid (w0 : world) (b s : Z) (nows : list Q) :
  isRunning w0 = false ->
  _bpm w0 = int b -> (20 <= b <= 300)%Z ->
  _subdivision w0 = int s -> (1 <= s)%Z ->
  exists fuel0,
    forall fuel, (fuel0 <= fuel)%nat ->
      exists w,
        session fuel nows w0 = Ret w
        /\ forall k tn,
             nth_error (tones (since w0 w)) k = Some tn ->
             exists t,
               startTime tn = Fin t
               /\ t == anchor_of (start_ctx w0)
                       + inject_Z (Z.of_nat k) * interval b s.
Proof.
  intros Hstop Ebpm Hb Esub Hs.
  destruct (session_total b s nows w0 Hstop ltac:(lia) ltac:(lia) Ebpm Esub)
    as (fuel0 & Htotal).
  exists fuel0. intros fuel Hfuel.
  destruct (Htotal fuel Hfuel) as (w & Hrun).
  exists w. split; [exact Hrun |].
  destruct (session_on_grid b s fuel nows w0 w Hstop ltac:(lia) ltac:(lia)
              Ebpm Esub Hrun) as (evs & Hlog & Hgrid & _).
  rewrite (since_app w0 w evs Hlog). exact Hgrid.
Qed.

Lemma click_times_on_grid_witness :
  exists fuel0,
    forall fuel, (fuel0 <= fuel)%nat ->
      exists w,
        session fuel [1 # 2; 1] waltz = Ret w
        /\ forall k tn,
             nth_error (tones (since waltz w)) k = Some tn ->
             exists t,
               startTime tn = Fin t
               /\ t == anchor_of (start_ctx waltz)
                       + inject_Z (Z.of_nat k) * interval 120 2.
Proof.
  apply (click_times_on_grid waltz 120 2 [1 # 2; 1]); try reflexivity; lia.
Defined.

(** X5. Order.  The clicks of a session are scheduled in strictly
    increasing time order, across passes as well as within one: a later
    click never starts at or before an earlier one. *)
Theorem click_times_increase (w0 w : world) (b s : Z) (fuel : nat)
        (nows : list Q) (j k : nat) (tj tk : tone) :
  isRunning w0 = false ->
  _bpm w0 = int b -> (20 <= b <= 300)%Z ->
  _subdivision w0 = int s -> (1 <= s)%Z ->
  session fuel nows w0 = Ret w ->
  (j < k)%nat ->
  nth_error (tones (since w0 w)) j = Some tj ->
  nth_error (tones (since w0 w)) k = Some tk ->
  exists a c, startTime tj = Fin a /\ startTime tk = Fin c /\ a < c.
Proof.
  intros Hstop Ebpm Hb Esub Hs Hrun Hjk Hj Hk.
  destruct (session_on_grid b s fuel nows w0 w Hstop ltac:(lia) ltac:(lia)
              Ebpm Esub Hrun) as (evs & Hlog & Hgrid & _).
  rewrite (since_app w0 w evs Hlog) in Hj, Hk.
  destruct (Hgrid j tj Hj) as (a & Ha & Haeq).
  destruct (Hgrid k tk Hk) as (c & Hc & Hceq).
  exists a, c. split; [exact Ha |]. split; [exact Hc |].
  rewrite Haeq, Hceq.
  pose proof (interval_pos b s ltac:(lia) ltac:(lia)) as Hi.
  pose proof (inject_Z_of_nat_lt j k Hjk) as Hlt.
  apply Qplus_lt_r. apply Qmult_lt_compat_r; assumption.
Qed.

Lemma click_times_increase_witness :
  exists tj tk a c,
    nth_error (tones (since waltz waltz_run)) 0 = Some tj
    /\ nth_error (tones (since waltz waltz_run)) 3 = Some tk
    /\ startTime tj = Fin a /\ startTime tk = Fin c /\ a < c.
Proof.
  assert (Hrun : session 10 [1 # 2; 1] waltz = Ret waltz_run)
    by (vm_compute; reflexivity).
  eassert (Hj : nth_error (tones (since waltz waltz_run)) 0 = Some _)
    by (vm_compute; reflexivity).
  eassert (Hk : nth_error (tones (since waltz waltz_run)) 3 = Some _)
    by (vm_compute; reflexivity).
  destruct (click_times_increase waltz waltz_run 120 2 10 [1 # 2; 1] 0 3
              _ _ eq_refl eq_refl ltac:(lia) eq_refl ltac:(lia) Hrun
              ltac:(lia) Hj Hk) as (a & c & Ha & Hc & Hlt).
  eexists. eexists. exists a, c.
  split; [exact Hj |]. split; [exact Hk |].
  split; [exact Ha |]. split; [exact Hc | exact Hlt].
Defined.

(* ------------------------------------------------------------------ *)

(** X6. Timeout delays.  In a session with a stored tempo and subdivision,
    every delay handed to [setTimeout] for the beat callback is a finite
    number of milliseconds in [0, 100): 0 for an overdue click, otherwise
    the lead of the click over the clock, which the lookahead window keeps
    under 100 ms. *)
Theorem timeout_delays_bounded (w0 w : world) (b s : Z) (fuel : nat)
        (nows : list Q) :
  isRunning w0 = false ->
  _bpm w0 = int b -> (20 <= b <= 300)%Z ->
  _subdivision w0 = int s -> (1 <= s)%Z ->
  session fuel nows w0 = Ret w ->
  Forall delay_ok (delays (since w0 w)).
Proof.
  intros Hstop Ebpm Hb Esub Hs Hrun. unfold session in Hrun.
  destruct (start fuel w0) as [w1| |] eqn:E; simpl in Hrun;
    try discriminate.
  assert (H1 : punctual b s (log w0) w1).
  { apply (start_rule (punctual b s (log w0)) fuel w0 w1
             (punctual_iteration b s (log w0))
             (punctual_setInterval b s (log w0)) Hstop); [| exact E].
    apply punctual_before_first_pass; try assumption; lia. }
  destruct (ticks_rule (punctual b s (log w0))
              (punctual_iteration b s (log w0))
              (punctual_set_clock b s (log w0)) fuel nows w1 w H1 Hrun)
    as (_ & _ & evs & Hlog & Hall).
  rewrite (since_app w0 w evs Hlog). exact Hall.
Qed.

Lemma timeout_delays_bounded_witness :
  Forall delay_ok (delays (since waltz waltz_run)).
Proof.
  assert (Hrun : session 10 [1 # 2; 1] waltz = Ret waltz_run)
    by (vm_compute; reflexivity).
  exact (timeout_delays_bounded waltz waltz_run 120 2 10 [1 # 2; 1]
           eq_refl eq_refl ltac:(lia) eq_refl ltac:(lia) Hrun).
Defined.

(** X7. A pass is not repeated.  When a scheduling pass has returned, a
    second pass at the same clock reading returns at once and schedules
    nothing: the cursor is already outside the window, so polling more
    often never schedules a click twice. *)
Theorem pass_twice_schedules_once (fuel fuel' : nat) (w w' : world) :
  _schedule fuel w = Ret w' -> _schedule fuel' w' = Ret w'.
Proof.
  intro Hrun.
  destruct (_audioCtx w) as [ctx|] eqn:Hctx;
    [| unfold _schedule in Hrun; rewrite Hctx in Hrun; discriminate].
  destruct (schedule_calls fuel w w' ctx Hctx Hrun)
    as ((_ & _ & _ & _ & E5 & _) & _ & Hlt).
  unfold _schedule. rewrite E5, Hctx.
  apply schedule_loop_exit, Hlt.
Qed.

Lemma pass_twice_schedules_once_witness :
  _schedule 3 caught_up = Ret caught_up.
Proof.
  apply (pass_twice_schedules_once 10 3 overdue caught_up).
  vm_compute. reflexivity.
Defined.

(** X8. The first click.  [start()] on a stopped metronome schedules the
    first click in its own pass, before any timer tick, when the safety
    margin is under the 0.1 s window: the accent of beat 0 at the anchor,
    with its callback timeout.  With a margin of 0.1 s or more [start()]
    schedules no click at all and the first one waits for a tick. *)
Theorem start_schedules_first_click (fuel : nat) (w w' : world) :
  isRunning w = false ->
  start fuel w = Ret w' ->
  (latency_or_default (start_ctx w) < 1 # 10 ->
   exists tn,
     nth_error (clicks (since w w')) 0 = Some (int 0, int 0)
     /\ nth_error (tones (since w w')) 0 = Some tn
     /\ startTime tn = Fin (anchor_of (start_ctx w))
     /\ frequency tn = int 1500
     /\ nth_error (timeouts (since w w')) 0 = Some (int 0))
  /\ (1 # 10 <= latency_or_default (start_ctx w) ->
      clicks (since w w') = []).
Proof.
  intros Hstop Hrun. rewrite start_eq in Hrun by assumption.
  destruct (_schedule fuel (before_first_pass w)) as [w6| |] eqn:E6;
    simpl in Hrun; try discriminate.
  injection Hrun as <-.
  destruct (before_first_pass_spec w)
    as (_ & Hctx & Hbeat & Hsub & Ht & pre & Hlog & Hpre).
  destruct (setup_calls_silent pre Hpre) as (Hc0 & Ht0 & Hn0).
  unfold _schedule in E6. rewrite Hctx in E6.
  set (ctx := start_ctx w) in *.
  set (w5 := before_first_pass w) in *.
  assert (Hu : add (Fin (currentTime ctx)) SCHEDULE_AHEAD_TIME
               = Fin (currentTime ctx + (1 # 10))) by reflexivity.
  rewrite Hu in E6. split.
  - intro Hm.
    assert (Hlt : lt (_nextBeatTime w5) (Fin (currentTime ctx + (1 # 10)))
                  = true).
    { rewrite Ht. apply lt_Fin. lra. }
    destruct fuel as [|fuel];
      [cbn [schedule_loop] in E6; rewrite Hlt in E6; discriminate |].
    rewrite (schedule_loop_enter fuel _ w5 Hlt) in E6.
    destruct (scheduleClick_calls w5 ctx (_currentBeat w5)
                (_currentSubdiv w5) (_nextBeatTime w5) Hctx)
      as (evs1 & Hret & tn & Hevs & Htn).
    destruct (scheduleClick_rule _ _ _ _ _ Hret) as (evs' & Hlog' & Hrule & _).
    change (log (with_log (log w5 ++ evs1) w5)) with (log w5 ++ evs1)
      in Hlog'.
    apply app_inv_head in Hlog'. subst evs'.
    rewrite Hret in E6. change (bind (Ret ?a) ?k) with (k a) in E6.
    cbv beta in E6.
    destruct (schedule_loop_log _ _ _ _ E6) as (rest & Hrest).
    rewrite advanceBeat_log in Hrest.
    change (log (with_log (log w5 ++ evs1) w5)) with (log w5 ++ evs1)
      in Hrest.
    rewrite Hbeat, Hsub in Hevs.
    change (eq (int 0) (int 0)) with true in Hevs. cbv iota in Hevs.
    rewrite Hevs in Hrule. apply Forall_inv in Hrule.
    destruct Hrule as (Hfreq & _).
    exists tn.
    rewrite (since_app w _ (pre ++ evs1 ++ rest
                            ++ [SetInterval (nextHandle w6)
                                  LOOKAHEAD_INTERVAL]));
      [| unfold setInterval; cbn [log];
         rewrite Hrest, Hlog, <- !app_assoc; reflexivity].
    rewrite !clicks_app, !tones_app, !timeouts_app, Hc0, Hn0, Ht0, Hevs.
    simpl. split; [reflexivity |]. split; [reflexivity |].
    split; [rewrite Htn; exact Ht |].
    split; [apply Hfreq; reflexivity | reflexivity].
  - intro Hm.
    assert (Hge : lt (_nextBeatTime w5) (Fin (currentTime ctx + (1 # 10)))
                  = false).
    { rewrite Ht. apply Qlt_bool_false. lra. }
    rewrite (schedule_loop_exit fuel _ w5 Hge) in E6. injection E6 as <-.
    rewrite (since_app w _ (pre ++ [SetInterval (nextHandle w5)
                                      LOOKAHEAD_INTERVAL]));
      [| unfold setInterval; cbn [log];
         rewrite Hlog, <- app_assoc; reflexivity].
    rewrite clicks_app, Hc0. reflexivity.
Qed.

Lemma start_schedules_first_click_witness :
  (exists tn,
      nth_error (clicks (since fresh playing)) 0 = Some (int 0, int 0)
      /\ nth_error (tones (since fresh playing)) 0 = Some tn
      /\ startTime tn = Fin (anchor_of (start_ctx fresh))
      /\ frequency tn = int 1500
      /\ nth_error (timeouts (since fresh playing)) 0 = Some (int 0))
  /\ clicks (since laggy laggy_started) = [].
Proof.
  assert (Hrun : start 4 fresh = Ret playing) by (vm_compute; reflexivity).
  assert (Hlag : start 4 laggy = Ret laggy_started)
    by (vm_compute; reflexivity).
  split.
  - apply (proj1 (start_schedules_first_click 4 fresh playing eq_refl Hrun)).
    reflexivity.
  - apply (proj2 (start_schedules_first_click 4 laggy laggy_started
                    eq_refl Hlag)).
    unfold Qle. simpl. lia.
Defined.

(* ------------------------------------------------------------------ *)

(** X9. Changing meter and subdivision while running.  Setting a meter
    [M >= 1] and a subdivision [S >= 1] on a running metronome leaves the
    next-event time where it was and puts the cursor at beat 0,
    subdivision 0; the clicks of the passes that follow enumerate
    [0, M) x [0, S) from there, the [k]-th carrying
    [(floor(k / S) mod M, k mod S)]. *)
Theorem meter_change_restarts_sequence (w : world) (ctx : AudioContext)
        (b M S : Z) (t : Q) (nows : list Q) :
  _audioCtx w = Some ctx ->
  _bpm w = int b -> (20 <= b <= 300)%Z ->
  _nextBeatTime w = Fin t ->
  (1 <= M)%Z -> (1 <= S)%Z ->
  let w1 := set_subdivision (int S) (set_beatsPerMeasure (int M) w) in
  cursor w1 = (int 0, int 0, Fin t)
  /\ exists fuel0,
       forall fuel, (fuel0 <= fuel)%nat ->
         exists w',
           ticks fuel nows w1 = Ret w'
           /\ forall k p,
                nth_error (clicks (since w1 w')) k = Some p ->
                p = cursor_at M S (Z.of_nat k).
Proof.
  intros Hctx Ebpm Hb Ht HM HS w1.
  assert (ES : _subdivision w1 = int S).
  { subst w1. unfold int at 1. rewrite set_subdivision_Fin, Qfloor_Z.
    f_equal. lia. }
  assert (Hcur : cursor w1 = (int 0, int 0, Fin t)).
  { subst w1. unfold cursor. cbn. rewrite Ht. reflexivity. }
  split; [exact Hcur |].
  assert (Hr : ready b S w1).
  { unfold ready. repeat split; try lia; try assumption. exists ctx.
    exact Hctx. }
  assert (Ht1 : _nextBeatTime w1 = Fin t) by exact Ht.
  destruct (ticks_total b S nows w1 t Hr Ht1)
    as (fuel0 & w' & _ & Hrun & _).
  exists fuel0. intros fuel Hfuel. exists w'.
  pose proof (ticks_fuel fuel0 fuel nows Hfuel w1 w' Hrun) as Hrun'.
  split; [exact Hrun' |].
  assert (Hseq : sequencing M S (log w1) w1).
  { split; [reflexivity |]. split; [exact ES |].
    exists []. split; [rewrite app_nil_r; reflexivity |].
    unfold in_sequence. simpl. unfold cursor_at.
    rewrite Z.div_0_l, !Z.mod_0_l by lia. repeat split. }
  destruct (sequencing_ticks M S ltac:(lia) ltac:(lia) (log w1) fuel nows
              w1 w' Hseq Hrun')
    as (_ & _ & evs & Hlog & Hclicks & _).
  intros k p Hk. rewrite (since_app w1 w' evs Hlog) in Hk.
  rewrite Hclicks in Hk. apply (nth_error_map_seq _ _ _ _ Hk).
Qed.

Lemma meter_change_restarts_sequence_witness :
  let w1 := set_subdivision (int 2) (set_beatsPerMeasure (int 3) playing) in
  cursor w1 = (int 0, int 0, Fin (60600 # 120000))
  /\ exists fuel0,
       forall fuel, (fuel0 <= fuel)%nat ->
         exists w',
           ticks fuel [1; 2] w1 = Ret w'
           /\ forall k p,
                nth_error (clicks (since w1 w')) k = Some p ->
                p = cursor_at 3 2 (Z.of_nat k).
Proof.
  assert (E1 : _audioCtx playing = Some sample_ctx)
    by (vm_compute; reflexivity).
  assert (E2 : _bpm playing = int 120) by (vm_compute; reflexivity).
  assert (E3 : _nextBeatTime playing = Fin (60600 # 120000))
    by (vm_compute; reflexivity).
  exact (meter_change_restarts_sequence playing sample_ctx 120 3 2
           (60600 # 120000) [1; 2] E1 E2 ltac:(lia) E3 ltac:(lia)
           ltac:(lia)).
Defined.

(* ------------------------------------------------------------------ *)

(** X10. The sequence survives recovery.  After [start()] on a stopped
    metronome with meter [M >= 1] and subdivision [S >= 1], whatever
    happens while it runs (passes, clock readings, visibility changes with
    their re-anchor, audio-context state changes with theirs, tempo and
    volume changes), the [k]-th click still carries
    [(floor(k / S) mod M, k mod S)] and timeouts are set for exactly the
    clicks with subdivision index 0: a re-anchor moves the time of the
    next click, never its place in the measure.  With a stored tempo and
    finite tempo inputs the run returns. *)
Theorem sequence_survives_recovery (w0 : world) (M S : Z)
        (hs : list happening) :
  isRunning w0 = false ->
  _beatsPerMeasure w0 = int M -> (1 <= M)%Z ->
  _subdivision w0 = int S -> (1 <= S)%Z ->
  (forall fuel w,
      run fuel hs w0 = Ret w ->
      (forall k p,
          nth_error (clicks (since w0 w)) k = Some p ->
          p = cursor_at M S (Z.of_nat k))
      /\ timeouts (since w0 w)
         = map fst (filter (fun p => eq (snd p) (int 0))
                      (clicks (since w0 w))))
  /\ (forall b,
        _bpm w0 = int b -> (20 <= b <= 300)%Z -> Forall finite_tempo hs ->
        exists fuel0,
          forall fuel, (fuel0 <= fuel)%nat ->
            exists w, run fuel hs w0 = Ret w).
Proof.
  intros Hstop EM HM ES HS. split.
  - intros fuel w Hrun.
    destruct (run_sequencing M S fuel hs w0 w ltac:(lia) ltac:(lia)
                Hstop EM ES Hrun)
      as (_ & _ & evs & Hlog & Hclicks & Htimeouts & _).
    rewrite (since_app w0 w evs Hlog). split; [| exact Htimeouts].
    intros k p Hk. rewrite Hclicks in Hk.
    apply (nth_error_map_seq _ _ _ _ Hk).
  - intros b Ebpm Hb Hfin.
    apply (run_total b S hs w0); try assumption; lia.
Qed.

Lemma sequence_survives_recovery_witness :
  (forall k p,
      nth_error (clicks (since waltz waltz_recovered)) k = Some p ->
      p = cursor_at 3 2 (Z.of_nat k))
  /\ length (clicks (since waltz waltz_recovered)) = 7%nat.
Proof.
  assert (Hrun : run 20 recovery_story waltz = Ret waltz_recovered)
    by (vm_compute; reflexivity).
  split.
  - apply (proj1 (sequence_survives_recovery waltz 3 2 recovery_story
                    eq_refl eq_refl ltac:(lia) eq_refl ltac:(lia))
             20%nat waltz_recovered Hrun).
  - vm_compute. reflexivity.
Defined.

(* ------------------------------------------------------------------ *)

(** X11. Recovery moves only the time.  The visibility handler and the
    [statechange] event leave the meter, the subdivision, both cursor
    indices, the run state, the timers, the tempo and the volume as they
    are, and add nothing to the log but resume and wake-lock requests.  On
    a hidden page or a stopped metronome the visibility handler does
    nothing at all; on a stopped metronome, or for a state other than
    running, a state change leaves the next-event time alone too. *)
Theorem recovery_moves_only_the_time (visible : bool) (s : ctx_state)
        (w : world) :
  undisturbed w (visibilitychange_listener visible w)
  /\ undisturbed w (statechange s w)
  /\ _bpm (visibilitychange_listener visible w) = _bpm w
  /\ _volume (visibilitychange_listener visible w) = _volume w
  /\ _bpm (statechange s w) = _bpm w
  /\ _volume (statechange s w) = _volume w
  /\ (visible = false \/ isRunning w = false ->
      visibilitychange_listener visible w = w)
  /\ (isRunning w = false \/ s <> running ->
      _nextBeatTime (statechange s w) = _nextBeatTime w).
Proof.
  split; [apply visibilitychange_undisturbed |].
  split; [apply statechange_undisturbed |].
  assert (Hv : _bpm (visibilitychange_listener visible w) = _bpm w
               /\ _volume (visibilitychange_listener visible w) = _volume w).
  { unfold visibilitychange_listener, requestWakeLock, recoverPlayback.
    destruct (visible && isRunning w); [| split; reflexivity].
    destruct (_audioCtx w) as [c|]; [| split; reflexivity].
    destruct (ctx_state_eqb (state c) suspended
              || ctx_state_eqb (state c) interrupted);
      case_if; split; reflexivity. }
  assert (Hs : _bpm (statechange s w) = _bpm w
               /\ _volume (statechange s w) = _volume w).
  { unfold statechange, set_state, statechange_listener.
    destruct (_audioCtx w) as [c|] eqn:Ec; cbn [_audioCtx with_audioCtx];
      rewrite ?Ec; [| split; reflexivity].
    cbn [_mobileHooked state currentTime baseLatency].
    destruct (_mobileHooked c); [| split; reflexivity].
    case_if; split; reflexivity. }
  destruct Hv as (Hv1 & Hv2). destruct Hs as (Hs1 & Hs2).
  repeat (split; [assumption |]). split.
  - intros [-> | Hstop]; unfold visibilitychange_listener.
    + reflexivity.
    + rewrite Hstop, andb_false_r. reflexivity.
  - intro H. unfold statechange, set_state, statechange_listener.
    destruct (_audioCtx w) as [c|] eqn:Ec; cbn [_audioCtx with_audioCtx];
      rewrite ?Ec; [| reflexivity].
    cbn [_mobileHooked state currentTime baseLatency].
    destruct (_mobileHooked c); [| reflexivity].
    assert (Hcond : ctx_state_eqb s running
                    && isRunning
                         (with_audioCtx
                            (Some (mkCtx s (currentTime c) (baseLatency c)
                                     true)) w) = false).
    { destruct H as [Hstop | Hne].
      - change (isRunning (with_audioCtx ?x w)) with (isRunning w).
        rewrite Hstop. apply andb_false_r.
      - destruct s; try reflexivity. congruence. }
    rewrite Hcond. reflexivity.
Qed.

(* ------------------------------------------------------------------ *)

(** X12. One audio context per page.  On every page the code can reach,
    the log shows exactly one audio context created if the metronome holds
    one and none otherwise, so never more than one; a running metronome
    holds its audio context, and [stop()] does not let go of it. *)
Theorem audio_context_created_once (w : world) :
  reachable w ->
  contexts_created (log w)
  = match _audioCtx w with Some _ => 1%nat | None => 0%nat end
  /\ (contexts_created (log w) <= 1)%nat
  /\ (isRunning w = true -> _audioCtx w <> None)
  /\ _audioCtx (stop w) = _audioCtx w.
Proof.
  intro Hr. destruct (reachable_page_inv w Hr) as (H1 & H2 & _).
  split; [exact H1 |]. split; [rewrite H1; destruct (_audioCtx w); lia |].
  split; [exact H2 |].
  unfold stop. destruct (_intervalId w); reflexivity.
Qed.

Lemma audio_context_created_once_witness :
  contexts_created (log (stop playing)) = 1%nat.
Proof.
  assert (Hr : reachable (stop playing))
    by exact (reachable_step _ _ playing_reachable (step_stop playing)).
  destruct (audio_context_created_once (stop playing) Hr) as (H & _).
  rewrite H.
  assert (E : _audioCtx (stop playing) = Some sample_ctx)
    by (vm_compute; reflexivity).
  rewrite E. reflexivity.
Defined.

(* ------------------------------------------------------------------ *)

(** X13. The interval callback never reads a missing audio context.  On
    every page the code can reach, a live timer's callback does not throw,
    whatever the clock reads and however many iterations it may run; nor
    does [start()]. *)
Theorem interval_callback_never_throws (fuel : nat) (now : Q) (w : world) :
  reachable w ->
  (timers w <> [] -> tick fuel now w <> Throw)
  /\ start fuel w <> Throw.
Proof.
  intro Hr. split.
  - intro Ht.
    pose proof (reachable_timer_live w Hr) as Hlive.
    destruct (reachable_page_inv w Hr) as (_ & H2 & _).
    assert (Hrun : isRunning w = true).
    { unfold isRunning. unfold timer_live in Hlive.
      destruct (_intervalId w); [reflexivity | congruence]. }
    specialize (H2 Hrun).
    unfold tick, _schedule.
    destruct (_audioCtx (set_clock now w)) as [c|] eqn:Ec.
    + apply schedule_loop_never_throws. rewrite Ec. discriminate.
    + unfold set_clock in Ec. destruct (_audioCtx w); [discriminate |].
      congruence.
  - destruct (isRunning w) eqn:E.
    + unfold start. rewrite E. discriminate.
    + rewrite start_eq by exact E.
      destruct (before_first_pass_spec w) as (_ & Hctx & _).
      unfold _schedule. rewrite Hctx.
      pose proof (schedule_loop_never_throws fuel
                    (add (Fin (currentTime (start_ctx w)))
                       SCHEDULE_AHEAD_TIME)
                    (before_first_pass w)) as Hn.
      destruct (schedule_loop fuel _ (before_first_pass w));
        cbn [bind]; [discriminate | | discriminate].
      exfalso. apply Hn; [rewrite Hctx; discriminate | reflexivity].
Qed.

Lemma interval_callback_never_throws_witness :
  tick 0 7 playing <> Throw.
Proof.
  refine (proj1 (interval_callback_never_throws 0 7 playing
                   playing_reachable) _).
  assert (E : timers playing = [1%nat]) by (vm_compute; reflexivity).
  rewrite E. discriminate.
Defined.

(* ------------------------------------------------------------------ *)

(** X14. Timers never leak.  On every page the code can reach, the
    interval timers the log shows set are those it shows cleared plus one
    if the metronome is running; the live handle is positive and below the
    next handle the browser will hand out. *)
Theorem timers_never_leak (w : world) :
  reachable w ->
  intervals_set (log w)
  = (intervals_cleared (log w) + (if isRunning w then 1 else 0))%nat
  /\ Forall (fun h => (1 <= h < nextHandle w)%nat) (timers w).
Proof.
  intro Hr. split.
  - pose proof (reachable_balanced w Hr) as Hb.
    pose proof (reachable_timer_live w Hr) as Hlive.
    unfold balanced in Hb. unfold timer_live in Hlive.
    rewrite Hb, Hlive. unfold isRunning.
    destruct (_intervalId w); reflexivity.
  - apply (reachable_page_inv w Hr).
Qed.

Lemma timers_never_leak_witness :
  intervals_set (log (stop playing))
  = intervals_cleared (log (stop playing)).
Proof.
  assert (Hr : reachable (stop playing))
    by exact (reachable_step _ _ playing_reachable (step_stop playing)).
  destruct (timers_never_leak (stop playing) Hr) as (H & _).
  rewrite H.
  assert (E : isRunning (stop playing) = false) by (vm_compute; reflexivity).
  rewrite E. apply Nat.add_0_r.
Defined.

(* ------------------------------------------------------------------ *)

(** X15. A tempo that is not a number stalls the metronome.  The tempo
    setter stores [NaN] for a [NaN] input; from then on, on a metronome
    that has its audio context, every sequence of interval callbacks
    returns with one iteration allowed per pass, makes at most one more
    click, and once that click is made the next-event time is [NaN]. *)
Theorem nan_tempo_stalls (fuel : nat) (nows : list Q) (w : world) :
  _audioCtx w <> None ->
  _bpm (set_bpm NaN w) = NaN
  /\ exists w',
       ticks (S fuel) nows (set_bpm NaN w) = Ret w'
       /\ (length (clicks (since w w')) <= 1)%nat
       /\ (clicks (since w w') <> [] -> _nextBeatTime w' = NaN).
Proof.
  intro Hc. split; [reflexivity |].
  assert (Hs : stalled (log w) (set_bpm NaN w)).
  { split; [reflexivity |]. exists []. split; [| left; reflexivity].
    unfold set_bpm. cbn [log with_bpm]. rewrite app_nil_r. reflexivity. }
  destruct (stalled_ticks fuel (log w) nows (set_bpm NaN w) Hs)
    as (w' & Hrun & _ & evs & Hlog & Hcl).
  { unfold set_bpm. cbn [_audioCtx with_bpm]. exact Hc. }
  exists w'. split; [exact Hrun |].
  rewrite (since_app w w' evs Hlog).
  destruct Hcl as [-> | (Hlen & Hn)].
  - split; [simpl; lia | congruence].
  - split; [lia | intros _; exact Hn].
Qed.

Lemma nan_tempo_stalls_witness :
  exists w',
    ticks 1 [1 # 2; 1; 2] tempo_lost = Ret w'
    /\ (length (clicks (since playing w')) <= 1)%nat.
Proof.
  assert (Hc : _audioCtx playing <> None).
  { assert (E : _audioCtx playing = Some sample_ctx)
      by (vm_compute; reflexivity).
    rewrite E. discriminate. }
  destruct (nan_tempo_stalls 0 [1 # 2; 1; 2] playing Hc)
    as (_ & w' & Hrun & Hlen & _).
  exists w'. split; [exact Hrun | exact Hlen].
Defined.

(* ------------------------------------------------------------------ *)

(** X16. A [NaN] next-event time silences the run.  With the next-event
    time [NaN], every sequence of passes, clock readings, tempo inputs and
    volume inputs returns whatever the iteration allowance, adds no call
    to the log and leaves the time [NaN]: setting a proper tempo again
    does not bring the clicks back. *)
Theorem nan_cursor_is_silent (fuel : nat) (hs : list happening) (w : world) :
  _nextBeatTime w = NaN -> _audioCtx w <> None -> Forall keeps_anchor hs ->
  exists w', happen fuel hs w = Ret w'
             /\ log w' = log w /\ _nextBeatTime w' = NaN.
Proof.
  intros Hn Hc Hall. revert w Hn Hc.
  induction Hall as [|h hs Hh _ IH]; intros w Hn Hc.
  - exists w. repeat split. exact Hn.
  - destruct (nan_cursor_happen1 fuel h w Hh Hn Hc)
      as (w1 & Hrun & Hlog & Hn1 & Hc1).
    destruct (IH w1 Hn1 Hc1) as (w' & Hrest & Hlog' & Hn').
    exists w'. cbn [happen]. rewrite Hrun. cbn [bind].
    split; [exact Hrest |]. split; [congruence | exact Hn'].
Qed.

Lemma nan_cursor_is_silent_witness :
  exists w',
    happen 0 [SetTempo (int 100); Tick 5; Tick 6] tempo_lost_run = Ret w'
    /\ log w' = log tempo_lost_run.
Proof.
  assert (Hn : _nextBeatTime tempo_lost_run = NaN)
    by (vm_compute; reflexivity).
  assert (Hc : _audioCtx tempo_lost_run <> None).
  { assert (E : _audioCtx tempo_lost_run
                = Some (mkCtx running (1 # 2) (Some (5 # 1000)) false))
      by (vm_compute; reflexivity).
    rewrite E. discriminate. }
  assert (Hall : Forall keeps_anchor [SetTempo (int 100); Tick 5; Tick 6])
    by (repeat constructor).
  destruct (nan_cursor_is_silent 0 _ tempo_lost_run Hn Hc Hall)
    as (w' & Hrun & Hlog & _).
  exists w'. split; [exact Hrun | exact Hlog].
Defined.

(* ================================================================== *)
(** ** The controls: what keeps the tempo and the run state *)
(* ================================================================== *)

Lemma sub_int (a b : Z) : sub (int a) (int b) = int (a - b).
Proof.
  unfold sub, neg, add, int, inject_Z, Qplus, Qopp. simpl.
  rewrite !Z.mul_1_r. reflexivity.
Qed.

(** The tempo setter stores an integer from 20 to 300 for every input
    that is a number. *)
Lemma set_bpm_valid (v : num) (w : world) :
  v <> NaN ->
  exists b : Z, (20 <= b <= 300)%Z /\ _bpm (set_bpm v w) = int b.
Proof.
  intro Hv. destruct v as [| |q|]; [congruence | | |].
  - exists 20%Z. split; [lia | reflexivity].
  - exists (Z.min 300 (Z.max 20 (Qfloor (q + (1 # 2))))).
    split; [lia | apply set_bpm_Fin].
  - exists 300%Z. split; [lia | reflexivity].
Qed.

Lemma set_bpm_int (b : Z) (w : world) :
  _bpm (set_bpm (int b) w) = int (Z.min 300 (Z.max 20 b)).
Proof. unfold int. rewrite set_bpm_Fin, Qfloor_half. reflexivity. Qed.

Lemma schedule_kept (fuel : nat) (w w' : world) :
  _schedule fuel w = Ret w' ->
  _bpm w' = _bpm w /\ isRunning w' = isRunning w.
Proof.
  intro H. destruct (schedule_frame fuel w w' H)
    as ((E1 & _ & _ & _ & _ & E6 & _) & _).
  split; [exact E1 | unfold isRunning; rewrite E6; reflexivity].
Qed.

Lemma start_bpm (fuel : nat) (w w' : world) :
  start fuel w = Ret w' -> _bpm w' = _bpm w.
Proof.
  intro H. destruct (isRunning w) eqn:E.
  - unfold start in H. rewrite E in H. injection H as <-. reflexivity.
  - rewrite start_eq in H by assumption.
    destruct (_schedule fuel (before_first_pass w)) as [w6| |] eqn:E6;
      simpl in H; try discriminate.
    injection H as <-.
    change (_bpm (setInterval LOOKAHEAD_INTERVAL w6)) with (_bpm w6).
    rewrite (proj1 (schedule_kept _ _ _ E6)).
    destruct (before_first_pass_spec w) as ((E1 & _) & _). exact E1.
Qed.

Lemma stop_bpm (w : world) : _bpm (stop w) = _bpm w.
Proof. unfold stop. destruct (_intervalId w); reflexivity. Qed.

Lemma ensure_kept (w : world) :
  _bpm (_ensureAudioContext w) = _bpm w
  /\ isRunning (_ensureAudioContext w) = isRunning w.
Proof. unfold _ensureAudioContext. destruct (_audioCtx w); split; reflexivity. Qed.

Lemma set_clock_kept (now : Q) (w : world) :
  _bpm (set_clock now w) = _bpm w
  /\ isRunning (set_clock now w) = isRunning w.
Proof. unfold set_clock. destruct (_audioCtx w); split; reflexivity. Qed.

Lemma visibilitychange_kept (visible : bool) (w : world) :
  _bpm (visibilitychange_listener visible w) = _bpm w
  /\ isRunning (visibilitychange_listener visible w) = isRunning w.
Proof.
  unfold visibilitychange_listener, requestWakeLock, recoverPlayback.
  destruct (visible && isRunning w); [| split; reflexivity].
  destruct (_audioCtx w) as [c|]; [| split; reflexivity].
  destruct (ctx_state_eqb (state c) suspended
            || ctx_state_eqb (state c) interrupted).
  - destruct (isRunning (emit CtxResume w)) eqn:E; split;
      try reflexivity; exact E.
  - destruct (isRunning w) eqn:E; split; try reflexivity; exact E.
Qed.

Lemma statechange_kept (s : ctx_state) (w : world) :
  _bpm (statechange s w) = _bpm w
  /\ isRunning (statechange s w) = isRunning w.
Proof.
  unfold statechange, set_state, statechange_listener.
  destruct (_audioCtx w) as [c|] eqn:Ec; cbn [_audioCtx with_audioCtx];
    rewrite ?Ec; [| split; reflexivity].
  cbn [_mobileHooked state currentTime baseLatency].
  destruct (_mobileHooked c); [| split; reflexivity].
  match goal with
  | |- context [if ?c then _ else _] => destruct c
  end; split; reflexivity.
Qed.

(* ================================================================== *)
(** ** Tap tempo *)
(* ================================================================== *)

Lemma gaps_length (l : list Z) : length (gaps l) = pred (length l).
Proof.
  induction l as [|a l IH]; [reflexivity |].
  destruct l as [|b l]; [reflexivity |].
  change (gaps (a :: b :: l)) with ((b - a)%Z :: gaps (b :: l)).
  cbn [length]. rewrite IH. reflexivity.
Qed.

(** The intervals of a tap sequence with one more tap. *)
Lemma gaps_snoc (t0 now : Z) (rest : list Z) :
  gaps ((t0 :: rest) ++ [now])
  = gaps (t0 :: rest) ++ [(now - last (t0 :: rest) 0)%Z].
Proof.
  revert t0. induction rest as [|b rest IH]; intro t0; [reflexivity |].
  change (gaps ((t0 :: b :: rest) ++ [now]))
    with ((b - t0)%Z :: gaps ((b :: rest) ++ [now])).
  rewrite IH. reflexivity.
Qed.

Lemma fold_add_acc (l : list Z) (acc : Z) :
  fold_left Z.add l acc = (acc + fold_left Z.add l 0)%Z.
Proof.
  revert acc. induction l as [|g l IH]; intro acc; simpl; [lia |].
  rewrite (IH (acc + g)%Z), (IH g). lia.
Qed.

(** The intervals add up to the time from the first tap to the last. *)
Lemma gaps_sum (t0 now : Z) (rest : list Z) :
  fold_left Z.add (gaps ((t0 :: rest) ++ [now])) 0%Z = (now - t0)%Z.
Proof.
  revert t0. induction rest as [|b rest IH]; intro t0; [reflexivity |].
  change (gaps ((t0 :: b :: rest) ++ [now]))
    with ((b - t0)%Z :: gaps ((b :: rest) ++ [now])).
  cbn [fold_left]. rewrite fold_add_acc, IH. lia.
Qed.

Lemma gaps_sum_bounds (l : list Z) :
  Forall (fun g => (0 <= g <= TAP_RESET_MS)%Z) l ->
  (0 <= fold_left Z.add l 0 <= TAP_RESET_MS * Z.of_nat (length l))%Z.
Proof.
  unfold TAP_RESET_MS.
  induction 1 as [|g l Hg _ IH]; [simpl; lia |].
  cbn [fold_left length]. rewrite fold_add_acc. lia.
Qed.

(** The tempo a tap stores: [Math.round(60000 / avgInterval)] through the
    setter, for intervals that add up to [s] and are [n] in number. *)
Lemma tap_value (s n : Z) (w : world) :
  (1 <= n)%Z ->
  exists b : Z,
    (20 <= b <= 300)%Z
    /\ _bpm (set_bpm (round (div (int 60000) (div (int s) (int n)))) w)
       = int b
    /\ ((0 <= s <= 2000 * n)%Z -> (30 <= b)%Z).
Proof.
  intro Hn.
  assert (Hd : div (int s) (int n) = Fin (inject_Z s / inject_Z n)).
  { unfold div, int. rewrite inject_Z_nonzero by lia. reflexivity. }
  rewrite Hd. set (a := inject_Z s / inject_Z n).
  unfold int at 1. cbn [div].
  destruct (Qeq_bool a 0) eqn:Ea.
  - exists 300%Z. split; [lia |]. split; [reflexivity | lia].
  - set (x := inject_Z 60000 / a).
    change (round (Fin x)) with (int (Qfloor (x + (1 # 2)))).
    rewrite set_bpm_int.
    exists (Z.min 300 (Z.max 20 (Qfloor (x + (1 # 2))))).
    split; [lia |]. split; [reflexivity |].
    intros (Hs0 & Hs1).
    assert (Hpos : 0 < inject_Z n)
      by (change 0 with (inject_Z 0); rewrite <- Zlt_Qlt; lia).
    assert (Ha0 : 0 <= a).
    { unfold a. apply Qle_shift_div_l; [exact Hpos |].
      rewrite Qmult_0_l. change 0 with (inject_Z 0).
      rewrite <- Zle_Qle. exact Hs0. }
    assert (Ha1 : a <= 2000).
    { unfold a. apply Qle_shift_div_r; [exact Hpos |].
      change 2000 with (inject_Z 2000).
      rewrite <- inject_Z_mult, <- Zle_Qle. exact Hs1. }
    assert (Hane : ~ a == 0) by (apply Qeq_bool_neq; exact Ea).
    assert (Ha : 0 < a) by (apply Qle_lteq in Ha0; destruct Ha0 as [H | H];
                            [exact H | exfalso; apply Hane; symmetry; exact H]).
    assert (Hx : 30 <= x).
    { unfold x. apply Qle_shift_div_l; [exact Ha |].
      change (inject_Z 60000) with 60000. lra. }
    assert (Hz : (30 <= Qfloor (x + (1 # 2)))%Z).
    { rewrite <- (Qfloor_Z 30). apply Qfloor_resp_le.
      change (inject_Z 30) with 30. lra. }
    lia.
Qed.

(** What a tap does, case by case. *)
Lemma tap_first (now : Z) (p : page) :
  tapTimes p = [] -> tap now p = with_tapTimes [now] p.
Proof. intro H. unfold tap. rewrite H. reflexivity. Qed.

Lemma tap_reset (now : Z) (p : page) :
  tapTimes p <> [] ->
  (TAP_RESET_MS < now - last (tapTimes p) 0)%Z ->
  tap now p = with_tapTimes [now] p.
Proof.
  intros Hne Hlate. unfold tap.
  destruct (tapTimes p) as [|t0 rest] eqn:E; [congruence |].
  apply Z.ltb_lt in Hlate. rewrite Hlate. reflexivity.
Qed.

Lemma tap_next (now t0 : Z) (rest : list Z) (p : page) :
  tapTimes p = t0 :: rest ->
  (now - last (t0 :: rest) 0 <= TAP_RESET_MS)%Z ->
  tap now p
  = setBpm
      (round
         (div (int 60000)
            (div (int (now - t0)) (int (Z.of_nat (length (t0 :: rest)))))))
      (with_tapTimes ((t0 :: rest) ++ [now]) p).
Proof.
  intros E Hlate. unfold tap. rewrite E.
  assert (Hl : (TAP_RESET_MS <? now - last (t0 :: rest) 0)%Z = false)
    by (apply Z.ltb_ge; exact Hlate).
  rewrite Hl.
  change (negb (length (t0 :: rest) =? 0)%nat && false) with false.
  cbv iota.
  assert (H2 : (2 <=? length ((t0 :: rest) ++ [now]))%nat = true)
    by (apply Nat.leb_le; rewrite length_app; simpl; lia).
  rewrite H2, gaps_sum, gaps_length, length_app.
  replace (pred (length (t0 :: rest) + length [now]))
    with (length (t0 :: rest)) by (simpl; lia).
  reflexivity.
Qed.

(** Every tap leaves the tempo or stores an integer from 20 to 300. *)
Lemma tap_any (now : Z) (p : page) : tempo_kept_or_within 20 p (tap now p).
Proof.
  destruct (tapTimes p) as [|t0 rest] eqn:E.
  - rewrite tap_first by exact E. left. reflexivity.
  - destruct (Z.ltb_spec TAP_RESET_MS (now - last (t0 :: rest) 0%Z))
      as [H | H].
    + rewrite tap_reset;
        [| rewrite E; discriminate | rewrite E; exact H].
      left. reflexivity.
    + rewrite (tap_next now t0 rest p E H).
      destruct (tap_value (now - t0) (Z.of_nat (length (t0 :: rest)))
                  (metronome p)) as (b & Hb & Hv & _); [simpl; lia |].
      right. exists b. split; [exact Hb | exact Hv].
Qed.

(** With a clock that does not go back, a tap keeps the times spaced and
    leaves the tempo or stores an integer from 30 to 300. *)
Lemma tap_spaced (now : Z) (p : page) :
  spaced (tapTimes p) ->
  (tapTimes p <> [] -> (last (tapTimes p) 0 <= now)%Z) ->
  spaced (tapTimes (tap now p))
  /\ last (tapTimes (tap now p)) 0%Z = now
  /\ tapTimes (tap now p) <> []
  /\ tempo_kept_or_within 30 p (tap now p).
Proof.
  intros Hsp Hmono.
  destruct (tapTimes p) as [|t0 rest] eqn:E.
  - rewrite tap_first by exact E.
    split; [constructor |]. split; [reflexivity |].
    split; [discriminate | left; reflexivity].
  - specialize (Hmono ltac:(discriminate)).
    destruct (Z.ltb_spec TAP_RESET_MS (now - last (t0 :: rest) 0%Z))
      as [H | H].
    + rewrite tap_reset;
        [| rewrite E; discriminate | rewrite E; exact H].
      split; [constructor |]. split; [reflexivity |].
      split; [discriminate | left; reflexivity].
    + rewrite (tap_next now t0 rest p E H).
      change (tapTimes (setBpm ?v (with_tapTimes ?l p))) with l.
      assert (Hsp' : spaced ((t0 :: rest) ++ [now])).
      { unfold spaced. rewrite gaps_snoc. apply Forall_app.
        split; [exact Hsp |]. constructor; [lia | constructor]. }
      split; [exact Hsp' |]. split; [apply last_last |].
      split; [destruct rest; discriminate |].
      pose proof (gaps_sum_bounds _ Hsp') as Hsum.
      rewrite gaps_sum, gaps_length, length_app in Hsum.
      destruct (tap_value (now - t0) (Z.of_nat (length (t0 :: rest)))
                  (metronome p)) as (b & Hb & Hv & H30); [simpl; lia |].
      right. exists b. split; [| exact Hv].
      split; [| lia]. apply H30.
      unfold TAP_RESET_MS in Hsum. simpl length in *. lia.
Qed.

Lemma tempo_kept_or_within_trans (lo : Z) (p p1 p2 : page) :
  tempo_kept_or_within lo p p1 -> tempo_kept_or_within lo p1 p2 ->
  tempo_kept_or_within lo p p2.
Proof.
  intros H1 [H2 | H2]; [| right; exact H2].
  destruct H1 as [H1 | (b & Hb & H1)].
  - left. congruence.
  - right. exists b. split; [exact Hb | congruence].
Qed.

Lemma taps_any (nows : list Z) :
  forall p, tempo_kept_or_within 20 p (taps nows p).
Proof.
  induction nows as [|now nows IH]; intro p; [left; reflexivity |].
  exact (tempo_kept_or_within_trans 20 p (tap now p) _
           (tap_any now p) (IH (tap now p))).
Qed.

Lemma taps_spaced (nows : list Z) :
  forall p,
    StronglySorted Z.le nows ->
    spaced (tapTimes p) ->
    (tapTimes p <> [] -> Forall (Z.le (last (tapTimes p) 0%Z)) nows) ->
    tempo_kept_or_within 30 p (taps nows p).
Proof.
  induction nows as [|now nows IH]; intros p Hsorted Hsp Hmono;
    [left; reflexivity |].
  inversion Hsorted as [|? ? Hrest Hall]; subst.
  destruct (tap_spaced now p Hsp) as (Hsp1 & Hlast & _ & Hkw).
  { intro Hne. specialize (Hmono Hne). inversion Hmono; assumption. }
  apply (tempo_kept_or_within_trans 30 p (tap now p) _ Hkw).
  apply IH; [exact Hrest | exact Hsp1 |].
  intros _. rewrite Hlast. exact Hall.
Qed.

(* ================================================================== *)
(** ** The controls: the button and the readout *)
(* ================================================================== *)

Lemma in_sync_metronome (m : world) (p : page) :
  isRunning m = isRunning (metronome p) ->
  in_sync p -> in_sync (with_metronome m p).
Proof.
  intros E (H1 & H2). unfold in_sync.
  cbn [metronome startStopText startStopClass with_metronome].
  rewrite E. split; assumption.
Qed.

(** After a click on the button, it says what the next click will do. *)
Lemma startStop_click_in_sync (fuel : nat) (p p' : page) :
  startStop_click fuel p = Ret p' -> in_sync p'.
Proof.
  unfold startStop_click. destruct (isRunning (metronome p)) eqn:E; intro H.
  - injection H as <-. unfold in_sync.
    cbn [metronome startStopText startStopClass with_metronome
         with_startStop with_beat].
    rewrite stop_stopped. split; reflexivity.
  - destruct (_audioCtx (_ensureAudioContext (metronome p)));
      [| discriminate].
    destruct (start fuel (emit CtxResume (_ensureAudioContext (metronome p))))
      as [m3| |] eqn:E3; simpl in H; try discriminate.
    injection H as <-. unfold in_sync.
    cbn [metronome startStopText startStopClass with_metronome
         with_startStop].
    rewrite (start_running _ _ _ E3). split; reflexivity.
Qed.

Lemma tap_in_sync (now : Z) (p : page) : in_sync p -> in_sync (tap now p).
Proof.
  intro H. unfold tap.
  destruct (negb (length (tapTimes p) =? 0)%nat
            && (TAP_RESET_MS <? now - last (tapTimes p) 0)%Z);
    case_if; exact H.
Qed.

Lemma handle_in_sync (fuel : nat) (e : event) (p p' : page) :
  in_sync p -> handle fuel e p = Ret p' -> in_sync p'.
Proof.
  intros Hs H. destruct e; cbn [handle] in H.
  - exact (startStop_click_in_sync fuel p p' H).
  - injection H as <-. exact Hs.
  - injection H as <-. exact Hs.
  - injection H as <-. exact Hs.
  - injection H as <-. exact Hs.
  - injection H as <-. unfold commit. destruct (negb (isNaN val)); exact Hs.
  - injection H as <-. exact Hs.
  - injection H as <-. exact Hs.
  - injection H as <-. exact Hs.
  - injection H as <-. apply tap_in_sync, Hs.
  - unfold keydown in H. destruct typing; [injection H as <-; exact Hs |].
    destruct (String.eqb key " ");
      [exact (startStop_click_in_sync fuel p p' H) |].
    destruct (String.eqb key "ArrowUp"); [injection H as <-; exact Hs |].
    destruct (String.eqb key "ArrowDown"); [injection H as <-; exact Hs |].
    destruct (String.eqb key "t" || String.eqb key "T");
      injection H as <-; [apply tap_in_sync |]; exact Hs.
  - unfold touchstart in H.
    destruct (_audioCtx (_ensureAudioContext (metronome p))) as [c|];
      [| discriminate].
    injection H as <-. apply in_sync_metronome; [| exact Hs].
    destruct (ctx_state_eqb (state c) suspended); apply ensure_kept.
  - destruct (tick fuel now (metronome p)) as [m| |] eqn:E; simpl in H;
      try discriminate.
    injection H as <-. apply in_sync_metronome; [| exact Hs].
    unfold tick in E. rewrite (proj2 (schedule_kept _ _ _ E)).
    apply set_clock_kept.
  - injection H as <-. apply in_sync_metronome; [| exact Hs].
    apply set_clock_kept.
  - injection H as <-. apply in_sync_metronome; [| exact Hs].
    apply visibilitychange_kept.
  - injection H as <-. apply in_sync_metronome; [| exact Hs].
    apply statechange_kept.
  - injection H as <-. exact Hs.
Qed.

Lemma handle_all_rule (P : page -> Prop) (fuel : nat) (es : list event) :
  (forall e q q', In e es -> P q -> handle fuel e q = Ret q' -> P q') ->
  forall p p', P p -> handle_all fuel es p = Ret p' -> P p'.
Proof.
  induction es as [|e es IH]; intros Hstep p p' HP H; cbn [handle_all] in H.
  - injection H as <-. exact HP.
  - destruct (handle fuel e p) as [p1| |] eqn:E; simpl in H;
      try discriminate.
    apply (IH (fun e0 q q' Hin => Hstep e0 q q' (or_intror Hin)) p1 p');
      [| exact H].
    exact (Hstep e p p1 (or_introl Logic.eq_refl) HP E).
Qed.

Lemma tempo_shown_metronome (m : world) (p : page) :
  _bpm m = _bpm (metronome p) ->
  tempo_shown p -> tempo_shown (with_metronome m p).
Proof.
  intros E (b & Hb & H1 & H2 & H3). exists b.
  cbn [metronome bpmValueEl storedBpm with_metronome].
  rewrite E. repeat split; assumption || apply Hb.
Qed.

Lemma tempo_shown_setBpm (v : num) (p : page) :
  v <> NaN -> tempo_shown (setBpm v p).
Proof.
  intro Hv. destruct (set_bpm_valid v (metronome p) Hv) as (b & Hb & E).
  exists b. split; [exact Hb |].
  split; [exact E |]. split; exact E.
Qed.

Lemma tempo_shown_update (p : page) :
  tempo_shown p -> tempo_shown (updateBpmDisplay (_bpm (metronome p)) p).
Proof.
  intros (b & Hb & H1 & H2 & H3). exists b.
  split; [exact Hb |]. split; [exact H1 |]. split; [exact H1 | exact H3].
Qed.

Lemma tempo_shown_nudge (d : Z) (p : page) :
  tempo_shown p ->
  tempo_shown (setBpm (add (_bpm (metronome p)) (int d)) p).
Proof.
  intros (b & _ & H1 & _). apply tempo_shown_setBpm.
  rewrite H1, add_int. discriminate.
Qed.

Lemma tempo_shown_tap (now : Z) (p : page) :
  tempo_shown p -> tempo_shown (tap now p).
Proof.
  intro Hs. destruct (tapTimes p) as [|t0 rest] eqn:E.
  - rewrite tap_first by exact E. exact Hs.
  - destruct (Z.ltb_spec TAP_RESET_MS (now - last (t0 :: rest) 0%Z))
      as [H | H].
    + rewrite tap_reset;
        [| rewrite E; discriminate | rewrite E; exact H].
      exact Hs.
    + rewrite (tap_next now t0 rest p E H).
      destruct (tap_value (now - t0) (Z.of_nat (length (t0 :: rest)))
                  (metronome p)) as (b & Hb & Hv & _); [simpl; lia |].
      exists b. split; [exact Hb |].
      split; [exact Hv |]. split; exact Hv.
Qed.

Lemma startStop_click_bpm (fuel : nat) (p p' : page) :
  startStop_click fuel p = Ret p' ->
  _bpm (metronome p') = _bpm (metronome p)
  /\ bpmValueEl p' = bpmValueEl p /\ storedBpm p' = storedBpm p.
Proof.
  unfold startStop_click. destruct (isRunning (metronome p)); intro H.
  - injection H as <-. split; [apply stop_bpm | split; reflexivity].
  - destruct (_audioCtx (_ensureAudioContext (metronome p)));
      [| discriminate].
    destruct (start fuel (emit CtxResume (_ensureAudioContext (metronome p))))
      as [m3| |] eqn:E3; simpl in H; try discriminate.
    injection H as <-. split; [| split; reflexivity].
    cbn [metronome with_startStop with_metronome].
    rewrite (start_bpm _ _ _ E3). apply ensure_kept.
Qed.

Lemma startStop_click_tempo_shown (fuel : nat) (p p' : page) :
  tempo_shown p -> startStop_click fuel p = Ret p' -> tempo_shown p'.
Proof.
  intros (b & Hb & H1 & H2 & H3) H.
  destruct (startStop_click_bpm fuel p p' H) as (E1 & E2 & E3).
  exists b. rewrite E1, E2, E3. repeat split; assumption || apply Hb.
Qed.

Lemma handle_tempo_shown (fuel : nat) (e : event) (p p' : page) :
  numeric e -> tempo_shown p -> handle fuel e p = Ret p' -> tempo_shown p'.
Proof.
  intros Hn Hs H. destruct e; cbn [handle] in H.
  - exact (startStop_click_tempo_shown fuel p p' Hs H).
  - injection H as <-. apply (tempo_shown_nudge 1), Hs.
  - injection H as <-. unfold bpmDown_click, sub.
    apply (tempo_shown_nudge (-1)), Hs.
  - injection H as <-. apply tempo_shown_setBpm. discriminate.
  - injection H as <-. apply tempo_shown_setBpm.
    destruct value; [contradiction | discriminate ..].
  - injection H as <-. unfold commit.
    destruct val; cbn [isNaN negb]; apply tempo_shown_update;
      [exact Hs | apply tempo_shown_setBpm; discriminate ..].
  - injection H as <-. exact Hs.
  - injection H as <-. exact Hs.
  - injection H as <-. exact Hs.
  - injection H as <-. apply tempo_shown_tap, Hs.
  - unfold keydown in H. destruct typing; [injection H as <-; exact Hs |].
    destruct (String.eqb key " ");
      [exact (startStop_click_tempo_shown fuel p p' Hs H) |].
    destruct (String.eqb key "ArrowUp");
      [injection H as <-; apply (tempo_shown_nudge 1), Hs |].
    destruct (String.eqb key "ArrowDown");
      [injection H as <-; unfold sub; apply (tempo_shown_nudge (-1)), Hs |].
    destruct (String.eqb key "t" || String.eqb key "T");
      injection H as <-; [apply tempo_shown_tap |]; exact Hs.
  - unfold touchstart in H.
    destruct (_audioCtx (_ensureAudioContext (metronome p))) as [c|];
      [| discriminate].
    injection H as <-. apply tempo_shown_metronome; [| exact Hs].
    destruct (ctx_state_eqb (state c) suspended); apply ensure_kept.
  - destruct (tick fuel now (metronome p)) as [m| |] eqn:E; simpl in H;
      try discriminate.
    injection H as <-. apply tempo_shown_metronome; [| exact Hs].
    unfold tick in E. rewrite (proj1 (schedule_kept _ _ _ E)).
    apply set_clock_kept.
  - injection H as <-. apply tempo_shown_metronome; [| exact Hs].
    apply set_clock_kept.
  - injection H as <-. apply tempo_shown_metronome; [| exact Hs].
    apply visibilitychange_kept.
  - injection H as <-. apply tempo_shown_metronome; [| exact Hs].
    apply statechange_kept.
  - injection H as <-. exact Hs.
Qed.

(* ================================================================== *)
(** ** The beat display *)
(* ================================================================== *)

(** The beat indices of the row-major enumeration at the positions whose
    subdivision index is 0 count up through the measure, cycling; there
    are as many as multiples of [S] below the length. *)
Lemma beats_of_enumeration (M S : Z) (n : nat) :
  (0 < M)%Z -> (0 < S)%Z ->
  exists c : nat,
    map fst (filter (fun p => eq (snd p) (int 0))
               (map (fun k => cursor_at M S (Z.of_nat k)) (seq 0 n)))
    = map (fun j => int (Z.of_nat j mod M)) (seq 0 c)
    /\ (S * (Z.of_nat c - 1) < Z.of_nat n <= S * Z.of_nat c)%Z.
Proof.
  intros HM HS. induction n as [|n (c & IH & Hc)].
  - exists 0%nat. split; [reflexivity | lia].
  - rewrite seq_S, map_app, filter_app, map_app, IH.
    cbn [Nat.add map filter snd cursor_at].
    rewrite eq_int.
    destruct (Z.eqb_spec (Z.of_nat n mod S) 0) as [E | E].
    + assert (Hq : (Z.of_nat n = S * (Z.of_nat n / S))%Z).
      { rewrite (Z.div_mod (Z.of_nat n) S) at 1 by lia. lia. }
      assert (Hqc : (Z.of_nat n / S = Z.of_nat c)%Z) by nia.
      exists (Datatypes.S c). split; [| nia].
      rewrite seq_S, map_app. cbn [Nat.add map fst].
      unfold cursor_at. cbn [fst]. rewrite Hqc. reflexivity.
    + exists c. split; [cbn [map]; apply app_nil_r |].
      assert (Z.of_nat n <> S * Z.of_nat c)%Z.
      { intro Hn. apply E. rewrite Hn, Z.mul_comm. apply Z.mod_mul. lia. }
      lia.
Qed.

(** The beat index the [j]-th timeout of a run in sequence carries. *)
Lemma timeouts_cycle (M S : Z) (evs : list call) (w : world) (j : nat)
    (beat : num) :
  (0 < M)%Z -> (0 < S)%Z -> in_sequence M S evs w ->
  nth_error (timeouts evs) j = Some beat ->
  beat = int (Z.of_nat j mod M).
Proof.
  intros HM HS (Hcl & Hto & _) Hj.
  rewrite Hto, Hcl in Hj.
  destruct (beats_of_enumeration M S (length (clicks evs)) HM HS)
    as (c & Hc & _).
  rewrite Hc in Hj.
  exact (nth_error_map_seq _ _ _ _ Hj).
Qed.

(* ------------------------------------------------------------------ *)

(** The tempo a tap stores is the clamp of an integer nearest to
    [60000 * n / span], for a span other than 0 and [n] intervals. *)
Lemma tap_value_nearest (span n : Z) (w : world) :
  (1 <= n)%Z -> span <> 0%Z ->
  exists z : Z,
    Qabs (inject_Z z - inject_Z 60000 * inject_Z n / inject_Z span) <= 1 # 2
    /\ _bpm (set_bpm (round (div (int 60000) (div (int span) (int n)))) w)
       = int (Z.min 300 (Z.max 20 z)).
Proof.
  intros Hn Hspan.
  assert (Hd : div (int span) (int n) = Fin (inject_Z span / inject_Z n)).
  { unfold div, int. rewrite inject_Z_nonzero by lia. reflexivity. }
  rewrite Hd. set (a := inject_Z span / inject_Z n).
  assert (Hpos : 0 < inject_Z n)
    by (change 0 with (inject_Z 0); rewrite <- Zlt_Qlt; lia).
  assert (Hs0 : ~ inject_Z span == 0).
  { intro H. apply Hspan. unfold Qeq in H. simpl in H. lia. }
  assert (Ha : ~ a == 0).
  { intro H. apply Hs0.
    assert (E : inject_Z span == a * inject_Z n)
      by (unfold a; field; lra).
    rewrite E, H. ring. }
  assert (Ea : Qeq_bool a 0 = false).
  { destruct (Qeq_bool a 0) eqn:E; [| reflexivity].
    apply Qeq_bool_iff in E. contradiction. }
  unfold int at 1. cbn [div]. rewrite Ea.
  set (x := inject_Z 60000 / a).
  change (round (Fin x)) with (int (Qfloor (x + (1 # 2)))).
  rewrite set_bpm_int.
  exists (Qfloor (x + (1 # 2))). split; [| reflexivity].
  assert (Ex : inject_Z 60000 * inject_Z n / inject_Z span == x)
    by (unfold x, a; field; split; assumption || lra).
  rewrite Ex.
  pose proof (Qfloor_le (x + (1 # 2))) as H1.
  pose proof (Qlt_floor (x + (1 # 2))) as H2.
  rewrite inject_Z_plus in H2. change (inject_Z 1) with 1 in H2.
  apply Qabs_Qle_condition. lra.
Qed.

(** X17. Tap tempo reads the first and the last tap.  When a tap comes
    within the reset time of the one before, it is appended; the intervals
    then add up to the time from the first tap to this one, and there are
    as many as earlier taps, so the average the tempo is taken from
    depends on the taps in between only by their number.  The stored
    tempo is the clamp to 20..300 of an integer nearest to
    60000 * (number of earlier taps) / (time since the first tap), either
    neighbour when that is halfway between two integers, where the
    rounding of the two divisions decides; it is 300 when no time has
    passed since the first tap and 20 when the clock has gone back behind
    it.  When a tap comes later than the reset time, it becomes the only
    tap and nothing else on the page changes. *)
Theorem tap_tempo_first_and_last (now t0 : Z) (rest : list Z) (p : page) :
  tapTimes p = t0 :: rest ->
  ((now - last (t0 :: rest) 0 <= TAP_RESET_MS)%Z ->
   tapTimes (tap now p) = t0 :: rest ++ [now]
   /\ fold_left Z.add (gaps (tapTimes (tap now p))) 0%Z = (now - t0)%Z
   /\ length (gaps (tapTimes (tap now p))) = length (t0 :: rest)
   /\ ((t0 < now)%Z ->
       exists z : Z,
         Qabs (inject_Z z
               - inject_Z 60000 * inject_Z (Z.of_nat (length (t0 :: rest)))
                 / inject_Z (now - t0)) <= 1 # 2
         /\ _bpm (metronome (tap now p)) = int (Z.min 300 (Z.max 20 z)))
   /\ (now = t0 -> _bpm (metronome (tap now p)) = int 300)
   /\ ((now < t0)%Z -> _bpm (metronome (tap now p)) = int 20))
  /\ ((TAP_RESET_MS < now - last (t0 :: rest) 0)%Z ->
      tap now p = with_tapTimes [now] p).
Proof.
  intro E. split.
  - intro H. rewrite (tap_next now t0 rest p E H).
    change (tapTimes (setBpm ?v (with_tapTimes ?l p))) with l.
    change (_bpm (metronome (setBpm ?v (with_tapTimes ?l p))))
      with (_bpm (set_bpm v (metronome p))).
    set (n := Z.of_nat (length (t0 :: rest))).
    assert (Hn : (1 <= n)%Z) by (unfold n; simpl; lia).
    split; [reflexivity |]. split; [apply gaps_sum |].
    split; [rewrite gaps_length, length_app; simpl; lia |].
    split; [| split].
    + intro Hlt. apply tap_value_nearest; lia.
    + intros ->. rewrite Z.sub_diag.
      assert (Hd : div (int 0) (int n) = Fin (inject_Z 0 / inject_Z n)).
      { unfold div, int. rewrite inject_Z_nonzero by lia. reflexivity. }
      rewrite Hd. unfold int at 1. cbn [div].
      assert (Hz : Qeq_bool (inject_Z 0 / inject_Z n) 0 = true).
      { apply Qeq_bool_iff. unfold Qdiv. apply Qmult_0_l. }
      rewrite Hz. reflexivity.
    + intro Hlt.
      destruct (tap_value_nearest (now - t0) n (metronome p) Hn
                  ltac:(lia)) as (z & Hz & ->).
      f_equal.
      assert (Hneg : inject_Z 60000 * inject_Z n / inject_Z (now - t0) < 0).
      { assert (H1 : inject_Z (now - t0) < 0)
          by (change 0 with (inject_Z 0); rewrite <- Zlt_Qlt; lia).
        assert (H2 : 0 < inject_Z 60000 * inject_Z n).
        { change 0 with (inject_Z 0). rewrite <- inject_Z_mult, <- Zlt_Qlt.
          lia. }
        set (c := inject_Z 60000 * inject_Z n) in *.
        set (d := inject_Z (now - t0)) in *.
        assert (E1 : c / d == - (c / - d)) by (field; lra).
        rewrite E1.
        assert (0 < c / - d) by (apply Qlt_shift_div_l; lra).
        lra. }
      apply Qabs_Qle_condition in Hz.
      assert (Hz1 : inject_Z z < inject_Z 1)
        by (change (inject_Z 1) with 1; lra).
      rewrite <- Zlt_Qlt in Hz1. lia.
  - intro H. apply tap_reset; rewrite E; [discriminate | exact H].
Qed.

Lemma tap_tempo_first_and_last_witness :
  tapTimes (tap 1000 two_taps) = [0; 500; 1000]%Z
  /\ exists z : Z,
       Qabs (inject_Z z - inject_Z 60000 * inject_Z 2 / inject_Z 1000)
       <= 1 # 2
       /\ _bpm (metronome (tap 1000 two_taps))
          = int (Z.min 300 (Z.max 20 z)).
Proof.
  assert (E : tapTimes two_taps = [0; 500]%Z) by (vm_compute; reflexivity).
  destruct (tap_tempo_first_and_last 1000 0 [500%Z] two_taps E) as (H & _).
  destruct H as (H1 & _ & _ & H2 & _); [vm_compute; discriminate |].
  split; [exact H1 |]. apply H2. lia.
Defined.

(* ------------------------------------------------------------------ *)

(** X18. Tap tempo never goes below 30.  Starting with no taps, after
    taps at clock readings that never go back, the stored tempo is the one
    from before the taps or an integer from 30 to 300: intervals longer
    than the reset time start a new sequence instead of counting. *)
Theorem tap_tempo_at_least_30 (nows : list Z) (p : page) :
  tapTimes p = [] -> StronglySorted Z.le nows ->
  tempo_kept_or_within 30 p (taps nows p).
Proof.
  intros E Hsorted. apply taps_spaced; [exact Hsorted | |].
  - unfold spaced. rewrite E. constructor.
  - intro Hne. congruence.
Qed.

Lemma tap_tempo_at_least_30_witness :
  tempo_kept_or_within 30 first_page (taps [0; 1900; 3800; 9000]%Z first_page).
Proof.
  apply tap_tempo_at_least_30; [reflexivity |].
  repeat (constructor; try lia).
Defined.

(* ------------------------------------------------------------------ *)

(** X19. Tap tempo never stores a non-number.  Whatever the page and
    whatever the clock readings, going back included, after any taps the
    stored tempo is the one from before or an integer from 20 to 300. *)
Theorem tap_tempo_never_invalid (nows : list Z) (p : page) :
  tempo_kept_or_within 20 p (taps nows p).
Proof. apply taps_any. Qed.

(* ------------------------------------------------------------------ *)

(** X20. The arrow keys step the tempo and stop at the ends.  With a
    stored tempo [b] from 20 to 300 and the focus not in an input, ArrowUp
    does what the up button does and stores [min 300 (b + 1)], ArrowDown
    does what the down button does and stores [max 20 (b - 1)]; each shows
    the stored tempo in the readout and saves it; up then down comes back
    to [b] below 300, down then up above 20. *)
Theorem arrow_keys_saturate (fuel : nat) (now b : Z) (p : page) :
  _bpm (metronome p) = int b -> (20 <= b <= 300)%Z ->
  (keydown fuel false "ArrowUp" now p = Ret (bpmUp_click p)
   /\ _bpm (metronome (bpmUp_click p)) = int (Z.min 300 (b + 1))
   /\ bpmValueEl (bpmUp_click p) = int (Z.min 300 (b + 1))
   /\ storedBpm (bpmUp_click p) = Some (int (Z.min 300 (b + 1))))
  /\ (keydown fuel false "ArrowDown" now p = Ret (bpmDown_click p)
      /\ _bpm (metronome (bpmDown_click p)) = int (Z.max 20 (b - 1))
      /\ bpmValueEl (bpmDown_click p) = int (Z.max 20 (b - 1))
      /\ storedBpm (bpmDown_click p) = Some (int (Z.max 20 (b - 1))))
  /\ ((b < 300)%Z ->
      _bpm (metronome (bpmDown_click (bpmUp_click p))) = int b)
  /\ ((20 < b)%Z ->
      _bpm (metronome (bpmUp_click (bpmDown_click p))) = int b).
Proof.
  intros Hb Hr.
  assert (Hup : forall q c, _bpm (metronome q) = int c -> (20 <= c <= 300)%Z ->
                            _bpm (metronome (bpmUp_click q))
                            = int (Z.min 300 (c + 1))).
  { intros q c Hq Hc.
    change (_bpm (metronome (bpmUp_click q)))
      with (_bpm (set_bpm (add (_bpm (metronome q)) (int 1)) (metronome q))).
    rewrite Hq, add_int, set_bpm_int. f_equal. lia. }
  assert (Hdown : forall q c, _bpm (metronome q) = int c ->
                              (20 <= c <= 300)%Z ->
                              _bpm (metronome (bpmDown_click q))
                              = int (Z.max 20 (c - 1))).
  { intros q c Hq Hc.
    change (_bpm (metronome (bpmDown_click q)))
      with (_bpm (set_bpm (sub (_bpm (metronome q)) (int 1)) (metronome q))).
    rewrite Hq, sub_int, set_bpm_int. f_equal. lia. }
  pose proof (Hup p b Hb Hr) as Eu. pose proof (Hdown p b Hb Hr) as Ed.
  split; [| split; [| split]].
  - split; [reflexivity |]. split; [exact Eu |].
    split; [exact Eu | exact (f_equal Some Eu)].
  - split; [reflexivity |]. split; [exact Ed |].
    split; [exact Ed | exact (f_equal Some Ed)].
  - intro Hlt. rewrite (Hdown _ _ Eu) by lia. f_equal. lia.
  - intro Hlt. rewrite (Hup _ _ Ed) by lia. f_equal. lia.
Qed.

Lemma arrow_keys_saturate_witness :
  _bpm (metronome (bpmUp_click first_page)) = int 121
  /\ _bpm (metronome (bpmDown_click (bpmUp_click first_page))) = int 120.
Proof.
  assert (Hr : (20 <= 120 <= 300)%Z) by lia.
  destruct (arrow_keys_saturate 0 0 120 first_page Logic.eq_refl Hr)
    as ((_ & Hu & _) & _ & Hud & _).
  split; [exact Hu | apply Hud; lia].
Defined.

(* ------------------------------------------------------------------ *)

(** X21. The start/stop button says what a click will do.  If the button
    reads Stop with the [running] class exactly when the metronome is
    running, it still does after any sequence of the page's events: only
    the button's own listener starts and stops the metronome, and it sets
    the text and the class with it. *)
Theorem start_stop_button_in_sync (fuel : nat) (es : list event)
    (p p' : page) :
  in_sync p -> handle_all fuel es p = Ret p' -> in_sync p'.
Proof.
  apply (handle_all_rule in_sync).
  intros e q q' _. apply handle_in_sync.
Qed.

Lemma start_stop_button_in_sync_witness :
  startStopText after_a_while = START_TEXT
  /\ isRunning (metronome after_a_while) = false.
Proof.
  assert (Hrun : handle_all 10 a_while first_page = Ret after_a_while)
    by (vm_compute; reflexivity).
  assert (H0 : in_sync first_page) by (split; reflexivity).
  destruct (start_stop_button_in_sync 10 a_while first_page after_a_while
              H0 Hrun) as (Ht & _).
  assert (E : isRunning (metronome after_a_while) = false)
    by (vm_compute; reflexivity).
  rewrite E in Ht. split; [exact Ht | exact E].
Defined.

(* ------------------------------------------------------------------ *)

(** X22. The controls keep the tempo a number, shown and saved.  If the
    stored tempo is an integer from 20 to 300 that the readout shows and
    [localStorage] holds (or holds nothing while the tempo is the
    constructor's 120), the same is true after any sequence of the page's
    events, given presets whose value is a number: the buttons, the keys,
    the slider, taps and the edit box cannot store a [NaN] tempo. *)
Theorem controls_keep_tempo_shown (fuel : nat) (es : list event)
    (p p' : page) :
  tempo_shown p -> Forall numeric es ->
  handle_all fuel es p = Ret p' -> tempo_shown p'.
Proof.
  intros Hs Hnum. apply (handle_all_rule tempo_shown); [| exact Hs].
  intros e q q' Hin. apply handle_tempo_shown.
  rewrite Forall_forall in Hnum. exact (Hnum e Hin).
Qed.

Lemma controls_keep_tempo_shown_witness : tempo_shown after_a_while.
Proof.
  assert (Hrun : handle_all 10 a_while first_page = Ret after_a_while)
    by (vm_compute; reflexivity).
  assert (H0 : tempo_shown first_page).
  { exists 120%Z. split; [lia |]. repeat split. }
  assert (Hnum : Forall numeric a_while) by (repeat constructor).
  exact (controls_keep_tempo_shown 10 a_while first_page after_a_while
           H0 Hnum Hrun).
Defined.

(* ------------------------------------------------------------------ *)

(** X23. A reload restores the tempo.  On a page whose tempo is shown and
    saved as above, [initUI] on a new metronome with the same
    [localStorage] ends with the same stored tempo, and the property holds
    again when the HTML readout starts at 120. *)
Theorem reload_restores_tempo (ac : AudioContext) (html p : page) :
  tempo_shown p ->
  _bpm (metronome (restore_bpm (reloaded ac html p))) = _bpm (metronome p)
  /\ (bpmValueEl html = int 120 ->
      tempo_shown (restore_bpm (reloaded ac html p))).
Proof.
  intros (b & Hb & H1 & _ & H3).
  unfold restore_bpm, reloaded. cbn [storedBpm].
  destruct (storedBpm p) as [saved|].
  - subst saved.
    assert (E : _bpm (set_bpm (int b) (constructor ac)) = int b)
      by (rewrite set_bpm_int; f_equal; lia).
    split; [rewrite H1; exact E |].
    intros _. apply tempo_shown_setBpm. discriminate.
  - subst b. split; [rewrite H1; reflexivity |].
    intro Hhtml. exists 120%Z. split; [lia |].
    split; [reflexivity |]. split; [exact Hhtml | reflexivity].
Qed.

Lemma reload_restores_tempo_witness :
  _bpm (metronome (restore_bpm (reloaded sample_ctx first_page slow_page)))
  = int 90.
Proof.
  assert (Hs : tempo_shown slow_page)
    by (apply tempo_shown_setBpm; discriminate).
  destruct (reload_restores_tempo sample_ctx first_page slow_page Hs)
    as (H & _).
  rewrite H. vm_compute. reflexivity.
Defined.

(* ------------------------------------------------------------------ *)

(** X24. The beat display counts through the measure.  In a session with
    meter [M] and subdivision [S], both positive, the [j]-th timeout set
    since the start carries the beat index [j mod M], so [flashBeat] then
    shows [j mod M + 1], a number from 1 to [M], and pulses with the
    accent exactly on the first beat of a measure. *)
Theorem beat_display_cycles (M S : Z) (fuel : nat) (nows : list Q)
    (w w' : world) (j : nat) (beat : num) (p : page) :
  (0 < M)%Z -> (0 < S)%Z ->
  isRunning w = false ->
  _beatsPerMeasure w = int M -> _subdivision w = int S ->
  session fuel nows w = Ret w' ->
  nth_error (timeouts (since w w')) j = Some beat ->
  beat = int (Z.of_nat j mod M)
  /\ beatDisplay (flashBeat beat p) = int (Z.of_nat j mod M + 1)
  /\ (1 <= Z.of_nat j mod M + 1 <= M)%Z
  /\ (beatIndicator (flashBeat beat p) = pulse_accent
      <-> (Z.of_nat j mod M = 0)%Z).
Proof.
  intros HM HS Hstop EM ES Hrun Hj.
  destruct (session_sequencing M S HM HS fuel nows w w' Hstop EM ES Hrun)
    as (_ & _ & evs & Hlog & Hseq).
  rewrite (since_app w w' evs Hlog) in Hj.
  pose proof (timeouts_cycle M S evs w' j beat HM HS Hseq Hj) as ->.
  split; [reflexivity |].
  unfold flashBeat. cbn [beatDisplay beatIndicator with_beat].
  rewrite add_int, eq_int.
  split; [reflexivity |].
  split; [pose proof (Z.mod_pos_bound (Z.of_nat j) M HM); lia |].
  destruct (Z.eqb_spec (Z.of_nat j mod M) 0) as [E | E];
    split; intro H; congruence || reflexivity || discriminate.
Qed.

Lemma beat_display_cycles_witness :
  beatDisplay (flashBeat (int 1) first_page) = int 2.
Proof.
  assert (Hrun : session 10 [1 # 2; 1] waltz = Ret waltz_run)
    by (vm_compute; reflexivity).
  assert (Hj : nth_error (timeouts (since waltz waltz_run)) 1
               = Some (int 1)) by (vm_compute; reflexivity).
  assert (HM : (0 < 3)%Z) by lia.
  assert (HS : (0 < 2)%Z) by lia.
  destruct (beat_display_cycles 3 2 10 [1 # 2; 1] waltz waltz_run 1
              (int 1) first_page HM HS Logic.eq_refl Logic.eq_refl Logic.eq_refl
              Hrun Hj) as (_ & H & _).
  exact H.
Defined.

(* ================================================================== *)
(** ** The silent audio file: the bytes *)
(* ================================================================== *)

(** A value read back where it was written, when it fits the width. *)
Lemma le_value_bytes (n : nat) :
  forall v, (0 <= v < 256 ^ Z.of_nat n)%Z ->
            SilentAudio.le_value (SilentAudio.le_bytes n v) = v.
Proof.
  induction n as [|n IH]; intros v Hv.
  - simpl in *. lia.
  - cbn [SilentAudio.le_bytes SilentAudio.le_value].
    rewrite IH.
    + pose proof (Z.div_mod v 256). lia.
    + rewrite Nat2Z.inj_succ, Z.pow_succ_r in Hv by lia.
      split; [apply Z.div_pos; lia |].
      apply Z.div_lt_upper_bound; lia.
Qed.

(* ------------------------------------------------------------------ *)

(** X25. The silent audio file is a well-formed WAV file.  No write of
    [buildSilentWavUrl] falls outside the buffer; the 46 bytes it
    produces carry the four chunk tags, a RIFF size and a data size that
    match the length of the buffer, a byte rate and a block alignment that
    match the sample format (PCM, mono, 16 bits, 44100 Hz), and one whole
    sample, which is silent. *)
Theorem silent_wav_well_formed :
  exists (buf : list Z) (h : wav_header),
    SilentAudio.buildSilentWavUrl = Some buf
    /\ length buf = 46%nat
    /\ Forall (fun b => (0 <= b < 256)%Z) buf
    /\ read_header buf = Some h
    /\ describes h (length buf)
    /\ (channels h, bits_per_sample h, sample_rate h) = (1, 16, 44100)%Z
    /\ skipn 44 buf = [0; 0]%Z.
Proof.
  assert (E : exists buf, SilentAudio.buildSilentWavUrl = Some buf)
    by (vm_compute; eexists; reflexivity).
  destruct E as (buf & E).
  pose proof E as E0. vm_compute in E0. injection E0 as E0.
  exists buf. subst buf.
  eexists. split; [exact E |].
  split; [reflexivity |].
  split; [repeat (constructor; [lia |]); constructor |].
  split; [vm_compute; reflexivity |].
  split; [| split; reflexivity].
  unfold describes. cbn [riff_tag wave_tag fmt_tag data_tag riff_size fmt_size
    audio_format channels bits_per_sample block_align byte_rate data_size
    sample_rate].
  repeat split; vm_compute; try reflexivity; intro H; discriminate H.
Qed.
